(** * Privacy loss distributions: a shallow embedding of
      [accounting/python/privacy_loss_distribution.py]

    Python [float]s are idealised as real numbers: a finite float is a real
    [R], [math.inf] and [-math.inf] are the two extra points of [xreal].
    Two places where floating point decides more than the last digits of a
    value are modelled: [math.exp] raises [OverflowError] above its range
    and returns 0 below it, and the FFT routines of scipy and numpy, whose
    rounding decides which buckets a composition stores, are a parameter
    of the model.  The rounding error of the other operations, the
    overflow of a quotient and NaN are outside the model.
    Python [int]s are [Z].  A [dict] is an insertion-ordered association
    list with at most one entry per key.  Exceptions are values of [exn],
    raised through the [result] monad. *)

From Stdlib Require Import String Reals Lra Lia ZArith List Bool.
From Stdlib Require Import Sorting.Mergesort Orders Permutation Sorted.
Import ListNotations.
Local Open Scope R_scope.

(** ** Numbers *)

(** A Python float: finite, [math.inf] or [-math.inf]. *)
Inductive xreal : Type :=
| Fin (r : R)
| PInf
| NInf.

(** A Python number as the additive-noise classes receive it: the discrete
    mechanism tests [isinstance(x, int)]. *)
Inductive pynum : Type :=
| PyInt (z : Z)
| PyFloat (r : R).

Definition to_R (x : pynum) : R :=
  match x with
  | PyInt z => IZR z
  | PyFloat r => r
  end.

(** [math.floor] and [math.ceil] on a finite float. *)
Definition math_floor (x : R) : Z := Int_part x.
Definition math_ceil (x : R) : Z := (- Int_part (- x))%Z.

(** [round_fn = math.ceil if pessimistic_estimate else math.floor] *)
Definition round_fn (pessimistic_estimate : bool) (x : R) : Z :=
  if pessimistic_estimate then math_ceil x else math_floor x.

(** [a > b] on floats. *)
Definition xgt (a b : xreal) : bool :=
  match a, b with
  | PInf, PInf => false
  | PInf, _ => true
  | _, PInf => false
  | NInf, _ => false
  | Fin _, NInf => true
  | Fin x, Fin y => if Rlt_dec y x then true else false
  end.

Definition xlt (a b : xreal) : bool := xgt b a.

(** [min(a, b)] on floats. *)
Definition xmin (a b : xreal) : xreal := if xlt b a then b else a.

(** ** Exceptions *)

Inductive exn : Type :=
| ValueError (msg : string)
| ZeroDivisionError
| OverflowError.

Inductive result (A : Type) : Type :=
| Ok (a : A)
| Raise (e : exn).
Arguments Ok {A} a.
Arguments Raise {A} e.

Definition bind {A B : Type} (c : result A) (k : A -> result B) : result B :=
  match c with
  | Ok a => k a
  | Raise e => Raise e
  end.

Notation "x <- c1 ;; c2" := (bind c1 (fun x => c2))
  (at level 61, c1 at next level, right associativity).

(** Float division [x / y]. *)
Definition py_div (x y : R) : result R :=
  if Req_dec_T y 0 then Raise ZeroDivisionError else Ok (x / y).

(** [math.log(x)] *)
Definition math_log (x : R) : result R :=
  if Rlt_dec 0 x then Ok (ln x) else Raise (ValueError "math domain error").

(** [math.exp(x)] returns a float.  Above [exp_overflow] the exponential
    exceeds the largest float and Python raises [OverflowError]; below
    [exp_underflow] it is less than half the least positive float and the
    result is 0.0.  The two bounds lie strictly between the neighbouring
    floats at which the behaviour changes (709.782712893384 is the last
    argument that does not overflow, -745.1332191019411 the last whose
    result is not zero).  Between the bounds the value is taken as
    exact. *)
Definition exp_overflow : R := 709.782712893384.
Definition exp_underflow : R := - 745.13321910194116.

Definition float_exp (x : R) : R :=
  if Rlt_dec x exp_underflow then 0 else exp x.

Definition math_exp (x : R) : result R :=
  if Rlt_dec exp_overflow x then Raise OverflowError else Ok (float_exp x).

(** ** Dictionaries *)

Class EqDec (K : Type) := eq_dec : forall a b : K, {a = b} + {a <> b}.

#[export] Instance Z_EqDec : EqDec Z := Z.eq_dec.
#[export] Instance R_EqDec : EqDec R := Req_dec_T.
#[export] Instance string_EqDec : EqDec string := string_dec.
#[export] Instance xreal_EqDec : EqDec xreal.
Proof.
  intros [x| |] [y| |]; try (right; discriminate); try (left; reflexivity).
  destruct (Req_dec_T x y) as [->|n]; [left; reflexivity|right; congruence].
Defined.

Module Dict.
Section Ops.
Context {K V : Type} `{EqDec K}.

Definition t : Type := list (K * V).

(** [d.get(k)] *)
Fixpoint get (d : t) (k : K) : option V :=
  match d with
  | [] => None
  | (k', v) :: d' => if eq_dec k' k then Some v else get d' k
  end.

(** [d.get(k, dflt)]; also [d[k]] on a [defaultdict(lambda: dflt)]. *)
Definition get_default (d : t) (k : K) (dflt : V) : V :=
  match get d k with
  | Some v => v
  | None => dflt
  end.

(** [d[k] = v]: an existing entry keeps its place, a new one goes last. *)
Fixpoint set (d : t) (k : K) (v : V) : t :=
  match d with
  | [] => [(k, v)]
  | (k', v') :: d' =>
      if eq_dec k' k then (k', v) :: d' else (k', v') :: set d' k v
  end.

Definition keys (d : t) : list K := map fst d.
Definition values (d : t) : list V := map snd d.

(** The representation invariant: one entry per key. *)
Definition wf (d : t) : Prop := NoDup (keys d).
End Ops.
Arguments t : clear implicits.
End Dict.

(** [d[k] += v] on a [defaultdict(lambda: 0)] *)
Definition add_to {K : Type} `{EqDec K} (d : Dict.t K R) (k : K) (v : R)
  : Dict.t K R :=
  Dict.set d k (Dict.get_default d k 0 + v).

(** [sum(l)] *)
Definition sum (l : list R) : R := fold_right Rplus 0 l.

(** ** The data model *)

Record DifferentialPrivacyParameters : Type := {
  epsilon : R;
  delta : R
}.

Record PrivacyLossDistribution : Type := {
  rounded_probability_mass_function : Dict.t Z R;
  value_discretization_interval : R;
  infinity_mass : R
}.

(** [infinity_mass + sum(rounded_probability_mass_function.values())] *)
Definition total_mass (pld : PrivacyLossDistribution) : R :=
  infinity_mass pld + sum (Dict.values (rounded_probability_mass_function pld)).

(** ** [PrivacyLossDistribution.from_privacy_parameters] *)

Definition from_privacy_parameters
  (privacy_parameters : DifferentialPrivacyParameters)
  (value_discretization_interval : R) : result PrivacyLossDistribution :=
  let delta := delta privacy_parameters in
  let epsilon := epsilon privacy_parameters in
  q1 <- py_div epsilon value_discretization_interval ;;
  e1 <- math_exp (- epsilon) ;;
  m1 <- py_div (1 - delta) (1 + e1) ;;
  q2 <- py_div (- epsilon) value_discretization_interval ;;
  e2 <- math_exp epsilon ;;
  m2 <- py_div (1 - delta) (1 + e2) ;;
  Ok {| rounded_probability_mass_function :=
          Dict.set (Dict.set [] (math_ceil q1) m1) (math_ceil q2) m2;
        value_discretization_interval := value_discretization_interval;
        infinity_mass := delta |}.

(** ** Loops that may raise *)

(** A [for] loop over [l] whose body may raise. *)
Fixpoint foldM {A S : Type} (f : S -> A -> result S) (l : list A) (s : S)
  : result S :=
  match l with
  | [] => Ok s
  | a :: l' => s' <- f s a ;; foldM f l' s'
  end.

(** [range(a, b)] *)
Definition py_range (a b : Z) : list Z :=
  map (fun i => (a + Z.of_nat i)%Z) (seq 0 (Z.to_nat (b - a))).

(** [min(s)] and [max(s)] of a sequence of integers. *)
Definition py_min (l : list Z) : result Z :=
  match l with
  | [] => Raise (ValueError "min() arg is an empty sequence")
  | x :: l' => Ok (fold_left Z.min l' x)
  end.

Definition py_max (l : list Z) : result Z :=
  match l with
  | [] => Raise (ValueError "max() arg is an empty sequence")
  | x :: l' => Ok (fold_left Z.max l' x)
  end.

(** ** The dictionary convolution kernel *)

Definition dictionary_to_list (input_dictionary : Dict.t Z R)
  : result (Z * list R) :=
  offset <- py_min (Dict.keys input_dictionary) ;;
  max_val <- py_max (Dict.keys input_dictionary) ;;
  Ok (offset,
      map (fun i => Dict.get_default input_dictionary i 0)
          (py_range offset (max_val + 1))).

Definition list_to_dictionary (input_list : list R) (offset : Z)
  : Dict.t Z R :=
  fold_left
    (fun result_dictionary i =>
       if Rlt_dec 0 (nth i input_list 0)
       then Dict.set result_dictionary (Z.of_nat i + offset)%Z
                     (nth i input_list 0)
       else result_dictionary)
    (seq 0 (length input_list)) [].

(** [scipy.signal.fftconvolve(in1, in2)] and the real parts of
    [numpy.fft.ifft(numpy.fft.fft(a, n) ** k)] are computed in floating
    point.  They approximate a linear and a circular convolution, and
    their rounding decides which entries come out positive, that is which
    keys [list_to_dictionary] stores.  The two routines are therefore a
    parameter of every definition that calls them. *)
Record FFT : Type := {
  fftconvolve : list R -> list R -> list R;
  ifft_fft_power : list R -> nat -> nat -> list R
}.

Definition convolve_dictionary (fft : FFT)
  (dictionary1 dictionary2 : Dict.t Z R) : result (Dict.t Z R) :=
  r1 <- dictionary_to_list dictionary1 ;;
  r2 <- dictionary_to_list dictionary2 ;;
  let '(min1, list1) := r1 in
  let '(min2, list2) := r2 in
  let result_list := fftconvolve fft list1 list2 in
  Ok (list_to_dictionary result_list (min1 + min2)).

(** [numpy.fft.fft(a, n)] raises [ValueError] unless [n >= 1]. *)
Definition self_convolve_dictionary (fft : FFT)
  (input_dictionary : Dict.t Z R) (num_times : Z) : result (Dict.t Z R) :=
  r <- dictionary_to_list input_dictionary ;;
  let '(min_val, input_list) := r in
  let n := (num_times * Z.of_nat (length input_list))%Z in
  if (n <? 1)%Z
  then Raise (ValueError "Invalid number of FFT data points specified.")
  else
    let result_list :=
      ifft_fft_power fft input_list (Z.to_nat n) (Z.to_nat num_times) in
    let result_list_real_part := result_list in
    Ok (list_to_dictionary result_list_real_part (min_val * num_times)).

(** ** [PrivacyLossDistribution.from_two_probability_mass_functions] *)

(** The natural log of a probability mass: finite, or [-math.inf] for an
    outcome of mass zero. *)
Inductive logmass : Type :=
| LogMass (r : R)
| LogZero.

Definition logmass_to_xreal (l : logmass) : xreal :=
  match l with
  | LogMass r => Fin r
  | LogZero => NInf
  end.

(** The value of [math.exp] of a log mass when it returns;
    [math.exp(-math.inf)] is 0. *)
Definition logmass_exp (l : logmass) : R :=
  match l with
  | LogMass r => float_exp r
  | LogZero => 0
  end.

(** [math.exp] of a log mass. *)
Definition math_exp_logmass (l : logmass) : result R :=
  match l with
  | LogMass r => math_exp r
  | LogZero => Ok 0
  end.

Section FromTwoProbabilityMassFunctions.
Context {O : Type} `{EqDec O}.
Variables (log_probability_mass_function_lower
           log_probability_mass_function_upper : Dict.t O logmass).
Variable pessimistic_estimate : bool.
Variable value_discretization_interval : R.
Variable log_mass_truncation_bound : xreal.

(** The body of the first loop: an outcome that occurs only in the upper
    distribution adds its mass to the infinity mass. *)
Definition upper_only_step (infinity_mass : R) (outcome : O) : result R :=
  match Dict.get_default log_probability_mass_function_lower
                         outcome LogZero with
  | LogZero =>
      mass <- math_exp_logmass
                (Dict.get_default log_probability_mass_function_upper
                                  outcome LogZero) ;;
      Ok (infinity_mass + mass)
  | LogMass _ => Ok infinity_mass
  end.

(** The first loop. *)
Definition upper_only_mass : result R :=
  foldM upper_only_step (Dict.keys log_probability_mass_function_upper) 0.

(** One iteration of the second loop, on the pair
    [(probability_mass_function, infinity_mass)]. *)
Definition privacy_loss_step (st : Dict.t R R * R) (outcome : O)
  : result (Dict.t R R * R) :=
  let '(probability_mass_function, infinity_mass) := st in
  match Dict.get_default log_probability_mass_function_lower
                         outcome LogZero with
  | LogZero => Ok st
  | LogMass lower =>
      let upper := Dict.get_default log_probability_mass_function_upper
                                    outcome LogZero in
      if xgt (logmass_to_xreal upper) log_mass_truncation_bound then
        match upper with
        | LogMass u =>
            let privacy_loss_value := u - lower in
            mass <- math_exp u ;;
            Ok (Dict.set probability_mass_function privacy_loss_value
                  (Dict.get_default probability_mass_function
                                    privacy_loss_value 0 + mass),
                infinity_mass)
        | LogZero => Ok st (* [-math.inf] exceeds no bound *)
        end
      else if pessimistic_estimate then
        mass <- math_exp_logmass upper ;;
        Ok (probability_mass_function, infinity_mass + mass)
      else Ok st
  end.

(** The third loop: discretization of the privacy loss values.  The
    quotient is taken to be a finite float. *)
Definition discretize (probability_mass_function : Dict.t R R)
  : result (Dict.t Z R) :=
  foldM
    (fun rounded_probability_mass_function val =>
       q <- py_div val value_discretization_interval ;;
       Ok (add_to rounded_probability_mass_function
             (round_fn pessimistic_estimate q)
             (Dict.get_default probability_mass_function val 0)))
    (Dict.keys probability_mass_function) [].

Definition from_two_probability_mass_functions
  : result PrivacyLossDistribution :=
  infinity_mass <- upper_only_mass ;;
  st <- foldM privacy_loss_step
          (Dict.keys log_probability_mass_function_lower)
          ([], infinity_mass) ;;
  let '(probability_mass_function, infinity_mass) := st in
  rounded_probability_mass_function <- discretize probability_mass_function ;;
  Ok (Build_PrivacyLossDistribution rounded_probability_mass_function
        value_discretization_interval infinity_mass).
End FromTwoProbabilityMassFunctions.

(** ** [PrivacyLossDistribution.from_randomized_response] *)

Definition from_randomized_response (noise_parameter : R) (num_buckets : Z)
  (pessimistic_estimate : bool) (value_discretization_interval : R)
  : result PrivacyLossDistribution :=
  if Rle_dec noise_parameter 0 then
    Raise (ValueError "Noise parameter must be strictly between 0 and 1")
  else if Rle_dec 1 noise_parameter then
    Raise (ValueError "Noise parameter must be strictly between 0 and 1")
  else if (num_buckets <=? 1)%Z then
    Raise (ValueError "Number of buckets must be strictly greater than 1")
  else
    q <- py_div noise_parameter (IZR num_buckets) ;;
    let probability_output_equal_input := (1 - noise_parameter) + q in
    probability_output_not_input <-
      py_div noise_parameter (IZR num_buckets) ;;
    r1 <- py_div probability_output_equal_input probability_output_not_input ;;
    l1 <- math_log r1 ;;
    v1 <- py_div l1 value_discretization_interval ;;
    let d1 := add_to [] (round_fn pessimistic_estimate v1)
                     probability_output_equal_input in
    r2 <- py_div probability_output_not_input probability_output_equal_input ;;
    l2 <- math_log r2 ;;
    v2 <- py_div l2 value_discretization_interval ;;
    let d2 := add_to d1 (round_fn pessimistic_estimate v2)
                     probability_output_not_input in
    let d3 := add_to d2 0%Z
                (probability_output_not_input * IZR (num_buckets - 2)) in
    Ok {| rounded_probability_mass_function := d3;
          value_discretization_interval := value_discretization_interval;
          infinity_mass := 0 |}.

(** ** [PrivacyLossDistribution.get_delta_for_epsilon] *)

(** [math.exp] is called on [epsilon - val] only when [val > epsilon]: its
    argument is negative and it cannot overflow. *)
Definition get_delta_for_epsilon (self : PrivacyLossDistribution)
  (epsilon : R) : R :=
  fold_left
    (fun divergence i =>
       let val := IZR i * value_discretization_interval self in
       let mass :=
         Dict.get_default (rounded_probability_mass_function self) i 0 in
       if Rlt_dec epsilon val then
         if Rlt_dec 0 mass
         then divergence + (1 - exp (epsilon - val)) * mass
         else divergence
       else divergence)
    (Dict.keys (rounded_probability_mass_function self))
    (infinity_mass self).

(** ** [PrivacyLossDistribution.get_epsilon_for_delta] *)

(** [sorted(keys, reverse=True)] *)
Module ZDescending <: TotalLeBool.
Definition t : Type := Z.
Definition leb (x y : Z) : bool := (y <=? x)%Z.
Lemma leb_total (x y : Z) : leb x y = true \/ leb y x = true.
Proof. unfold leb. lia. Qed.
End ZDescending.

Module ZDescendingSort := Sort ZDescending.

Definition sorted_reverse (keys : list Z) : list Z :=
  ZDescendingSort.sort keys.

(** How the [for] loop ends: by its [return], or by [break] or exhaustion
    with the two running sums. *)
Inductive loop_exit : Type :=
| Returned (value : R)
| Fell_through (mass_upper mass_lower : R).

Section GetEpsilonForDelta.
Variable self : PrivacyLossDistribution.
Variable delta : R.

(** The [break] test; [and] evaluates its operands left to right and
    stops at the first false one. *)
Definition epsilon_reached (mass_upper mass_lower val : R) : result bool :=
  if Rlt_dec delta mass_upper then
    if Rlt_dec 0 mass_lower then
      q <- py_div (mass_upper - delta) mass_lower ;;
      l <- math_log q ;;
      Ok (if Rle_dec val l then true else false)
    else Ok false
  else Ok false.

Fixpoint epsilon_loop (keys : list Z) (mass_upper mass_lower : R)
  : result loop_exit :=
  match keys with
  | [] => Ok (Fell_through mass_upper mass_lower)
  | i :: keys' =>
      let val := IZR i * value_discretization_interval self in
      stop <- epsilon_reached mass_upper mass_lower val ;;
      if stop : bool then Ok (Fell_through mass_upper mass_lower)
      else
        let mass :=
          Dict.get_default (rounded_probability_mass_function self) i 0 in
        let mass_upper := mass_upper + mass in
        e <- math_exp (- val) ;;
        let mass_lower := mass_lower + e * mass in
        if Rle_dec delta mass_upper then
          if Req_dec_T mass_lower 0 then Ok (Returned (Rmax 0 val))
          else epsilon_loop keys' mass_upper mass_lower
        else epsilon_loop keys' mass_upper mass_lower
  end.

(** The code after the loop. *)
Definition epsilon_after_loop (r : loop_exit) : result xreal :=
match r with
| Returned value => Ok (Fin value)
| Fell_through mass_upper mass_lower =>
    if Rle_dec mass_upper (mass_lower + delta) then Ok (Fin 0)
    else
      q <- py_div (mass_upper - delta) mass_lower ;;
      l <- math_log q ;;
      Ok (Fin l)
end.

Definition get_epsilon_for_delta : result xreal :=
if Rlt_dec delta (infinity_mass self) then Ok PInf
else
  r <- epsilon_loop
         (sorted_reverse
            (Dict.keys (rounded_probability_mass_function self)))
         (infinity_mass self) 0 ;;
  epsilon_after_loop r.
End GetEpsilonForDelta.

(** ** [PrivacyLossDistribution.compose] and [self_compose] *)

Definition compose (fft : FFT)
  (self privacy_loss_distribution : PrivacyLossDistribution)
  : result PrivacyLossDistribution :=
  if Req_dec_T (value_discretization_interval self)
               (value_discretization_interval privacy_loss_distribution)
  then
    new_rounded_probability_mass_function <-
      convolve_dictionary fft
        (rounded_probability_mass_function self)
        (rounded_probability_mass_function privacy_loss_distribution) ;;
    let new_infinity_mass :=
      infinity_mass self + infinity_mass privacy_loss_distribution -
      infinity_mass self * infinity_mass privacy_loss_distribution in
    Ok (Build_PrivacyLossDistribution new_rounded_probability_mass_function
          (value_discretization_interval self) new_infinity_mass)
  else Raise (ValueError "Discretization intervals are different").

(** [self_convolve_dictionary] has raised unless [num_times >= 1], so the
    power has a positive integer exponent. *)
Definition self_compose (fft : FFT) (self : PrivacyLossDistribution)
  (num_times : Z) : result PrivacyLossDistribution :=
  new_rounded_probability_mass_function <-
    self_convolve_dictionary fft (rounded_probability_mass_function self)
                             num_times ;;
  let new_infinity_mass :=
    1 - (1 - infinity_mass self) ^ Z.to_nat num_times in
  Ok (Build_PrivacyLossDistribution new_rounded_probability_mass_function
        (value_discretization_interval self) new_infinity_mass).

(** ** Additive noise mechanisms *)

Record TailPrivacyLossDistribution : Type := {
  lower_x_truncation : pynum;
  upper_x_truncation : pynum;
  tail_probability_mass_function : Dict.t xreal R
}.

(** The abstract methods of [AdditiveNoisePrivacyLossDistribution]. *)
Record AdditiveNoiseMethods : Type := {
  privacy_loss_tail : result TailPrivacyLossDistribution;
  privacy_loss : pynum -> result R;
  inverse_privacy_loss : R -> result xreal;
  noise_cdf : xreal -> R
}.

(** [math.ceil] and [math.floor] on a number: an [int] is returned as is. *)
Definition ceil_num (x : pynum) : Z :=
  match x with
  | PyInt z => z
  | PyFloat r => math_ceil r
  end.

Definition floor_num (x : pynum) : Z :=
  match x with
  | PyInt z => z
  | PyFloat r => math_floor r
  end.

Section AdditiveNoiseInit.
Variable self : AdditiveNoiseMethods.
Variable pessimistic_estimate : bool.
Variable value_discretization_interval : R.

(** The loop over the tail: every finite privacy loss of the tail goes
    to its rounded bucket. *)
Definition tail_step (tail : Dict.t xreal R) (rounded : Dict.t Z R)
  (privacy_loss : xreal) : result (Dict.t Z R) :=
  match privacy_loss with
  | PInf => Ok rounded
  | Fin l =>
      q <- py_div l value_discretization_interval ;;
      Ok (add_to rounded (round_fn pessimistic_estimate q)
                 (Dict.get_default tail privacy_loss 0))
  | NInf =>
      (* the quotient is infinite and cannot be rounded to an integer *)
      _ <- py_div 1 value_discretization_interval ;;
      Raise OverflowError
  end.

(** The body of the loop of the discrete branch. *)
Definition discrete_step (rounded : Dict.t Z R) (x : Z)
  : result (Dict.t Z R) :=
  l <- privacy_loss self (PyInt x) ;;
  Ok (add_to rounded (round_fn pessimistic_estimate l)
        (noise_cdf self (Fin (IZR x)) - noise_cdf self (Fin (IZR (x - 1))))).

(** The [while] loop of the continuous branch; [None] when the fuel runs
    out before the loop ends. *)
Fixpoint continuous_loop (fuel : nat) (upper_x_truncation : xreal)
  (rounded : Dict.t Z R) (lower_x : xreal) (rounded_down_value : Z)
  : option (result (Dict.t Z R)) :=
  if xlt lower_x upper_x_truncation then
    match fuel with
    | O => None
    | S fuel' =>
        match inverse_privacy_loss self
                (value_discretization_interval * IZR rounded_down_value) with
        | Raise e => Some (Raise e)
        | Ok inverse =>
            let upper_x := xmin upper_x_truncation inverse in
            let probability_mass :=
              noise_cdf self upper_x - noise_cdf self lower_x in
            let rounded_value :=
              round_fn pessimistic_estimate
                       (IZR rounded_down_value + 0.5) in
            continuous_loop fuel' upper_x_truncation
              (add_to rounded rounded_value probability_mass)
              upper_x (rounded_down_value - 1)%Z
        end
    end
  else Some (Ok rounded).

Definition AdditiveNoisePrivacyLossDistribution_init
  (sensitivity : pynum) (discrete_noise : bool) (fuel : nat)
  : option (result PrivacyLossDistribution) :=
  if Rle_dec (to_R sensitivity) 0 then
    Some (Raise (ValueError "Sensitivity is not a positive real number"))
  else
    match privacy_loss_tail self with
    | Raise e => Some (Raise e)
    | Ok tail_pld =>
        let tail := tail_probability_mass_function tail_pld in
        let infinity_mass := Dict.get_default tail PInf 0 in
        match foldM (tail_step tail) (Dict.keys tail) [] with
        | Raise e => Some (Raise e)
        | Ok rounded =>
            let finish (r : result (Dict.t Z R)) :=
              d <- r ;;
              Ok (Build_PrivacyLossDistribution d
                    value_discretization_interval infinity_mass) in
            if discrete_noise then
              Some (finish
                (foldM discrete_step
                   (py_range (ceil_num (lower_x_truncation tail_pld))
                             (floor_num (upper_x_truncation tail_pld) + 1))
                   rounded))
            else
              match privacy_loss self (lower_x_truncation tail_pld) with
              | Raise e => Some (Raise e)
              | Ok l =>
                  match py_div l value_discretization_interval with
                  | Raise e => Some (Raise e)
                  | Ok q =>
                      option_map finish
                        (continuous_loop fuel
                           (Fin (to_R (upper_x_truncation tail_pld)))
                           rounded
                           (Fin (to_R (lower_x_truncation tail_pld)))
                           (math_floor q))
                  end
              end
        end
    end.
End AdditiveNoiseInit.

(** *** The Laplace mechanism *)

Section Laplace.
(** [scipy.stats.laplace(scale=parameter).cdf] *)
Variable laplace_cdf : R -> xreal -> R.
Variables (parameter sensitivity : R).

Definition Laplace_privacy_loss_tail : result TailPrivacyLossDistribution :=
  k1 <- py_div sensitivity parameter ;;
  k2 <- py_div (- sensitivity) parameter ;;
  Ok {| lower_x_truncation := PyFloat 0;
        upper_x_truncation := PyFloat sensitivity;
        tail_probability_mass_function :=
          Dict.set (Dict.set [] (Fin k1) 0.5) (Fin k2)
                   (laplace_cdf parameter (Fin (- sensitivity))) |}.

Definition Laplace_privacy_loss (x : pynum) : result R :=
  py_div (Rabs (to_R x - sensitivity) - Rabs (to_R x)) parameter.

Definition Laplace_inverse_privacy_loss (privacy_loss : R) : result xreal :=
  bound <- py_div sensitivity parameter ;;
  if Rlt_dec bound privacy_loss then Ok NInf
  else
    bound' <- py_div (- sensitivity) parameter ;;
    if Rle_dec privacy_loss bound' then Ok PInf
    else Ok (Fin (0.5 * (sensitivity - privacy_loss * parameter))).

Definition Laplace_methods : AdditiveNoiseMethods :=
  {| privacy_loss_tail := Laplace_privacy_loss_tail;
     privacy_loss := Laplace_privacy_loss;
     inverse_privacy_loss := Laplace_inverse_privacy_loss;
     noise_cdf := laplace_cdf parameter |}.
End Laplace.

Definition LaplacePrivacyLossDistribution (laplace_cdf : R -> xreal -> R)
  (parameter : R) (sensitivity : pynum) (pessimistic_estimate : bool)
  (value_discretization_interval : R) (fuel : nat)
  : option (result PrivacyLossDistribution) :=
  if Rle_dec parameter 0 then
    Some (Raise (ValueError "Parameter is not a positive real number"))
  else
    AdditiveNoisePrivacyLossDistribution_init
      (Laplace_methods laplace_cdf parameter (to_R sensitivity))
      pessimistic_estimate value_discretization_interval
      sensitivity false fuel.

(** *** The discrete Laplace mechanism *)

Section DiscreteLaplace.
(** [scipy.stats.dlaplace(parameter).cdf] *)
Variable dlaplace_cdf : R -> xreal -> R.
Variable parameter : R.
Variable sensitivity : Z.

Definition DiscreteLaplace_privacy_loss_tail
  : result TailPrivacyLossDistribution :=
  Ok {| lower_x_truncation := PyInt 1;
        upper_x_truncation := PyInt (sensitivity - 1);
        tail_probability_mass_function :=
          Dict.set
            (Dict.set [] (Fin (IZR sensitivity * parameter))
                      (dlaplace_cdf parameter (Fin 0)))
            (Fin (IZR (- sensitivity) * parameter))
            (dlaplace_cdf parameter (Fin (IZR (- sensitivity)))) |}.

Definition DiscreteLaplace_privacy_loss (x : pynum) : result R :=
  match x with
  | PyFloat _ => Raise (ValueError "Privacy loss at x is undefined")
  | PyInt x =>
      Ok (IZR (Z.abs (x - sensitivity) - Z.abs x) * parameter)
  end.

Definition DiscreteLaplace_inverse_privacy_loss (privacy_loss : R)
  : result xreal :=
  if Rlt_dec (IZR sensitivity * parameter) privacy_loss then Ok NInf
  else if Rle_dec privacy_loss (IZR (- sensitivity) * parameter) then Ok PInf
  else
    q <- py_div privacy_loss parameter ;;
    Ok (Fin (IZR (math_floor (0.5 * (IZR sensitivity - q))))).

Definition DiscreteLaplace_methods : AdditiveNoiseMethods :=
  {| privacy_loss_tail := DiscreteLaplace_privacy_loss_tail;
     privacy_loss := DiscreteLaplace_privacy_loss;
     inverse_privacy_loss := DiscreteLaplace_inverse_privacy_loss;
     noise_cdf := dlaplace_cdf parameter |}.
End DiscreteLaplace.

Definition DiscreteLaplacePrivacyLossDistribution
  (dlaplace_cdf : R -> xreal -> R) (parameter : R) (sensitivity : pynum)
  (pessimistic_estimate : bool) (value_discretization_interval : R)
  : option (result PrivacyLossDistribution) :=
  if Rle_dec parameter 0 then
    Some (Raise (ValueError "Parameter is not a positive real number"))
  else
    match sensitivity with
    | PyFloat _ =>
        Some (Raise (ValueError
          "Sensitivity of the discrete Laplace mechanism must be an integer"))
    | PyInt s =>
        AdditiveNoisePrivacyLossDistribution_init
          (DiscreteLaplace_methods dlaplace_cdf parameter s)
          pessimistic_estimate value_discretization_interval
          sensitivity true 0
    end.

(** *** The Gaussian mechanism: the privacy loss and its inverse *)

Section Gaussian.
Variables (standard_deviation sensitivity : R).

Definition Gaussian_privacy_loss (x : pynum) : result R :=
  py_div (0.5 * sensitivity * (sensitivity - 2 * to_R x))
         (standard_deviation ^ 2).

Definition Gaussian_inverse_privacy_loss (privacy_loss : R) : result xreal :=
  q <- py_div (privacy_loss * standard_deviation ^ 2) sensitivity ;;
  Ok (Fin (0.5 * sensitivity - q)).
End Gaussian.

(** *** [AdditiveNoisePrivacyLossDistribution.get_delta_for_epsilon] *)

(** [x - sensitivity] on a float that may be infinite. *)
Definition xsub (x : xreal) (sensitivity : R) : xreal :=
  match x with
  | Fin r => Fin (r - sensitivity)
  | PInf => PInf
  | NInf => NInf
  end.

Definition AdditiveNoise_get_delta_for_epsilon (self : AdditiveNoiseMethods)
  (sensitivity : pynum) (epsilon : R) : result R :=
  x_cutoff <- inverse_privacy_loss self epsilon ;;
  e <- math_exp epsilon ;;
  Ok (noise_cdf self x_cutoff -
      e * noise_cdf self (xsub x_cutoff (to_R sensitivity))).

(** *** [LaplacePrivacyLossDistribution.from_privacy_guarantee] *)

Definition Laplace_from_privacy_guarantee (laplace_cdf : R -> xreal -> R)
  (privacy_parameters : DifferentialPrivacyParameters) (sensitivity : pynum)
  (pessimistic_estimate : bool) (value_discretization_interval : R)
  (fuel : nat) : option (result PrivacyLossDistribution) :=
  match py_div (to_R sensitivity) (epsilon privacy_parameters) with
  | Raise e => Some (Raise e)
  | Ok parameter =>
      LaplacePrivacyLossDistribution laplace_cdf parameter sensitivity
        pessimistic_estimate value_discretization_interval fuel
  end.

(** ** Closed forms used in the statements *)

(** [Pr[R(x') = x]] and [Pr[R(x) = x]] of randomized response. *)
Definition probability_output_not_input (noise_parameter : R)
  (num_buckets : Z) : R :=
  noise_parameter / IZR num_buckets.

Definition probability_output_equal_input (noise_parameter : R)
  (num_buckets : Z) : R :=
  (1 - noise_parameter) + noise_parameter / IZR num_buckets.

(** What bucket [i] adds to the divergence at [epsilon]. *)
Definition divergence_term (self : PrivacyLossDistribution) (epsilon : R)
  (i : Z) : R :=
  let val := IZR i * value_discretization_interval self in
  let mass := Dict.get_default (rounded_probability_mass_function self) i 0 in
  if Rlt_dec epsilon val then
    if Rlt_dec 0 mass then (1 - exp (epsilon - val)) * mass else 0
  else 0.

(** Every stored mass is strictly positive. *)
Definition all_positive {K : Type} `{EqDec K} (d : Dict.t K R) : Prop :=
  forall k m, Dict.get d k = Some m -> 0 < m.

(** The upper mass of an outcome, zero when the outcome is absent. *)
Definition mass_upper {O : Type} `{EqDec O} (upper : Dict.t O logmass)
  (o : O) : R :=
  logmass_exp (Dict.get_default upper o LogZero).

(** Whether the outcome has positive mass in the lower distribution. *)
Definition in_lower {O : Type} `{EqDec O} (lower : Dict.t O logmass)
  (o : O) : bool :=
  match Dict.get_default lower o LogZero with
  | LogZero => false
  | LogMass _ => true
  end.

(** What the second loop of [from_two_probability_mass_functions] adds, to
    the histogram or to the infinity mass, for one outcome. *)
Definition contribution {O : Type} `{EqDec O} (lower upper : Dict.t O logmass)
  (pess : bool) (bound : xreal) (o : O) : R :=
  if in_lower lower o then
    if xgt (logmass_to_xreal (Dict.get_default upper o LogZero)) bound
    then mass_upper upper o
    else if pess then mass_upper upper o else 0
  else 0.

(** The linear convolution of two lists, of length
    [len(in1) + len(in2) - 1]: what [scipy.signal.fftconvolve]
    approximates. *)
Definition linear_convolution (in1 in2 : list R) : list R :=
  match in1, in2 with
  | [], _ | _, [] => []
  | _, _ =>
      map (fun n =>
             sum (map (fun i => nth i in1 0 * nth (n - i) in2 0)
                      (seq 0 (S n))))
          (seq 0 (length in1 + length in2 - 1))
  end.

(** [numpy.fft.fft(a, n)] crops or zero-pads [a] to length [n]. *)
Definition fft_pad (a : list R) (n : nat) : list R :=
  firstn n a ++ repeat 0 (n - length a).

(** A pointwise product of two length-[n] spectra is, after the inverse
    transform, the circular convolution of the two signals. *)
Definition circular_convolve (n : nat) (a b : list R) : list R :=
  map (fun m =>
         sum (map (fun i => nth i a 0 * nth ((m + n - i) mod n) b 0)
                  (seq 0 n)))
      (seq 0 n).

(** What [numpy.fft.ifft(numpy.fft.fft(a, n) ** k)] approximates, for
    [k >= 1]: the padded signal convolved circularly with itself, [k]
    factors in all. *)
Definition circular_power (a : list R) (n k : nat) : list R :=
  Nat.iter (k - 1) (circular_convolve n (fft_pad a n)) (fft_pad a n).

(** The routines without rounding. *)
Definition exact_FFT : FFT :=
  {| fftconvolve := linear_convolution;
     ifft_fft_power := circular_power |}.

(** The convolution of the dense lists of two histograms comes out of
    [fftconvolve] without rounding error. *)
Definition convolution_exact (fft : FFT) (d1 d2 : Dict.t Z R) : Prop :=
  forall min1 list1 min2 list2,
    dictionary_to_list d1 = Ok (min1, list1) ->
    dictionary_to_list d2 = Ok (min2, list2) ->
    fftconvolve fft list1 list2 = linear_convolution list1 list2.

(** The [num_times]-fold self convolution of the dense list of a histogram
    comes out of the FFT round trip without rounding error. *)
Definition self_convolution_exact (fft : FFT) (d : Dict.t Z R)
  (num_times : Z) : Prop :=
  forall min_val input_list,
    dictionary_to_list d = Ok (min_val, input_list) ->
    ifft_fft_power fft input_list
      (Z.to_nat (num_times * Z.of_nat (length input_list)))
      (Z.to_nat num_times) =
    circular_power input_list
      (Z.to_nat (num_times * Z.of_nat (length input_list)))
      (Z.to_nat num_times).

(** The convolution of two histograms at one key, in the words of the
    docstring of [convolve_dictionary]: the sum, over all [key1] and [key2]
    with [key1 + key2 = key], of [dictionary1[key1] * dictionary2[key2]]. *)
Definition convolution_at (dictionary1 dictionary2 : Dict.t Z R) (key : Z)
  : R :=
  sum (map (fun key1 =>
              Dict.get_default dictionary1 key1 0 *
              Dict.get_default dictionary2 (key - key1)%Z 0)
           (Dict.keys dictionary1)).

(** A histogram with its entries of non-positive mass dropped. *)
Definition positive_part (d : Dict.t Z R) (key : Z) : option R :=
  match Dict.get d key with
  | Some v => if Rlt_dec 0 v then Some v else None
  | None => None
  end.

(** The privacy loss value and the mass of bucket [i]. *)
Definition bucket_value (self : PrivacyLossDistribution) (i : Z) : R :=
  IZR i * value_discretization_interval self.

Definition bucket_mass (self : PrivacyLossDistribution) (i : Z) : R :=
  Dict.get_default (rounded_probability_mass_function self) i 0.

(** The hockey-stick term of bucket [i] before it is clipped at zero. *)
Definition signed_term (self : PrivacyLossDistribution) (epsilon : R) (i : Z)
  : R :=
  (1 - exp (epsilon - bucket_value self i)) * bucket_mass self i.

(** [eps] is the smallest non-negative epsilon whose divergence is at most
    [delta]. *)
Definition smallest_epsilon (self : PrivacyLossDistribution) (delta eps : R)
  : Prop :=
  0 <= eps /\
  get_delta_for_epsilon self eps <= delta /\
  forall eps', 0 <= eps' -> get_delta_for_epsilon self eps' <= delta ->
               eps <= eps'.

(** What the loop of [get_epsilon_for_delta] maintains: [pre] are the keys
    already folded into the two running sums, [suf] the keys to come. *)
Definition loop_invariant (self : PrivacyLossDistribution) (delta : R)
  (pre suf : list Z) (mass_upper mass_lower : R) : Prop :=
  (forall eps,
     get_delta_for_epsilon self eps =
     infinity_mass self +
     sum (map (divergence_term self eps) (pre ++ suf))) /\
  (forall k, In k (pre ++ suf) -> 0 <= bucket_mass self k) /\
  (mass_lower = 0 -> forall a, In a pre -> bucket_mass self a = 0) /\
  StronglySorted (fun a b => (b < a)%Z) suf /\
  (forall a b, In a pre -> In b suf -> (b < a)%Z) /\
  (forall eps,
     infinity_mass self + sum (map (signed_term self eps) pre) =
     mass_upper - exp eps * mass_lower) /\
  0 <= mass_lower /\
  (mass_lower = 0 -> mass_upper <= delta) /\
  (forall eps,
     (exists a, In a pre /\ bucket_value self a <= eps) ->
     get_delta_for_epsilon self eps <= delta).

(** No stored mass is negative. *)
Definition all_nonnegative {K : Type} `{EqDec K} (d : Dict.t K R) : Prop :=
  forall k m, Dict.get d k = Some m -> 0 <= m.

(** The least positive normal float, [sys.float_info.min].  Below it a
    float has fewer than 53 significant bits, down to none at all. *)
Definition float_min_normal : R := 2.2250738585072014e-308.

(** The histograms on which [get_epsilon_for_delta] computes
    [mass_lower] within the range of normal floats: at every privacy loss
    value [val], [math.exp(-val)] neither overflows nor underflows, it is
    at least the least normal float, and so is its product with the mass
    of the bucket unless that mass is zero. *)
Definition losses_in_float_range (self : PrivacyLossDistribution) : Prop :=
  forall k, In k (Dict.keys (rounded_probability_mass_function self)) ->
            exp_underflow <= - bucket_value self k <= exp_overflow /\
            float_min_normal <= exp (- bucket_value self k) /\
            (bucket_mass self k = 0 \/
             float_min_normal <=
             exp (- bucket_value self k) * bucket_mass self k).

(** No finite log mass of the distribution makes [math.exp] overflow; a
    log probability, being at most 0, never does. *)
Definition no_exp_overflow {O : Type} `{EqDec O} (d : Dict.t O logmass)
  : Prop :=
  forall o u, Dict.get_default d o LogZero = LogMass u -> u <= exp_overflow.

(** No finite log mass of the distribution makes [math.exp] underflow. *)
Definition no_exp_underflow {O : Type} `{EqDec O} (d : Dict.t O logmass)
  : Prop :=
  forall o u, Dict.get_default d o LogZero = LogMass u -> exp_underflow <= u.

(** The entry of index [n] of the linear convolution of two lists. *)
Definition convolution_entry (in1 in2 : list R) (n : nat) : R :=
  sum (map (fun i => nth i in1 0 * nth (n - i) in2 0) (seq 0 (S n))).

(** * Proofs *)

(** ** Rounding *)

Lemma math_floor_spec (x : R) :
  IZR (math_floor x) <= x < IZR (math_floor x) + 1.
Proof.
  unfold math_floor. destruct (base_Int_part x). lra.
Qed.

Lemma math_floor_unique (x : R) (z : Z) :
  IZR z <= x < IZR z + 1 -> math_floor x = z.
Proof.
  intros Hz. unfold math_floor. symmetry. apply Int_part_spec. lra.
Qed.

Lemma math_ceil_spec (x : R) :
  IZR (math_ceil x) - 1 < x <= IZR (math_ceil x).
Proof.
  unfold math_ceil. rewrite opp_IZR.
  destruct (base_Int_part (- x)). lra.
Qed.

Lemma math_ceil_unique (x : R) (z : Z) :
  IZR z - 1 < x <= IZR z -> math_ceil x = z.
Proof.
  intros Hz. unfold math_ceil.
  rewrite <- (Int_part_spec (- x) (- z)); [lia|].
  rewrite opp_IZR. lra.
Qed.

Lemma math_ceil_IZR (z : Z) : math_ceil (IZR z) = z.
Proof. apply math_ceil_unique. lra. Qed.

Lemma math_floor_IZR (z : Z) : math_floor (IZR z) = z.
Proof. apply math_floor_unique. lra. Qed.

Lemma py_div_ok (x y : R) : y <> 0 -> py_div x y = Ok (x / y).
Proof.
  intros Hy. unfold py_div.
  destruct (Req_dec_T y 0); [contradiction|reflexivity].
Qed.

Lemma py_div_zero (x : R) : py_div x 0 = Raise ZeroDivisionError.
Proof.
  unfold py_div. destruct (Req_dec_T 0 0); [reflexivity|contradiction].
Qed.

Lemma one_plus_exp_neq_0 (x : R) : 1 + exp x <> 0.
Proof. pose proof (exp_pos x). lra. Qed.

(** ** [math.exp] *)

Lemma exp_range_bounds : exp_underflow < 0 < exp_overflow.
Proof. unfold exp_underflow, exp_overflow. lra. Qed.

Lemma float_exp_exact (x : R) : exp_underflow <= x -> float_exp x = exp x.
Proof.
  intros Hx. unfold float_exp.
  destruct (Rlt_dec x exp_underflow); [exfalso; lra|reflexivity].
Qed.

Lemma float_exp_underflow (x : R) : x < exp_underflow -> float_exp x = 0.
Proof.
  intros Hx. unfold float_exp.
  destruct (Rlt_dec x exp_underflow); [reflexivity|contradiction].
Qed.

Lemma float_exp_nonneg (x : R) : 0 <= float_exp x.
Proof.
  unfold float_exp. destruct (Rlt_dec x exp_underflow); [lra|].
  apply Rlt_le, exp_pos.
Qed.

Lemma float_exp_pos (x : R) : exp_underflow <= x -> 0 < float_exp x.
Proof. intros Hx. rewrite float_exp_exact by exact Hx. apply exp_pos. Qed.

Lemma float_exp_le_1 (x : R) : float_exp x <= 1 -> x <= 0.
Proof.
  pose proof exp_range_bounds as Hb. unfold float_exp.
  destruct (Rlt_dec x exp_underflow); [lra|]. intros Hle.
  destruct (Rle_dec x 0) as [|Hpos]; [assumption|exfalso].
  assert (exp 0 < exp x) by (apply exp_increasing; lra).
  rewrite exp_0 in *. lra.
Qed.

Lemma one_plus_float_exp_neq_0 (x : R) : 1 + float_exp x <> 0.
Proof. pose proof (float_exp_nonneg x). lra. Qed.

Lemma math_exp_value (x : R) :
  x <= exp_overflow -> math_exp x = Ok (float_exp x).
Proof.
  intros Hx. unfold math_exp.
  destruct (Rlt_dec exp_overflow x); [exfalso; lra|reflexivity].
Qed.

Lemma math_exp_ok (x : R) :
  exp_underflow <= x <= exp_overflow -> math_exp x = Ok (exp x).
Proof.
  intros [Hlo Hhi]. rewrite math_exp_value by exact Hhi.
  now rewrite float_exp_exact.
Qed.

Lemma math_exp_overflow (x : R) :
  exp_overflow < x -> math_exp x = Raise OverflowError.
Proof.
  intros Hx. unfold math_exp.
  destruct (Rlt_dec exp_overflow x); [reflexivity|contradiction].
Qed.

Lemma math_exp_inv (x m : R) :
  math_exp x = Ok m -> m = float_exp x /\ x <= exp_overflow.
Proof.
  unfold math_exp. destruct (Rlt_dec exp_overflow x); [discriminate|].
  intros [= <-]. split; [reflexivity|lra].
Qed.

(** ** [from_privacy_parameters] *)

(** The value returned when neither [math.exp(-epsilon)] nor
    [math.exp(epsilon)] overflows; neither underflows then. *)
Lemma from_privacy_parameters_value (eps d vdi : R) :
  vdi <> 0 -> - exp_overflow <= eps <= exp_overflow ->
  from_privacy_parameters {| epsilon := eps; delta := d |} vdi =
  Ok {| rounded_probability_mass_function :=
          Dict.set (Dict.set [] (math_ceil (eps / vdi))
                             ((1 - d) / (1 + exp (- eps))))
                   (math_ceil (- eps / vdi)) ((1 - d) / (1 + exp eps));
        value_discretization_interval := vdi;
        infinity_mass := d |}.
Proof.
  intros Hvdi Heps. pose proof exp_range_bounds as Hb.
  assert (Hu : exp_underflow <= - exp_overflow)
    by (unfold exp_underflow, exp_overflow; lra).
  unfold from_privacy_parameters. cbn [epsilon delta].
  rewrite !(py_div_ok _ vdi) by assumption. cbn [bind].
  rewrite !math_exp_ok by lra. cbn [bind].
  rewrite !py_div_ok by apply one_plus_exp_neq_0.
  reflexivity.
Qed.

(** ** C10: the two point masses collide when epsilon is zero *)

(** C10. For every delta, in [0,1] in particular, and every non-zero
    discretization interval, [from_privacy_parameters] with epsilon = 0
    returns a PLD whose histogram is the single bucket 0 with mass
    (1 - delta)/2 (the entry for -epsilon overwrites the entry for
    +epsilon), with infinity mass delta; infinity mass plus histogram mass
    is delta + (1 - delta)/2, which is below 1 as soon as delta < 1. *)
Theorem from_privacy_parameters_epsilon_zero (d vdi : R) :
  vdi <> 0 ->
  exists pld,
    from_privacy_parameters {| epsilon := 0; delta := d |} vdi = Ok pld /\
    rounded_probability_mass_function pld = [(0%Z, (1 - d) / 2)] /\
    infinity_mass pld = d /\
    total_mass pld = d + (1 - d) / 2 /\
    (d < 1 -> total_mass pld < 1).
Proof.
  intros Hvdi. pose proof exp_range_bounds as Hb.
  rewrite from_privacy_parameters_value by (try assumption; lra).
  eexists. split; [reflexivity|].
  assert (Hk1 : math_ceil (0 / vdi) = 0%Z).
  { replace (0 / vdi) with (IZR 0) by (unfold Rdiv; lra). apply math_ceil_IZR. }
  assert (Hk2 : math_ceil (- 0 / vdi) = 0%Z).
  { replace (- 0 / vdi) with (IZR 0) by (unfold Rdiv; lra).
    apply math_ceil_IZR. }
  assert (Hm : (1 - d) / (1 + exp 0) = (1 - d) / 2).
  { rewrite exp_0. replace (1 + 1) with 2 by lra. reflexivity. }
  unfold total_mass. simpl. rewrite Hk1, Hk2. simpl.
  destruct (eq_dec 0%Z 0%Z) as [_|n]; [|contradiction].
  rewrite Hm. simpl. repeat split; lra.
Qed.

Lemma from_privacy_parameters_epsilon_zero_witness :
  exists pld,
    from_privacy_parameters {| epsilon := 0; delta := 0 |} 1 = Ok pld /\
    rounded_probability_mass_function pld = [(0%Z, (1 - 0) / 2)] /\
    infinity_mass pld = 0 /\
    total_mass pld = 0 + (1 - 0) / 2 /\
    (0 < 1 -> total_mass pld < 1).
Proof.
  apply (from_privacy_parameters_epsilon_zero 0 1); lra.
Defined.

(** ** Tactics and small facts used throughout *)

(** Case analysis on the real-number tests of the goal; impossible branches
    are closed by linear arithmetic. *)
Ltac decide_R :=
  repeat match goal with
  | |- context [Rlt_dec ?a ?b] => destruct (Rlt_dec a b); try (exfalso; lra)
  | |- context [Rle_dec ?a ?b] => destruct (Rle_dec a b); try (exfalso; lra)
  | |- context [Req_dec_T ?a ?b] => destruct (Req_dec_T a b); try (exfalso; lra)
  end.

Lemma math_log_ok (x : R) : 0 < x -> math_log x = Ok (ln x).
Proof.
  intros Hx. unfold math_log. decide_R. reflexivity.
Qed.

Lemma bind_ok {A B : Type} (a : A) (k : A -> result B) : bind (Ok a) k = k a.
Proof. reflexivity. Qed.

(** ** C9: the argument checks of [from_randomized_response] *)

Section RandomizedResponse.
Variables (p : R) (k : Z) (pess : bool) (vdi : R).
Hypothesis Hp : 0 < p < 1.
Hypothesis Hk : (1 < k)%Z.

Lemma IZR_buckets_pos : 1 < IZR k.
Proof. apply (IZR_lt 1 k Hk). Qed.

Lemma not_input_pos : 0 < probability_output_not_input p k.
Proof.
  pose proof IZR_buckets_pos. unfold probability_output_not_input.
  apply Rdiv_lt_0_compat; lra.
Qed.

Lemma equal_input_pos : 0 < probability_output_equal_input p k.
Proof.
  pose proof not_input_pos.
  unfold probability_output_equal_input, probability_output_not_input in *.
  lra.
Qed.

(** On valid arguments the only run-time failure left is the division by
    a zero discretization interval. *)
Lemma from_randomized_response_valid :
  from_randomized_response p k pess vdi =
    v1 <- py_div (ln (probability_output_equal_input p k /
                      probability_output_not_input p k)) vdi ;;
    v2 <- py_div (ln (probability_output_not_input p k /
                      probability_output_equal_input p k)) vdi ;;
    Ok {| rounded_probability_mass_function :=
            add_to
              (add_to
                 (add_to [] (round_fn pess v1)
                         (probability_output_equal_input p k))
                 (round_fn pess v2) (probability_output_not_input p k))
              0%Z (probability_output_not_input p k * IZR (k - 2));
          value_discretization_interval := vdi;
          infinity_mass := 0 |}.
Proof.
  pose proof IZR_buckets_pos as HK.
  pose proof not_input_pos as Hn. pose proof equal_input_pos as He.
  unfold from_randomized_response. decide_R.
  destruct (Z.leb_spec k 1); [lia|].
  rewrite !(py_div_ok p (IZR k)) by lra. rewrite !bind_ok.
  change (p / IZR k) with (probability_output_not_input p k).
  change (1 - p + probability_output_not_input p k)
    with (probability_output_equal_input p k).
  set (eq_in := probability_output_equal_input p k) in *.
  set (not_in := probability_output_not_input p k) in *.
  rewrite (py_div_ok eq_in not_in) by lra. rewrite bind_ok.
  rewrite math_log_ok by (apply Rdiv_lt_0_compat; assumption).
  rewrite bind_ok.
  destruct (py_div (ln (eq_in / not_in)) vdi) as [v1|e]; [|reflexivity].
  rewrite !bind_ok.
  rewrite (py_div_ok not_in eq_in) by lra. rewrite bind_ok.
  rewrite math_log_ok by (apply Rdiv_lt_0_compat; assumption).
  reflexivity.
Qed.
End RandomizedResponse.

(** A zero discretization interval is not rejected as a configuration
    error: the first division by it raises [ZeroDivisionError]. *)
Lemma from_randomized_response_zero_interval (p : R) (k : Z) (pess : bool) :
  0 < p < 1 -> (1 < k)%Z ->
  from_randomized_response p k pess 0 = Raise ZeroDivisionError.
Proof.
  intros Hp Hk. rewrite from_randomized_response_valid by assumption.
  rewrite py_div_zero. reflexivity.
Qed.

(** C9. [from_randomized_response] raises its configuration error (a
    [ValueError]) if and only if [noise_parameter <= 0], [noise_parameter
    >= 1] or [num_buckets <= 1]; on every valid input, with a non-zero
    discretization interval, it returns a PLD whose infinity mass is 0. *)
Theorem from_randomized_response_configuration_error
  (p : R) (k : Z) (pess : bool) (vdi : R) :
  ((exists msg, from_randomized_response p k pess vdi = Raise (ValueError msg))
   <-> (p <= 0 \/ 1 <= p \/ (k <= 1)%Z)) /\
  (0 < p < 1 -> (1 < k)%Z -> vdi <> 0 ->
   exists pld, from_randomized_response p k pess vdi = Ok pld /\
               infinity_mass pld = 0).
Proof.
  split.
  - split.
    + intros [msg Hraise].
      destruct (Rle_dec p 0) as [|Hp0]; [now left|].
      destruct (Rle_dec 1 p) as [|Hp1]; [now right; left|].
      destruct (Z_le_gt_dec k 1) as [|Hk]; [now right; right|].
      exfalso.
      rewrite from_randomized_response_valid in Hraise by (try lra; lia).
      unfold py_div in Hraise.
      destruct (Req_dec_T vdi 0); simpl in Hraise; discriminate.
    + intros Hbad. unfold from_randomized_response.
      destruct (Rle_dec p 0); [eexists; reflexivity|].
      destruct (Rle_dec 1 p); [eexists; reflexivity|].
      destruct (Z.leb_spec k 1); [eexists; reflexivity|].
      exfalso. destruct Hbad as [?|[?|?]]; try lra; lia.
  - intros Hp Hk Hvdi.
    rewrite from_randomized_response_valid by assumption.
    rewrite !py_div_ok by assumption. simpl.
    eexists. split; reflexivity.
Qed.

Lemma from_randomized_response_configuration_error_witness :
  exists pld, from_randomized_response (1 / 2) 2 true 1 = Ok pld /\
              infinity_mass pld = 0.
Proof.
  apply (proj2 (from_randomized_response_configuration_error (1 / 2) 2 true 1));
    [lra | lia | lra].
Defined.

(** ** C6: the divergence is non-increasing in epsilon *)

Section Monotonicity.
Variable self : PrivacyLossDistribution.


Lemma term_nonneg (epsilon : R) (i : Z) : 0 <= divergence_term self epsilon i.
Proof.
  unfold divergence_term. cbv zeta.
  destruct (Rlt_dec epsilon _) as [Hlt|]; [|lra].
  destruct (Rlt_dec 0 _) as [Hm|]; [|lra].
  apply Rmult_le_pos; [|lra].
  assert (exp (epsilon - IZR i * value_discretization_interval self) < exp 0)
    by (apply exp_increasing; lra).
  rewrite exp_0 in *. lra.
Qed.

Lemma term_antitone (epsilon1 epsilon2 : R) (i : Z) :
  epsilon1 <= epsilon2 ->
  divergence_term self epsilon2 i <= divergence_term self epsilon1 i.
Proof.
  intros Hle. pose proof (term_nonneg epsilon1 i) as Hnn. revert Hnn.
  unfold divergence_term. cbv zeta.
  destruct (Rlt_dec epsilon2 _) as [H2|H2]; [|tauto].
  destruct (Rlt_dec epsilon1 _) as [H1|H1]; [|lra].
  destruct (Rlt_dec 0 _) as [Hm|]; [|lra].
  intros _. apply Rmult_le_compat_r; [lra|].
  destruct Hle as [Hlt| ->]; [|lra].
  assert (exp (epsilon1 - IZR i * value_discretization_interval self) <
          exp (epsilon2 - IZR i * value_discretization_interval self))
    by (apply exp_increasing; lra).
  lra.
Qed.

Lemma get_delta_for_epsilon_fold (epsilon : R) (keys : list Z) (acc : R) :
  fold_left
    (fun divergence i =>
       let val := IZR i * value_discretization_interval self in
       let mass :=
         Dict.get_default (rounded_probability_mass_function self) i 0 in
       if Rlt_dec epsilon val then
         if Rlt_dec 0 mass
         then divergence + (1 - exp (epsilon - val)) * mass
         else divergence
       else divergence) keys acc
  = acc + sum (map (divergence_term self epsilon) keys).
Proof.
  revert acc. induction keys as [|i keys IH]; intros acc; simpl; [lra|].
  rewrite IH. unfold divergence_term at 2. cbv zeta.
  destruct (Rlt_dec epsilon _); [destruct (Rlt_dec 0 _)|]; lra.
Qed.

Lemma get_delta_for_epsilon_sum (epsilon : R) :
  get_delta_for_epsilon self epsilon =
  infinity_mass self +
  sum (map (divergence_term self epsilon)
           (Dict.keys (rounded_probability_mass_function self))).
Proof. apply get_delta_for_epsilon_fold. Qed.
End Monotonicity.

(** C6. For every PLD and every pair of reals epsilon1 <= epsilon2,
    [get_delta_for_epsilon(epsilon1) >= get_delta_for_epsilon(epsilon2)]:
    the computed hockey-stick divergence is non-increasing in epsilon.  The
    loop skips every bucket whose mass is not positive, so the masses need
    not be assumed non-negative. *)
Theorem get_delta_for_epsilon_monotone
  (self : PrivacyLossDistribution) (epsilon1 epsilon2 : R) :
  epsilon1 <= epsilon2 ->
  get_delta_for_epsilon self epsilon1 >= get_delta_for_epsilon self epsilon2.
Proof.
  intros Hle. rewrite !get_delta_for_epsilon_sum. apply Rle_ge.
  apply Rplus_le_compat_l.
  induction (Dict.keys (rounded_probability_mass_function self)) as [|i l IH];
    simpl; [lra|].
  apply Rplus_le_compat; [|exact IH].
  now apply term_antitone.
Qed.

Lemma get_delta_for_epsilon_monotone_witness :
  get_delta_for_epsilon
    {| rounded_probability_mass_function := [(1%Z, 1 / 2); ((-1)%Z, 1 / 2)];
       value_discretization_interval := 1;
       infinity_mass := 0 |} 0
  >= get_delta_for_epsilon
    {| rounded_probability_mass_function := [(1%Z, 1 / 2); ((-1)%Z, 1 / 2)];
       value_discretization_interval := 1;
       infinity_mass := 0 |} 1.
Proof.
  apply get_delta_for_epsilon_monotone. lra.
Defined.

(** ** C8: the inverse privacy loss of the Laplace mechanism *)

Section LaplaceInverse.
Variables (b s : R).
Hypothesis Hb : 0 < b.
Hypothesis Hs : 0 < s.

(** The privacy loss never raises: the parameter is positive. *)
Lemma Laplace_privacy_loss_value (x : pynum) :
  Laplace_privacy_loss b s x = Ok ((Rabs (to_R x - s) - Rabs (to_R x)) / b).
Proof. unfold Laplace_privacy_loss. apply py_div_ok. lra. Qed.

Lemma scaled_le (u v : R) : u / b <= v <-> u <= v * b.
Proof.
  split; intros Hle.
  - apply (Rmult_le_compat_r b) in Hle; [|lra].
    unfold Rdiv in Hle. rewrite Rmult_assoc, Rinv_l, Rmult_1_r in Hle; lra.
  - apply (Rmult_le_reg_r b); [lra|].
    unfold Rdiv. rewrite Rmult_assoc, Rinv_l, Rmult_1_r; lra.
Qed.

Lemma scaled_ge (u v : R) : v <= u / b <-> v * b <= u.
Proof.
  split; intros Hle.
  - apply (Rmult_le_compat_r b) in Hle; [|lra].
    unfold Rdiv in Hle. rewrite Rmult_assoc, Rinv_l, Rmult_1_r in Hle; lra.
  - apply (Rmult_le_reg_r b); [lra|].
    unfold Rdiv. rewrite Rmult_assoc, Rinv_l, Rmult_1_r; lra.
Qed.

Lemma Laplace_inverse_cases (L : R) :
  Laplace_inverse_privacy_loss b s L =
    if Rlt_dec (s / b) L then Ok NInf
    else if Rle_dec L (- s / b) then Ok PInf
    else Ok (Fin (0.5 * (s - L * b))).
Proof.
  unfold Laplace_inverse_privacy_loss.
  rewrite !py_div_ok by lra. rewrite bind_ok.
  destruct (Rlt_dec (s / b) L); reflexivity.
Qed.

Lemma Laplace_bounds_ordered : - s / b < s / b.
Proof.
  apply Rnot_le_lt. intros Hle. apply scaled_ge in Hle.
  unfold Rdiv in Hle. rewrite Rmult_assoc, Rinv_l, Rmult_1_r in Hle; lra.
Qed.
End LaplaceInverse.

(** C8. For the Laplace mechanism with parameter b > 0 and sensitivity
    s > 0, [inverse_privacy_loss(L)] is +infinity when L <= -s/b, is
    0.5*(s - L*b) when -s/b < L <= s/b, and is -infinity when L > s/b; in
    the finite range the returned x is the largest point at which
    [privacy_loss(x) = (|x - s| - |x|)/b] is at least L. *)
Theorem Laplace_inverse_privacy_loss_spec (b s L : R) :
  0 < b -> 0 < s ->
  (L <= - s / b -> Laplace_inverse_privacy_loss b s L = Ok PInf) /\
  (- s / b < L <= s / b ->
   Laplace_inverse_privacy_loss b s L = Ok (Fin (0.5 * (s - L * b))) /\
   (exists l, Laplace_privacy_loss b s (PyFloat (0.5 * (s - L * b))) = Ok l /\
              L <= l) /\
   (forall x l, Laplace_privacy_loss b s x = Ok l -> L <= l ->
                to_R x <= 0.5 * (s - L * b))) /\
  (s / b < L -> Laplace_inverse_privacy_loss b s L = Ok NInf) /\
  (forall x, Laplace_privacy_loss b s x =
             Ok ((Rabs (to_R x - s) - Rabs (to_R x)) / b)).
Proof.
  intros Hb Hs. pose proof (Laplace_bounds_ordered b s Hb Hs) as Hord.
  split; [|split; [|split]].
  - intros HL. rewrite Laplace_inverse_cases by assumption. decide_R.
    reflexivity.
  - intros [Hlo Hhi].
    assert (Hhi' : L * b <= s).
    { apply scaled_ge in Hhi; assumption. }
    assert (Hlo' : - s < L * b).
    { apply Rnot_le_lt. intros Hle. apply (Rlt_not_le _ _ Hlo).
      apply scaled_ge; assumption. }
    split; [|split].
    + rewrite Laplace_inverse_cases by assumption. decide_R. reflexivity.
    + exists ((Rabs (0.5 * (s - L * b) - s) - Rabs (0.5 * (s - L * b))) / b).
      split; [now apply Laplace_privacy_loss_value|].
      apply scaled_ge; [assumption|].
      unfold Rabs. repeat destruct (Rcase_abs _); lra.
    + intros x l Hloss HL.
      rewrite Laplace_privacy_loss_value in Hloss by assumption.
      injection Hloss as <-.
      apply scaled_ge in HL; [|assumption].
      revert HL. unfold Rabs. repeat destruct (Rcase_abs _); lra.
  - intros HL. rewrite Laplace_inverse_cases by assumption. decide_R.
    reflexivity.
  - intros x. now apply Laplace_privacy_loss_value.
Qed.

Lemma Laplace_inverse_privacy_loss_spec_witness :
  Laplace_inverse_privacy_loss 1 1 0 = Ok (Fin (0.5 * (1 - 0 * 1))) /\
  (exists l, Laplace_privacy_loss 1 1 (PyFloat (0.5 * (1 - 0 * 1))) = Ok l /\
             0 <= l) /\
  (forall x l, Laplace_privacy_loss 1 1 x = Ok l -> 0 <= l ->
               to_R x <= 0.5 * (1 - 0 * 1)).
Proof.
  apply (Laplace_inverse_privacy_loss_spec 1 1 0); lra.
Defined.

(** ** Dictionaries: lookups after updates *)

Section DictFacts.
Context {K V : Type} `{EqDec K}.
Implicit Types (d : Dict.t K V) (k : K) (v : V).

Lemma get_set_same d k v : Dict.get (Dict.set d k v) k = Some v.
Proof.
  induction d as [|[k' v'] d IH]; simpl.
  - destruct (eq_dec k k); [reflexivity|contradiction].
  - destruct (eq_dec k' k) as [->|Hne]; simpl.
    + destruct (eq_dec k k); [reflexivity|contradiction].
    + destruct (eq_dec k' k); [contradiction|exact IH].
Qed.

Lemma get_set_other d k v k' :
  k <> k' -> Dict.get (Dict.set d k v) k' = Dict.get d k'.
Proof.
  intros Hne. induction d as [|[k0 v0] d IH]; simpl.
  - destruct (eq_dec k k'); [contradiction|reflexivity].
  - destruct (eq_dec k0 k) as [->|Hne0]; simpl.
    + destruct (eq_dec k k'); [contradiction|reflexivity].
    + destruct (eq_dec k0 k'); [reflexivity|exact IH].
Qed.

Lemma get_in_keys d k : Dict.get d k <> None <-> In k (Dict.keys d).
Proof.
  induction d as [|[k' v'] d IH]; simpl; [tauto|].
  destruct (eq_dec k' k) as [->|Hne].
  - split; [now left|discriminate].
  - rewrite IH. split; [now right|]. intros [?|?]; [contradiction|assumption].
Qed.

Lemma get_none_not_in d k : Dict.get d k = None <-> ~ In k (Dict.keys d).
Proof.
  rewrite <- get_in_keys. destruct (Dict.get d k).
  - split; [discriminate|]. intros Hx. exfalso. apply Hx. discriminate.
  - split; [|reflexivity]. intros _ Hx. now apply Hx.
Qed.

Lemma keys_set_present d k v :
  In k (Dict.keys d) -> Dict.keys (Dict.set d k v) = Dict.keys d.
Proof.
  induction d as [|[k' v'] d IH]; simpl; [tauto|].
  intros Hin. destruct (eq_dec k' k) as [->|Hne]; simpl; [reflexivity|].
  f_equal. apply IH. destruct Hin; [contradiction|assumption].
Qed.

Lemma set_fresh d k v :
  ~ In k (Dict.keys d) -> Dict.set d k v = d ++ [(k, v)].
Proof.
  induction d as [|[k' v'] d IH]; simpl; [reflexivity|].
  intros Hin. destruct (eq_dec k' k) as [->|Hne]; [tauto|].
  f_equal. apply IH. tauto.
Qed.

Lemma set_wf d k v : Dict.wf d -> Dict.wf (Dict.set d k v).
Proof.
  unfold Dict.wf. intros Hwf.
  destruct (in_dec eq_dec k (Dict.keys d)) as [Hin|Hout].
  - now rewrite keys_set_present.
  - rewrite set_fresh by assumption. unfold Dict.keys. rewrite map_app. simpl.
    apply NoDup_app; [exact Hwf | repeat constructor; intros [] | ].
    intros x Hx [<-|[]]. contradiction.
Qed.

Lemma get_In d k v : Dict.get d k = Some v -> In (k, v) d.
Proof.
  induction d as [|[k' v'] d IH]; simpl; [discriminate|].
  destruct (eq_dec k' k) as [->|Hne].
  - intros [= ->]. now left.
  - intros Hget. right. now apply IH.
Qed.

Lemma In_get d k v : Dict.wf d -> In (k, v) d -> Dict.get d k = Some v.
Proof.
  unfold Dict.wf. induction d as [|[k' v'] d IH]; simpl; [tauto|].
  intros Hwf Hin. inversion Hwf as [|? ? Hnotin Hwf']; subst.
  destruct Hin as [[= -> ->]|Hin].
  - destruct (eq_dec k k); [reflexivity|contradiction].
  - destruct (eq_dec k' k) as [->|Hne]; [|now apply IH].
    exfalso. apply Hnotin. change k with (fst (k, v)). now apply in_map.
Qed.
End DictFacts.

Section AddTo.
Context {K : Type} `{EqDec K}.
Implicit Types (d : Dict.t K R) (k : K).

Lemma get_add_to_same d k v :
  Dict.get (add_to d k v) k = Some (Dict.get_default d k 0 + v).
Proof. apply get_set_same. Qed.

Lemma get_add_to_other d k v k' :
  k <> k' -> Dict.get (add_to d k v) k' = Dict.get d k'.
Proof. apply get_set_other. Qed.

Lemma get_default_none d k (dflt : R) :
  Dict.get d k = None -> Dict.get_default d k dflt = dflt.
Proof. unfold Dict.get_default. now intros ->. Qed.

Lemma get_default_some d k (dflt v : R) :
  Dict.get d k = Some v -> Dict.get_default d k dflt = v.
Proof. unfold Dict.get_default. now intros ->. Qed.

Lemma add_to_wf d k v : Dict.wf d -> Dict.wf (add_to d k v).
Proof. apply set_wf. Qed.
End AddTo.

(** ** C1: the buckets of the discrete branch *)

Lemma math_ceil_eq (x : R) (z : Z) : x = IZR z -> math_ceil x = z.
Proof. intros ->. apply math_ceil_IZR. Qed.

Lemma math_floor_eq (x : R) (z : Z) : x = IZR z -> math_floor x = z.
Proof. intros ->. apply math_floor_IZR. Qed.

(** Case analysis on the key comparisons of a concrete dictionary. *)
Ltac decide_keys :=
  repeat match goal with
  | |- context [@eq_dec ?K ?I ?a ?b] =>
      destruct (@eq_dec K I a b) as [?Heq|?Hneq];
      [ try (exfalso; first [ lia | lra | discriminate
                            | injection Heq; intros; lra ])
      | try (exfalso; apply Hneq;
             first [ reflexivity | lia | lra | f_equal; lra ]) ]
  end.

(** C1, at a failing input.  The discrete Laplace mechanism with parameter
    1, sensitivity 3, pessimistic rounding and discretization interval 1/2:
    the noise value x = 1 has privacy loss 1, so its mass
    [noise_cdf(1) - noise_cdf(0)] belongs to bucket ceil(1 / (1/2)) = 2.
    The discrete branch rounds the privacy loss without dividing by the
    interval and puts the mass in bucket ceil(1) = 1; bucket 2 is absent. *)
Theorem DiscreteLaplace_bucket_not_scaled (dlaplace_cdf : R -> xreal -> R) :
  exists pld,
    DiscreteLaplacePrivacyLossDistribution dlaplace_cdf 1 (PyInt 3) true (1 / 2)
      = Some (Ok pld) /\
    DiscreteLaplace_privacy_loss 1 3 (PyInt 1) = Ok (IZR 1 * 1) /\
    round_fn true (IZR 1 * 1 / (1 / 2)) = 2%Z /\
    Dict.get (rounded_probability_mass_function pld) 2%Z = None /\
    Dict.get (rounded_probability_mass_function pld) 1%Z =
      Some (0 + (dlaplace_cdf 1 (Fin 1) - dlaplace_cdf 1 (Fin 0))).
Proof.
  unfold DiscreteLaplacePrivacyLossDistribution.
  destruct (Rle_dec 1 0) as [Hle|_]; [exfalso; lra|].
  unfold AdditiveNoisePrivacyLossDistribution_init.
  destruct (Rle_dec (to_R (PyInt 3)) 0) as [Hle|_];
    [simpl in Hle; exfalso; lra|].
  cbn [privacy_loss_tail DiscreteLaplace_methods
       DiscreteLaplace_privacy_loss_tail tail_probability_mass_function
       lower_x_truncation upper_x_truncation ceil_num floor_num].
  cbn [Z.opp Dict.set]. decide_keys.
  cbn [Dict.keys map fst foldM tail_step].
  rewrite !py_div_ok by lra. rewrite !bind_ok.
  change (py_range 1 (3 - 1 + 1)) with [1%Z; 2%Z].
  cbn [foldM discrete_step privacy_loss DiscreteLaplace_methods
       DiscreteLaplace_privacy_loss noise_cdf bind round_fn].
  change (Z.abs (1 - 3) - Z.abs 1)%Z with 1%Z.
  change (Z.abs (2 - 3) - Z.abs 2)%Z with (-1)%Z.
  change (1 - 1)%Z with 0%Z. change (2 - 1)%Z with 1%Z.
  rewrite (math_ceil_eq (3 * 1 / (1 / 2)) 6) by lra.
  rewrite (math_ceil_eq (-3 * 1 / (1 / 2)) (-6)) by lra.
  rewrite (math_ceil_eq (1 * 1) 1) by lra.
  rewrite (math_ceil_eq (-1 * 1) (-1)) by lra.
  rewrite (math_ceil_eq (1 * 1 / (1 / 2)) 2) by lra.
  eexists. split; [reflexivity|].
  cbn [rounded_probability_mass_function].
  split; [reflexivity|]. split; [reflexivity|]. split.
  - rewrite !get_add_to_other by lia. reflexivity.
  - rewrite get_add_to_other by lia. rewrite get_add_to_same.
    rewrite get_default_none; [reflexivity|].
    rewrite !get_add_to_other by lia. reflexivity.
Qed.

(** ** C2: which factories store only positive masses *)

Section AllPositive.
Context {K : Type} `{EqDec K}.
Implicit Types (d : Dict.t K R) (k : K).

Lemma all_positive_nil : all_positive (@nil (K * R)).
Proof. intros k m. discriminate. Qed.

Lemma all_positive_set d k v :
  all_positive d -> 0 < v -> all_positive (Dict.set d k v).
Proof.
  intros Hd Hv k' m. destruct (eq_dec k k') as [<-|Hne].
  - rewrite get_set_same. now intros [= <-].
  - rewrite get_set_other by assumption. apply Hd.
Qed.

Lemma get_default_nonneg d k : all_positive d -> 0 <= Dict.get_default d k 0.
Proof.
  intros Hd. unfold Dict.get_default.
  destruct (Dict.get d k) as [m|] eqn:Hget; [|lra].
  apply Rlt_le. now apply (Hd k).
Qed.

Lemma all_positive_add_to d k v :
  all_positive d -> 0 < v -> all_positive (add_to d k v).
Proof.
  intros Hd Hv. apply all_positive_set; [assumption|].
  pose proof (get_default_nonneg d k Hd). lra.
Qed.

Lemma get_default_positive d k :
  all_positive d -> In k (Dict.keys d) -> 0 < Dict.get_default d k 0.
Proof.
  intros Hd Hin. apply get_in_keys in Hin. unfold Dict.get_default.
  destruct (Dict.get d k) as [m|] eqn:Hget; [|contradiction].
  now apply (Hd k).
Qed.
End AllPositive.

Lemma list_to_dictionary_positive (input_list : list R) (offset : Z) :
  all_positive (list_to_dictionary input_list offset).
Proof.
  unfold list_to_dictionary.
  generalize (seq 0 (List.length input_list)).
  assert (Hnil : all_positive (@nil (Z * R))) by apply all_positive_nil.
  revert Hnil. generalize (@nil (Z * R)) as d.
  intros d Hd l. revert d Hd.
  induction l as [|i l IH]; intros d Hd; simpl; [exact Hd|].
  apply IH. destruct (Rlt_dec 0 (nth i input_list 0)); [|exact Hd].
  now apply all_positive_set.
Qed.

Lemma bind_inv {A B : Type} (c : result A) (k : A -> result B) (b : B) :
  bind c k = Ok b -> exists a, c = Ok a /\ k a = Ok b.
Proof. destruct c as [a|e]; simpl; [eauto|discriminate]. Qed.

(** ** Loops that may raise *)

Lemma foldM_invariant {A S : Type} (f : S -> A -> result S)
  (P : S -> Prop) (l : list A) :
  (forall s a s', In a l -> P s -> f s a = Ok s' -> P s') ->
  forall s s', P s -> foldM f l s = Ok s' -> P s'.
Proof.
  induction l as [|a l IH]; intros Hstep s s' Hs Hfold; simpl in Hfold.
  - now injection Hfold as <-.
  - apply bind_inv in Hfold as [s1 [H1 Hfold]].
    apply (IH (fun s a s' Hin => Hstep s a s' (or_intror Hin)) s1 s');
      [|exact Hfold].
    apply (Hstep s a s1); [now left|exact Hs|exact H1].
Qed.

Lemma foldM_total {A S : Type} (f : S -> A -> result S) (l : list A) :
  (forall s a, In a l -> exists s', f s a = Ok s') ->
  forall s, exists s', foldM f l s = Ok s'.
Proof.
  induction l as [|a l IH]; intros Hstep s; simpl; [now exists s|].
  destruct (Hstep s a (or_introl eq_refl)) as [s1 ->]. cbn [bind].
  apply IH. intros s2 a' Hin. apply Hstep. now right.
Qed.

Lemma foldM_sum {A S : Type} (f : S -> A -> result S) (measure : S -> R)
  (c : A -> R) (l : list A) :
  (forall s a s', In a l -> f s a = Ok s' -> measure s' = measure s + c a) ->
  forall s s', foldM f l s = Ok s' ->
               measure s' = measure s + sum (map c l).
Proof.
  induction l as [|a l IH]; intros Hstep s s' Hfold; simpl in Hfold.
  - injection Hfold as <-. simpl. lra.
  - apply bind_inv in Hfold as [s1 [H1 Hfold]].
    rewrite (IH (fun s a s' Hin => Hstep s a s' (or_intror Hin)) s1 s' Hfold).
    rewrite (Hstep s a s1 (or_introl eq_refl) H1). simpl. lra.
Qed.

(** A loop whose body can raise nothing but [e], and does raise it at one
    of the elements, raises [e]. *)
Lemma foldM_raises {A S : Type} (f : S -> A -> result S) (e : exn)
  (l : list A) :
  (forall s a e', f s a = Raise e' -> e' = e) ->
  (exists a, In a l /\ forall s, f s a = Raise e) ->
  forall s, foldM f l s = Raise e.
Proof.
  intros Honly. induction l as [|a l IH]; intros [b [Hin Hb]] s;
    [destruct Hin|]. simpl.
  destruct (f s a) as [s1|e'] eqn:Hstep; cbn [bind].
  - destruct Hin as [->|Hin]; [rewrite Hb in Hstep; discriminate|].
    apply IH. now exists b.
  - now rewrite (Honly _ _ _ Hstep).
Qed.

Lemma convolve_dictionary_positive (fft : FFT) (d1 d2 d : Dict.t Z R) :
  convolve_dictionary fft d1 d2 = Ok d -> all_positive d.
Proof.
  unfold convolve_dictionary. intros Hc.
  apply bind_inv in Hc as [[min1 list1] [_ Hc]].
  apply bind_inv in Hc as [[min2 list2] [_ Hc]].
  injection Hc as <-. apply list_to_dictionary_positive.
Qed.

Lemma self_convolve_dictionary_positive (fft : FFT) (d0 d : Dict.t Z R)
  (n : Z) :
  self_convolve_dictionary fft d0 n = Ok d -> all_positive d.
Proof.
  unfold self_convolve_dictionary. intros Hc.
  apply bind_inv in Hc as [[min_val input_list] [_ Hc]].
  destruct (_ <? 1)%Z; [discriminate|].
  injection Hc as <-. apply list_to_dictionary_positive.
Qed.

Lemma from_privacy_parameters_inv (pp : DifferentialPrivacyParameters)
  (vdi : R) (pld : PrivacyLossDistribution) :
  from_privacy_parameters pp vdi = Ok pld ->
  vdi <> 0 /\
  pld = {| rounded_probability_mass_function :=
             Dict.set (Dict.set [] (math_ceil (epsilon pp / vdi))
                         ((1 - delta pp) / (1 + float_exp (- epsilon pp))))
                      (math_ceil (- epsilon pp / vdi))
                      ((1 - delta pp) / (1 + float_exp (epsilon pp)));
           value_discretization_interval := vdi;
           infinity_mass := delta pp |}.
Proof.
  intros Hok. destruct (Req_dec_T vdi 0) as [->|Hvdi].
  - unfold from_privacy_parameters in Hok. rewrite py_div_zero in Hok.
    discriminate.
  - split; [assumption|]. unfold from_privacy_parameters in Hok.
    rewrite !(py_div_ok _ vdi) in Hok by assumption. cbn [bind] in Hok.
    apply bind_inv in Hok as [e1 [He1 Hok]].
    apply math_exp_inv in He1 as [-> _].
    rewrite py_div_ok in Hok by apply one_plus_float_exp_neq_0.
    cbn [bind] in Hok.
    apply bind_inv in Hok as [e2 [He2 Hok]].
    apply math_exp_inv in He2 as [-> _].
    rewrite py_div_ok in Hok by apply one_plus_float_exp_neq_0.
    cbn [bind] in Hok. now injection Hok as <-.
Qed.

Lemma math_exp_logmass_inv (l : logmass) (m : R) :
  math_exp_logmass l = Ok m -> m = logmass_exp l.
Proof.
  destruct l as [r|]; cbn [math_exp_logmass logmass_exp].
  - intros Hm. now apply math_exp_inv in Hm.
  - now intros [= <-].
Qed.

Section TwoMassFunctionsPositive.
Context {O : Type} `{EqDec O}.
Variables (lower upper : Dict.t O logmass).
Variables (pess : bool) (vdi : R) (bound : xreal).
Hypothesis upper_no_underflow : no_exp_underflow upper.

Lemma privacy_loss_step_positive (st st' : Dict.t R R * R) (outcome : O) :
  all_positive (fst st) ->
  privacy_loss_step lower upper pess bound st outcome = Ok st' ->
  all_positive (fst st').
Proof.
  destruct st as [pmf im]. intros Hpos. unfold privacy_loss_step.
  destruct (Dict.get_default lower outcome LogZero) as [l|];
    [|now intros [= <-]].
  destruct (Dict.get_default upper outcome LogZero) as [u|] eqn:Hu.
  - destruct (xgt _ bound).
    + intros Hstep. apply bind_inv in Hstep as [m [Hm Hstep]].
      injection Hstep as <-. cbn [fst].
      apply math_exp_inv in Hm as [-> _].
      apply all_positive_add_to; [exact Hpos|].
      apply float_exp_pos. now apply (upper_no_underflow outcome).
    + destruct pess; [|now intros [= <-]].
      intros Hstep. apply bind_inv in Hstep as [m [_ Hstep]].
      now injection Hstep as <-.
  - destruct (xgt _ bound); [now intros [= <-]|].
    destruct pess; [|now intros [= <-]].
    intros Hstep. apply bind_inv in Hstep as [m [_ Hstep]].
    now injection Hstep as <-.
Qed.

Lemma discretize_fold_positive (pmf : Dict.t R R) (vals : list R)
  (acc d : Dict.t Z R) :
  all_positive pmf -> incl vals (Dict.keys pmf) -> all_positive acc ->
  foldM
    (fun rounded val =>
       q <- py_div val vdi ;;
       Ok (add_to rounded (round_fn pess q) (Dict.get_default pmf val 0)))
    vals acc = Ok d ->
  all_positive d.
Proof.
  intros Hpmf. revert acc. induction vals as [|val vals IH];
    intros acc Hincl Hacc Hfold; simpl in Hfold.
  - now injection Hfold as <-.
  - apply bind_inv in Hfold as [acc' [Hstep Hfold]].
    apply bind_inv in Hstep as [q [_ Hstep]]. injection Hstep as <-.
    apply (IH _ (fun x Hx => Hincl x (or_intror Hx))) in Hfold; [exact Hfold|].
    apply all_positive_add_to; [exact Hacc|].
    apply get_default_positive; [exact Hpmf|]. apply Hincl. now left.
Qed.

Lemma from_two_probability_mass_functions_positive
  (pld : PrivacyLossDistribution) :
  from_two_probability_mass_functions lower upper pess vdi bound = Ok pld ->
  all_positive (rounded_probability_mass_function pld).
Proof.
  unfold from_two_probability_mass_functions. intros Hok.
  apply bind_inv in Hok as [im0 [_ Hok]].
  apply bind_inv in Hok as [[pmf im] [Hsteps Hok]].
  apply bind_inv in Hok as [d [Hd Hok]]. injection Hok as <-.
  cbn [rounded_probability_mass_function].
  assert (Hpos : all_positive pmf).
  { apply (foldM_invariant (privacy_loss_step lower upper pess bound)
             (fun st => all_positive (fst st)) (Dict.keys lower)
             (fun st o st' _ => privacy_loss_step_positive st st' o)
             ([], im0) (pmf, im)); [apply all_positive_nil|exact Hsteps]. }
  unfold discretize in Hd.
  eapply discretize_fold_positive; [exact Hpos | apply incl_refl | | exact Hd].
  apply all_positive_nil.
Qed.
End TwoMassFunctionsPositive.



Lemma ln_3_ge_1 : 1 <= ln 3.
Proof.
  rewrite <- (ln_exp 1). destruct exp_le_3 as [Hlt| ->]; [|lra].
  apply Rlt_le. apply ln_increasing; [apply exp_pos|assumption].
Qed.

(** Binary randomized response: with noise parameter 1/2 and two buckets
    the histogram stores bucket 0 with mass
    [probability_output_not_input * (2 - 2) = 0]. *)
Lemma randomized_response_stores_zero_mass :
  exists pld m,
    from_randomized_response (1 / 2) 2 true 1 = Ok pld /\
    Dict.get (rounded_probability_mass_function pld) 0%Z = Some m /\
    m <= 0.
Proof.
  rewrite from_randomized_response_valid by (try lra; lia).
  rewrite !py_div_ok by lra. rewrite !bind_ok.
  eexists. eexists. split; [reflexivity|].
  cbn [rounded_probability_mass_function round_fn]. split.
  - apply get_add_to_same.
  - unfold probability_output_not_input, probability_output_equal_input.
    assert (H1 : (1 - 1 / 2 + 1 / 2 / 2) / (1 / 2 / 2) = 3) by lra.
    assert (H2 : 1 / 2 / 2 / (1 - 1 / 2 + 1 / 2 / 2) = / 3) by lra.
    rewrite H1, H2. rewrite ln_Rinv by lra.
    pose proof ln_3_ge_1 as Hln.
    pose proof (math_ceil_spec (ln 3 / 1)) as Hc1.
    pose proof (math_ceil_spec (- ln 3 / 1)) as Hc2.
    assert (Hk1 : (0 < math_ceil (ln 3 / 1))%Z).
    { apply lt_IZR. lra. }
    assert (Hk2 : (math_ceil (- ln 3 / 1) < 0)%Z).
    { apply lt_IZR. lra. }
    rewrite get_default_none.
    + change (IZR (2 - 2)) with 0. lra.
    + rewrite !get_add_to_other by lia. reflexivity.
Qed.

(** ** C3: mass conservation of [from_two_probability_mass_functions] *)

Lemma sum_app (l1 l2 : list R) : sum (l1 ++ l2) = sum l1 + sum l2.
Proof. induction l1 as [|x l1 IH]; simpl; lra. Qed.

Lemma sum_map_permutation {A : Type} (h : A -> R) (l1 l2 : list A) :
  Permutation l1 l2 -> sum (map h l1) = sum (map h l2).
Proof. induction 1; simpl; lra. Qed.

Lemma sum_map_filter {A : Type} (h : A -> R) (keep : A -> bool) (l : list A) :
  (forall x, In x l -> keep x = false -> h x = 0) ->
  sum (map h l) = sum (map h (filter keep l)).
Proof.
  induction l as [|x l IH]; intros Hzero; simpl; [reflexivity|].
  rewrite IH by (intros y Hy; apply Hzero; now right).
  destruct (keep x) eqn:Hkeep; simpl; [reflexivity|].
  rewrite (Hzero x) by (auto; now left). lra.
Qed.

(** A function that vanishes outside the common elements has the same sum
    over two duplicate-free lists. *)
Lemma sum_map_common {A : Type} `{EqDec A} (h : A -> R) (l1 l2 : list A) :
  NoDup l1 -> NoDup l2 ->
  (forall x, ~ In x l1 -> h x = 0) ->
  (forall x, ~ In x l2 -> h x = 0) ->
  sum (map h l1) = sum (map h l2).
Proof.
  intros Hnd1 Hnd2 Hz1 Hz2.
  pose (mem := fun (l : list A) (x : A) =>
                 if in_dec eq_dec x l then true else false).
  assert (Hmem : forall l x, mem l x = true <-> In x l).
  { intros l x. unfold mem. destruct (in_dec eq_dec x l); split;
      intros; try assumption; try reflexivity; try discriminate.
    contradiction. }
  rewrite (sum_map_filter h (mem l2) l1).
  - rewrite (sum_map_filter h (mem l1) l2).
    + apply sum_map_permutation. apply NoDup_Permutation.
      * now apply NoDup_filter.
      * now apply NoDup_filter.
      * intros x. rewrite !filter_In, !Hmem. tauto.
    + intros x _ Hx. apply Hz1. rewrite <- Hmem. congruence.
  - intros x _ Hx. apply Hz2. rewrite <- Hmem. congruence.
Qed.

Section DictSums.
Context {K : Type} `{EqDec K}.

(** Looking every key up gives the stored values back. *)
Lemma lookup_keys {V : Type} (d : Dict.t K V) (dflt : V) :
  Dict.wf d ->
  map (fun k => Dict.get_default d k dflt) (Dict.keys d) = Dict.values d.
Proof.
  unfold Dict.wf. induction d as [|[k v] d IH]; simpl; [reflexivity|].
  intros Hwf. inversion Hwf as [|? ? Hnotin Hwf']; subst.
  unfold Dict.get_default at 1. simpl.
  destruct (eq_dec k k); [|contradiction]. f_equal.
  rewrite <- (IH Hwf'). apply map_ext_in. intros k' Hin.
  unfold Dict.get_default. simpl.
  destruct (eq_dec k k') as [->|]; [contradiction|reflexivity].
Qed.

Lemma sum_values_set (d : Dict.t K R) (k : K) (w : R) :
  sum (Dict.values (Dict.set d k w)) =
  sum (Dict.values d) - Dict.get_default d k 0 + w.
Proof.
  induction d as [|[k' v'] d IH]; simpl.
  - unfold Dict.get_default. simpl. lra.
  - unfold Dict.get_default in *. simpl.
    destruct (eq_dec k' k); simpl; [lra|]. rewrite IH. lra.
Qed.

Lemma sum_values_add_to (d : Dict.t K R) (k : K) (v : R) :
  sum (Dict.values (add_to d k v)) = sum (Dict.values d) + v.
Proof. unfold add_to. rewrite sum_values_set. lra. Qed.
End DictSums.

Lemma sum_map_term_le {A : Type} (f : A -> R) (l : list A) (a : A) :
  (forall x, In x l -> 0 <= f x) -> In a l -> f a <= sum (map f l).
Proof.
  induction l as [|x l IH]; intros Hnn Hin; [destruct Hin|]. simpl.
  assert (Hrest : 0 <= sum (map f l)).
  { clear IH Hin. induction l as [|y l IH]; simpl; [lra|].
    assert (0 <= f y) by (apply Hnn; right; now left).
    assert (0 <= sum (map f l))
      by (apply IH; intros z [Hz|Hz]; apply Hnn; [now left|right; now right]).
    lra. }
  destruct Hin as [->|Hin].
  - lra.
  - assert (0 <= f x) by (apply Hnn; now left).
    assert (f a <= sum (map f l))
      by (apply IH; [intros y Hy; apply Hnn; now right|exact Hin]).
    lra.
Qed.

Lemma logmass_exp_nonneg (l : logmass) : 0 <= logmass_exp l.
Proof.
  destruct l as [r|]; cbn [logmass_exp]; [apply float_exp_nonneg|lra].
Qed.

Lemma math_exp_logmass_ok (l : logmass) :
  (forall u, l = LogMass u -> u <= exp_overflow) ->
  math_exp_logmass l = Ok (logmass_exp l).
Proof.
  destruct l as [r|]; cbn [math_exp_logmass logmass_exp]; [|reflexivity].
  intros Hr. apply math_exp_value. now apply Hr.
Qed.

Section MassConservation.
Context {O : Type} `{EqDec O}.
Variables (lower upper : Dict.t O logmass).
Variables (pess : bool) (vdi : R) (bound : xreal).

Lemma upper_only_step_value (im im' : R) (o : O) :
  upper_only_step lower upper im o = Ok im' ->
  im' = im + (if in_lower lower o then 0 else mass_upper upper o).
Proof.
  unfold upper_only_step, in_lower, mass_upper.
  destruct (Dict.get_default lower o LogZero) as [l|].
  - intros [= <-]. lra.
  - intros Hstep. apply bind_inv in Hstep as [m [Hm Hstep]].
    injection Hstep as <-. now rewrite (math_exp_logmass_inv _ _ Hm).
Qed.

Lemma upper_only_mass_sum (im : R) :
  upper_only_mass lower upper = Ok im ->
  im = sum (map (fun o => if in_lower lower o then 0 else mass_upper upper o)
                (Dict.keys upper)).
Proof.
  unfold upper_only_mass. intros Hfold.
  rewrite (foldM_sum (upper_only_step lower upper) (fun im => im)
             (fun o => if in_lower lower o then 0 else mass_upper upper o)
             (Dict.keys upper)
             (fun im o im' _ => upper_only_step_value im im' o) 0 im Hfold).
  lra.
Qed.

Lemma privacy_loss_step_total (st st' : Dict.t R R * R) (o : O) :
  privacy_loss_step lower upper pess bound st o = Ok st' ->
  sum (Dict.values (fst st')) + snd st' =
  sum (Dict.values (fst st)) + snd st + contribution lower upper pess bound o.
Proof.
  destruct st as [pmf im]. unfold privacy_loss_step, contribution, in_lower,
    mass_upper.
  destruct (Dict.get_default lower o LogZero) as [l|];
    [|intros [= <-]; cbn [fst snd]; lra].
  destruct (Dict.get_default upper o LogZero) as [u|];
    cbn [logmass_to_xreal logmass_exp].
  - destruct (xgt (Fin u) bound).
    + intros Hstep. apply bind_inv in Hstep as [m [Hm Hstep]].
      injection Hstep as <-. cbn [fst snd].
      apply math_exp_inv in Hm as [-> _].
      fold (add_to pmf (u - l) (float_exp u)).
      rewrite sum_values_add_to. lra.
    + destruct pess; [|intros [= <-]; cbn [fst snd]; lra].
      intros Hstep. apply bind_inv in Hstep as [m [Hm Hstep]].
      injection Hstep as <-. cbn [fst snd].
      rewrite (math_exp_logmass_inv _ _ Hm). cbn [logmass_exp]. lra.
  - destruct (xgt NInf bound); [intros [= <-]; cbn [fst snd]; lra|].
    destruct pess; [|intros [= <-]; cbn [fst snd]; lra].
    intros Hstep. apply bind_inv in Hstep as [m [Hm Hstep]].
    injection Hstep as <-. cbn [fst snd].
    rewrite (math_exp_logmass_inv _ _ Hm). cbn [logmass_exp]. lra.
Qed.

Lemma privacy_loss_steps_total (outcomes : list O)
  (st st' : Dict.t R R * R) :
  foldM (privacy_loss_step lower upper pess bound) outcomes st = Ok st' ->
  sum (Dict.values (fst st')) + snd st' =
  sum (Dict.values (fst st)) + snd st +
  sum (map (contribution lower upper pess bound) outcomes).
Proof.
  apply (foldM_sum (privacy_loss_step lower upper pess bound)
           (fun st => sum (Dict.values (fst st)) + snd st)
           (contribution lower upper pess bound) outcomes
           (fun st o st' _ => privacy_loss_step_total st st' o)).
Qed.

Lemma privacy_loss_step_wf (st st' : Dict.t R R * R) (o : O) :
  Dict.wf (fst st) ->
  privacy_loss_step lower upper pess bound st o = Ok st' ->
  Dict.wf (fst st').
Proof.
  destruct st as [pmf im]. intros Hwf. unfold privacy_loss_step.
  destruct (Dict.get_default lower o LogZero); [|now intros [= <-]].
  destruct (xgt _ bound).
  - destruct (Dict.get_default upper o LogZero); [|now intros [= <-]].
    intros Hstep. apply bind_inv in Hstep as [m [_ Hstep]].
    injection Hstep as <-. cbn [fst]. now apply set_wf.
  - destruct pess; [|now intros [= <-]].
    intros Hstep. apply bind_inv in Hstep as [m [_ Hstep]].
    now injection Hstep as <-.
Qed.

Lemma privacy_loss_steps_wf (outcomes : list O) (st st' : Dict.t R R * R) :
  Dict.wf (fst st) ->
  foldM (privacy_loss_step lower upper pess bound) outcomes st = Ok st' ->
  Dict.wf (fst st').
Proof.
  apply (foldM_invariant (privacy_loss_step lower upper pess bound)
           (fun st => Dict.wf (fst st)) outcomes
           (fun st o st' _ => privacy_loss_step_wf st st' o)).
Qed.

(** Neither loop raises when no upper log mass overflows [math.exp]. *)
Lemma upper_only_mass_ok :
  no_exp_overflow upper -> exists im, upper_only_mass lower upper = Ok im.
Proof.
  intros Hno. apply foldM_total. intros im o _. unfold upper_only_step.
  destruct (Dict.get_default lower o LogZero); [eexists; reflexivity|].
  rewrite math_exp_logmass_ok by (intros u Hu; now apply (Hno o)).
  eexists. reflexivity.
Qed.

Lemma privacy_loss_steps_ok (outcomes : list O) (st : Dict.t R R * R) :
  no_exp_overflow upper ->
  exists st',
    foldM (privacy_loss_step lower upper pess bound) outcomes st = Ok st'.
Proof.
  intros Hno. apply foldM_total. intros [pmf im] o _.
  unfold privacy_loss_step.
  destruct (Dict.get_default lower o LogZero); [|eexists; reflexivity].
  destruct (Dict.get_default upper o LogZero) as [u|] eqn:Hu.
  - destruct (xgt _ bound).
    + rewrite math_exp_value by now apply (Hno o). eexists. reflexivity.
    + destruct pess; [|eexists; reflexivity].
      cbn [math_exp_logmass].
      rewrite math_exp_value by now apply (Hno o). eexists. reflexivity.
  - destruct (xgt _ bound); [eexists; reflexivity|].
    destruct pess; eexists; reflexivity.
Qed.

(** With a non-zero interval the discretization never raises, and it
    moves every mass to a bucket without losing any. *)
Lemma discretize_total (pmf : Dict.t R R) :
  vdi <> 0 -> Dict.wf pmf ->
  exists rounded,
    discretize pess vdi pmf = Ok rounded /\
    sum (Dict.values rounded) = sum (Dict.values pmf).
Proof.
  intros Hvdi Hwf. unfold discretize.
  rewrite <- (lookup_keys pmf 0 Hwf).
  assert (Hgen : forall vals acc, exists rounded,
    foldM
      (fun rounded_probability_mass_function val =>
         q <- py_div val vdi ;;
         Ok (add_to rounded_probability_mass_function (round_fn pess q)
                    (Dict.get_default pmf val 0)))
      vals acc = Ok rounded /\
    sum (Dict.values rounded) =
    sum (Dict.values acc) +
    sum (map (fun k => Dict.get_default pmf k 0) vals)).
  { induction vals as [|val vals IH]; intros acc; simpl.
    - exists acc. split; [reflexivity|lra].
    - rewrite py_div_ok by assumption. rewrite bind_ok. simpl.
      destruct (IH (add_to acc (round_fn pess (val / vdi))
                           (Dict.get_default pmf val 0)))
        as [rounded [Hfold Hsum]].
      exists rounded. split; [exact Hfold|].
      rewrite Hsum, sum_values_add_to. lra. }
  destruct (Hgen (Dict.keys pmf) []) as [rounded [Hfold Hsum]].
  exists rounded. split; [exact Hfold|]. rewrite Hsum. simpl. lra.
Qed.

Lemma mass_upper_absent (o : O) :
  ~ In o (Dict.keys upper) -> mass_upper upper o = 0.
Proof.
  intros Hout. unfold mass_upper, Dict.get_default.
  rewrite (proj2 (get_none_not_in upper o) Hout). reflexivity.
Qed.

Lemma in_lower_absent (o : O) :
  ~ In o (Dict.keys lower) -> in_lower lower o = false.
Proof.
  intros Hout. unfold in_lower, Dict.get_default.
  rewrite (proj2 (get_none_not_in lower o) Hout). reflexivity.
Qed.

(** The outcomes of the upper distribution split into those the first
    loop counts and those the second loop meets in the lower one. *)
Lemma upper_mass_split :
  Dict.wf lower -> Dict.wf upper ->
  sum (map (fun o => if in_lower lower o then 0 else mass_upper upper o)
           (Dict.keys upper))
  + sum (map (fun o => if in_lower lower o then mass_upper upper o else 0)
             (Dict.keys lower))
  = sum (map logmass_exp (Dict.values upper)).
Proof.
  intros lower_wf upper_wf.
  rewrite (sum_map_common
             (fun o => if in_lower lower o then mass_upper upper o else 0)
             (Dict.keys lower) (Dict.keys upper) lower_wf upper_wf).
  - rewrite <- (lookup_keys upper LogZero upper_wf). rewrite map_map.
    change (fun x => logmass_exp (Dict.get_default upper x LogZero))
      with (mass_upper upper).
    induction (Dict.keys upper) as [|o l IH]; simpl; [lra|].
    destruct (in_lower lower o); lra.
  - intros o Hout. now rewrite in_lower_absent.
  - intros o Hout. rewrite mass_upper_absent by assumption.
    now destruct (in_lower lower o).
Qed.

Lemma contribution_bounds (o : O) :
  0 <= contribution lower upper pess bound o
    <= (if in_lower lower o then mass_upper upper o else 0) /\
  (pess = true ->
   contribution lower upper pess bound o =
   if in_lower lower o then mass_upper upper o else 0).
Proof.
  unfold contribution. pose proof (logmass_exp_nonneg
    (Dict.get_default upper o LogZero)) as Hnn.
  fold (mass_upper upper o) in Hnn.
  destruct (in_lower lower o); [|split; [lra|reflexivity]].
  destruct (xgt _ bound); [split; [lra|reflexivity]|].
  destruct pess; split; try lra; try reflexivity; try discriminate.
Qed.

(** What a successful call has computed. *)
Lemma from_two_probability_mass_functions_inv
  (pld : PrivacyLossDistribution) :
  from_two_probability_mass_functions lower upper pess vdi bound = Ok pld ->
  exists im0 pmf im rounded,
    upper_only_mass lower upper = Ok im0 /\
    foldM (privacy_loss_step lower upper pess bound) (Dict.keys lower)
          ([], im0) = Ok (pmf, im) /\
    discretize pess vdi pmf = Ok rounded /\
    pld = Build_PrivacyLossDistribution rounded vdi im.
Proof.
  unfold from_two_probability_mass_functions. intros Hok.
  apply bind_inv in Hok as [im0 [Him0 Hok]].
  apply bind_inv in Hok as [[pmf im] [Hsteps Hok]].
  apply bind_inv in Hok as [rounded [Hd Hok]]. injection Hok as <-.
  exists im0, pmf, im, rounded. now repeat split.
Qed.

Lemma from_two_probability_mass_functions_total :
  no_exp_overflow upper -> vdi <> 0 ->
  exists pld,
    from_two_probability_mass_functions lower upper pess vdi bound = Ok pld /\
    total_mass pld =
      sum (map (fun o => if in_lower lower o then 0 else mass_upper upper o)
               (Dict.keys upper)) +
      sum (map (contribution lower upper pess bound) (Dict.keys lower)).
Proof.
  intros Hno Hvdi. unfold from_two_probability_mass_functions.
  destruct (upper_only_mass_ok Hno) as [im0 Him0].
  rewrite Him0. cbn [bind].
  destruct (privacy_loss_steps_ok (Dict.keys lower) ([], im0) Hno)
    as [[pmf im] Hsteps].
  rewrite Hsteps. cbn [bind].
  pose proof (privacy_loss_steps_total _ _ _ Hsteps) as Htotal.
  assert (Hwf : Dict.wf pmf).
  { apply (privacy_loss_steps_wf (Dict.keys lower) ([], im0) (pmf, im));
      [constructor|exact Hsteps]. }
  cbn [fst snd] in Htotal.
  change (sum (Dict.values (@nil (R * R)))) with 0 in Htotal.
  destruct (discretize_total pmf Hvdi Hwf) as [rounded [Hd Hsum]].
  rewrite Hd. cbn [bind]. eexists. split; [reflexivity|].
  unfold total_mass.
  cbn [infinity_mass rounded_probability_mass_function].
  rewrite Hsum, <- (upper_only_mass_sum im0 Him0). lra.
Qed.

(** A complete upper distribution holds log probabilities: none of its
    log masses is positive, so none overflows [math.exp]. *)
Lemma complete_no_exp_overflow :
  sum (map logmass_exp (Dict.values upper)) = 1 -> no_exp_overflow upper.
Proof.
  intros Hsum o u Hget. pose proof exp_range_bounds as Hb.
  assert (Hin : In (LogMass u) (Dict.values upper)).
  { unfold Dict.get_default in Hget.
    destruct (Dict.get upper o) as [l|] eqn:Hl; [|discriminate]. subst l.
    apply get_In in Hl. unfold Dict.values.
    change (LogMass u) with (snd (o, LogMass u)). now apply in_map. }
  pose proof (sum_map_term_le logmass_exp (Dict.values upper) (LogMass u)
                (fun l _ => logmass_exp_nonneg l) Hin) as Hle.
  rewrite Hsum in Hle. cbn [logmass_exp] in Hle.
  apply float_exp_le_1 in Hle. lra.
Qed.
End MassConservation.

Lemma exp_minus_2 : exp (Ropp 2) <= 1 / 4.
Proof.
  rewrite exp_Ropp. replace 2 with (1 + 1) by lra. rewrite exp_plus.
  pose proof (exp_ineq1 1 ltac:(lra)) as H1.
  assert (H4 : 4 <= exp 1 * exp 1) by nra.
  assert (Hinv : / (exp 1 * exp 1) <= / 4)
    by (apply Rinv_le_contravar; lra).
  lra.
Qed.

(** The logarithm of a mass of at least a quarter is far from the
    underflow of [math.exp]. *)
Lemma float_exp_ln (x : R) : 1 / 4 <= x -> float_exp (ln x) = x.
Proof.
  intros Hx. pose proof exp_minus_2 as H2.
  assert (Hln : Ropp 2 <= ln x).
  { rewrite <- (ln_exp (Ropp 2)).
    destruct (Req_dec (exp (Ropp 2)) x) as [->|Hne]; [lra|].
    apply Rlt_le, ln_increasing; [apply exp_pos|lra]. }
  rewrite float_exp_exact by (unfold exp_underflow; lra).
  apply exp_ln. lra.
Qed.

(** C3. For every pair of log-probability mass functions whose upper one
    is complete (its masses sum to 1), and every non-zero discretization
    interval, [from_two_probability_mass_functions] returns a PLD with
    [infinity_mass + sum of the histogram masses = 1] under
    [pessimistic_estimate = True], and at most 1 under the optimistic
    estimate.  Nothing is needed of the lower function. *)
Theorem from_two_probability_mass_functions_mass_conservation
  {O : Type} `{EqDec O} (lower upper : Dict.t O logmass)
  (pess : bool) (vdi : R) (bound : xreal) :
  Dict.wf lower -> Dict.wf upper ->
  sum (map logmass_exp (Dict.values upper)) = 1 ->
  vdi <> 0 ->
  exists pld,
    from_two_probability_mass_functions lower upper pess vdi bound = Ok pld /\
    (pess = true -> total_mass pld = 1) /\
    (pess = false -> total_mass pld <= 1).
Proof.
  intros Hl Hu Hcomplete Hvdi.
  destruct (from_two_probability_mass_functions_total
              lower upper pess vdi bound
              (complete_no_exp_overflow upper Hcomplete) Hvdi)
    as [pld [Hok Htotal]].
  exists pld. split; [exact Hok|].
  rewrite Htotal.
  rewrite <- Hcomplete, <- (upper_mass_split lower upper Hl Hu).
  split; intros Hpess.
  - f_equal. f_equal. apply map_ext. intros o.
    now apply (contribution_bounds lower upper pess bound o).
  - apply Rplus_le_compat_l. clear Htotal.
    induction (Dict.keys lower) as [|o l IH]; simpl; [lra|].
    apply Rplus_le_compat; [|exact IH].
    apply (contribution_bounds lower upper pess bound o).
Qed.

Lemma from_two_probability_mass_functions_mass_conservation_witness :
  exists pld,
    from_two_probability_mass_functions
      [(0%Z, LogMass (ln (1 / 2))); (1%Z, LogMass (ln (1 / 2)))]
      [(0%Z, LogMass (ln (1 / 4))); (1%Z, LogMass (ln (3 / 4)))]
      true 1 NInf = Ok pld /\
    (true = true -> total_mass pld = 1) /\
    (true = false -> total_mass pld <= 1).
Proof.
  apply from_two_probability_mass_functions_mass_conservation.
  - unfold Dict.wf; simpl; repeat constructor; simpl; lia.
  - unfold Dict.wf; simpl; repeat constructor; simpl; lia.
  - cbn [Dict.values map snd logmass_exp sum fold_right].
    rewrite !float_exp_ln by lra. lra.
  - lra.
Defined.

(** ** The dictionary convolution kernel *)

Lemma fold_min_le (l : list Z) (x y : Z) :
  In y (x :: l) -> (fold_left Z.min l x <= y)%Z.
Proof.
  revert x y. induction l as [|z l IH]; intros x y Hin; simpl.
  - destruct Hin as [->|[]]. lia.
  - assert (Hhead : (fold_left Z.min l (Z.min x z) <= Z.min x z)%Z)
      by (apply IH; now left).
    destruct Hin as [Hx|[Hz|Hin]]; [lia|lia|].
    apply IH. now right.
Qed.

Lemma fold_max_ge (l : list Z) (x y : Z) :
  In y (x :: l) -> (y <= fold_left Z.max l x)%Z.
Proof.
  revert x y. induction l as [|z l IH]; intros x y Hin; simpl.
  - destruct Hin as [->|[]]. lia.
  - assert (Hhead : (Z.max x z <= fold_left Z.max l (Z.max x z))%Z)
      by (apply IH; now left).
    destruct Hin as [Hx|[Hz|Hin]]; [lia|lia|].
    apply IH. now right.
Qed.

Lemma py_range_length (a b : Z) : List.length (py_range a b) = Z.to_nat (b - a).
Proof. unfold py_range. now rewrite length_map, length_seq. Qed.

Lemma py_range_nth (a b : Z) (f : Z -> R) (i : nat) :
  (i < Z.to_nat (b - a))%nat ->
  nth i (map f (py_range a b)) 0 = f (a + Z.of_nat i)%Z.
Proof.
  intros Hi. unfold py_range. rewrite map_map.
  rewrite (nth_indep _ 0 (f (a + Z.of_nat 0)%Z))
    by (now rewrite length_map, length_seq).
  rewrite (map_nth (fun i => f (a + Z.of_nat i)%Z) (seq 0 _) 0%nat i).
  now rewrite seq_nth.
Qed.

(** The dense list of a non-empty dictionary: its offset is below every
    key, and its [i]-th entry, at any index, is the mass at [offset + i]. *)
Lemma dictionary_to_list_spec (d : Dict.t Z R) :
  d <> [] ->
  exists offset l,
    dictionary_to_list d = Ok (offset, l) /\
    l <> [] /\
    (forall k, In k (Dict.keys d) -> (offset <= k)%Z) /\
    (forall i : nat,
       nth i l 0 = Dict.get_default d (offset + Z.of_nat i)%Z 0).
Proof.
  intros Hne. unfold dictionary_to_list.
  destruct (Dict.keys d) as [|x ks] eqn:Hkeys.
  { destruct d; [contradiction|discriminate]. }
  cbn [py_min py_max bind].
  set (mn := fold_left Z.min ks x). set (mx := fold_left Z.max ks x).
  assert (Hmn : forall k, In k (x :: ks) -> (mn <= k)%Z)
    by (intros k Hk; now apply fold_min_le).
  assert (Hmx : forall k, In k (x :: ks) -> (k <= mx)%Z)
    by (intros k Hk; now apply fold_max_ge).
  assert (Hord : (mn <= mx)%Z).
  { transitivity x; [apply Hmn|apply Hmx]; now left. }
  eexists. eexists. split; [reflexivity|]. split; [|split; [exact Hmn|]].
  - intros Hnil. apply (f_equal (@List.length R)) in Hnil.
    rewrite length_map, py_range_length in Hnil. simpl in Hnil. lia.
  - intros i. destruct (Nat.lt_ge_cases i (Z.to_nat (mx + 1 - mn))) as [Hi|Hi].
    + now rewrite py_range_nth.
    + rewrite nth_overflow by (now rewrite length_map, py_range_length).
      symmetry. apply get_default_none. apply get_none_not_in.
      rewrite Hkeys. intros Hin. apply Hmx in Hin. lia.
Qed.

Lemma dictionary_to_list_empty :
  dictionary_to_list [] = Raise (ValueError "min() arg is an empty sequence").
Proof. reflexivity. Qed.

Lemma fold_left_snoc {A B : Type} (f : A -> B -> A) (l : list B) (b : B)
  (a : A) : fold_left f (l ++ [b]) a = f (fold_left f l a) b.
Proof. now rewrite fold_left_app. Qed.

(** The sparse dictionary of a dense list: the entry at [key] is the list
    entry at index [key - offset] when that one is positive. *)
Lemma list_to_dictionary_get (l : list R) (offset key : Z) :
  Dict.get (list_to_dictionary l offset) key =
  if (offset <=? key)%Z then
    if Rlt_dec 0 (nth (Z.to_nat (key - offset)) l 0)
    then Some (nth (Z.to_nat (key - offset)) l 0)
    else None
  else None.
Proof.
  unfold list_to_dictionary.
  set (step := fun (result_dictionary : Dict.t Z R) (i : nat) =>
                 if Rlt_dec 0 (nth i l 0)
                 then Dict.set result_dictionary (Z.of_nat i + offset)%Z
                               (nth i l 0)
                 else result_dictionary).
  set (entry := if Rlt_dec 0 (nth (Z.to_nat (key - offset)) l 0)
                then Some (nth (Z.to_nat (key - offset)) l 0)
                else None).
  assert (Hgen : forall n,
    ((offset <= key < offset + Z.of_nat n)%Z ->
     Dict.get (fold_left step (seq 0 n) []) key = entry) /\
    (~ (offset <= key < offset + Z.of_nat n)%Z ->
     Dict.get (fold_left step (seq 0 n) []) key = None)).
  { induction n as [|n [IHin IHout]].
    - split; [lia|reflexivity].
    - rewrite seq_S, fold_left_snoc. cbn [Nat.add]. unfold step at 1 3.
      destruct (Z.eq_dec (Z.of_nat n + offset) key) as [Hkey|Hkey].
      + split; [intros _|lia].
        assert (Hidx : Z.to_nat (key - offset) = n) by lia.
        unfold entry. rewrite Hidx.
        destruct (Rlt_dec 0 (nth n l 0)).
        * subst key. apply get_set_same.
        * apply IHout. lia.
      + assert (Hget : Dict.get
                  (if Rlt_dec 0 (nth n l 0)
                   then Dict.set (fold_left step (seq 0 n) [])
                          (Z.of_nat n + offset)%Z (nth n l 0)
                   else fold_left step (seq 0 n) []) key =
                Dict.get (fold_left step (seq 0 n) []) key).
        { destruct (Rlt_dec 0 (nth n l 0)); [|reflexivity].
          now apply get_set_other. }
        rewrite Hget. split; intros Hrange; [apply IHin|apply IHout]; lia. }
  destruct (Hgen (List.length l)) as [Hin Hout].
  destruct (Z.leb_spec offset key) as [Hle|Hlt]; [|apply Hout; lia].
  destruct (Z_lt_ge_dec key (offset + Z.of_nat (List.length l)))
    as [Hlt|Hge]; [apply Hin; lia|].
  rewrite Hout by lia. unfold entry. rewrite nth_overflow by lia.
  destruct (Rlt_dec 0 0); [exfalso; lra|reflexivity].
Qed.

Lemma sum_map_zero {A : Type} (h : A -> R) (l : list A) :
  (forall x, In x l -> h x = 0) -> sum (map h l) = 0.
Proof.
  induction l as [|x l IH]; intros Hz; simpl; [reflexivity|].
  rewrite (Hz x) by now left. rewrite IH; [lra|].
  intros y Hy. apply Hz. now right.
Qed.

Lemma seq_map_nth (f : nat -> R) (m n : nat) :
  (n < m)%nat -> nth n (map f (seq 0 m)) 0 = f n.
Proof.
  intros Hn. rewrite (nth_indep _ 0 (f 0%nat))
    by (now rewrite length_map, length_seq).
  rewrite (map_nth f (seq 0 m) 0%nat n). now rewrite seq_nth.
Qed.

(** Every entry of the linear convolution, also past its end, is the sum
    of the products whose indices add up to its index. *)
Lemma linear_convolution_nth (l1 l2 : list R) (n : nat) :
  l1 <> [] -> l2 <> [] ->
  nth n (linear_convolution l1 l2) 0 =
  sum (map (fun i => nth i l1 0 * nth (n - i) l2 0) (seq 0 (S n))).
Proof.
  intros H1 H2.
  assert (Hconv : linear_convolution l1 l2 =
    map (fun n => sum (map (fun i => nth i l1 0 * nth (n - i) l2 0)
                           (seq 0 (S n))))
        (seq 0 (List.length l1 + List.length l2 - 1))).
  { destruct l1; [contradiction|]. destruct l2; [contradiction|]. reflexivity. }
  rewrite Hconv.
  destruct (Nat.lt_ge_cases n (List.length l1 + List.length l2 - 1))
    as [Hn|Hn].
  - now rewrite seq_map_nth.
  - rewrite nth_overflow by (now rewrite length_map, length_seq).
    symmetry. apply sum_map_zero. intros i Hi. apply in_seq in Hi.
    destruct (Nat.lt_ge_cases i (List.length l1)) as [Hi1|Hi1].
    + rewrite (nth_overflow l2) by lia. lra.
    + rewrite (nth_overflow l1) by lia. lra.
Qed.

Lemma py_range_NoDup (a b : Z) : NoDup (py_range a b).
Proof.
  unfold py_range. generalize (Z.to_nat (b - a)) as m. intros m.
  assert (Hgen : forall s, NoDup (map (fun i => (a + Z.of_nat i)%Z) (seq s m))).
  { induction m as [|m IH]; intros s; simpl; constructor; [|apply IH].
    rewrite in_map_iff. intros [i [Heq Hi]]. apply in_seq in Hi. lia. }
  apply Hgen.
Qed.

Lemma py_range_In (a b k : Z) : In k (py_range a b) <-> (a <= k < b)%Z.
Proof.
  unfold py_range. rewrite in_map_iff. split.
  - intros [i [<- Hi]]. apply in_seq in Hi. lia.
  - intros Hk. exists (Z.to_nat (k - a)). split; [lia|]. apply in_seq. lia.
Qed.

Section ConvolveDictionary.
Variable fft : FFT.
Variables (d1 d2 : Dict.t Z R).
Hypothesis d1_nonempty : d1 <> [].
Hypothesis d2_nonempty : d2 <> [].
Hypothesis d1_wf : Dict.wf d1.
Hypothesis fft_exact : convolution_exact fft d1 d2.

Lemma get_default_absent (d : Dict.t Z R) (k : Z) :
  ~ In k (Dict.keys d) -> Dict.get_default d k 0 = 0.
Proof. intros Hout. apply get_default_none. now apply get_none_not_in. Qed.

(** The dense convolution read at index [n] is the dictionary convolution
    at key [offset1 + offset2 + n]. *)
Lemma dense_convolution (offset1 offset2 : Z) (l1 l2 : list R) (n : nat) :
  (forall k, In k (Dict.keys d1) -> (offset1 <= k)%Z) ->
  (forall k, In k (Dict.keys d2) -> (offset2 <= k)%Z) ->
  (forall i : nat,
     nth i l1 0 = Dict.get_default d1 (offset1 + Z.of_nat i)%Z 0) ->
  (forall i : nat,
     nth i l2 0 = Dict.get_default d2 (offset2 + Z.of_nat i)%Z 0) ->
  sum (map (fun i => nth i l1 0 * nth (n - i) l2 0) (seq 0 (S n))) =
  convolution_at d1 d2 (offset1 + offset2 + Z.of_nat n).
Proof.
  intros Hlow1 Hlow2 Hnth1 Hnth2. unfold convolution_at.
  set (key := (offset1 + offset2 + Z.of_nat n)%Z).
  set (h := fun key1 : Z =>
              Dict.get_default d1 key1 0 *
              Dict.get_default d2 (key - key1)%Z 0).
  transitivity (sum (map h (py_range offset1 (offset1 + Z.of_nat (S n))))).
  - unfold py_range. rewrite map_map.
    replace (Z.to_nat (offset1 + Z.of_nat (S n) - offset1)) with (S n) by lia.
    f_equal. apply map_ext_in. intros i Hi. apply in_seq in Hi.
    unfold h. rewrite Hnth1, Hnth2. do 2 f_equal. unfold key. lia.
  - apply sum_map_common.
    + apply py_range_NoDup.
    + exact d1_wf.
    + intros k Hout. rewrite py_range_In in Hout. unfold h.
      destruct (Z_lt_ge_dec k offset1) as [Hk|Hk].
      * rewrite (get_default_absent d1 k); [lra|].
        intros Hin. apply Hlow1 in Hin. lia.
      * rewrite (get_default_absent d2 (key - k)); [lra|].
        intros Hin. apply Hlow2 in Hin. unfold key in Hin. lia.
    + intros k Hout. unfold h. rewrite (get_default_absent d1 k Hout). lra.
Qed.

(** Below the sum of the two offsets the convolution is zero. *)
Lemma convolution_below_offsets (offset1 offset2 key : Z) :
  (forall k, In k (Dict.keys d1) -> (offset1 <= k)%Z) ->
  (forall k, In k (Dict.keys d2) -> (offset2 <= k)%Z) ->
  (key < offset1 + offset2)%Z ->
  convolution_at d1 d2 key = 0.
Proof.
  intros Hlow1 Hlow2 Hkey. unfold convolution_at. apply sum_map_zero.
  intros k Hk. rewrite (get_default_absent d2 (key - k)); [lra|].
  intros Hin. apply Hlow1 in Hk. apply Hlow2 in Hin. lia.
Qed.

(** When [fftconvolve] is exact on the two dense lists, the dictionary
    returned holds at each key the convolution of the two dictionaries,
    if it is positive. *)
Lemma convolve_dictionary_get :
  exists d,
    convolve_dictionary fft d1 d2 = Ok d /\
    forall key,
      Dict.get d key =
      if Rlt_dec 0 (convolution_at d1 d2 key)
      then Some (convolution_at d1 d2 key)
      else None.
Proof.
  destruct (dictionary_to_list_spec d1 d1_nonempty)
    as [min1 [list1 [Hl1 [Hne1 [Hlow1 Hnth1]]]]].
  destruct (dictionary_to_list_spec d2 d2_nonempty)
    as [min2 [list2 [Hl2 [Hne2 [Hlow2 Hnth2]]]]].
  unfold convolve_dictionary. rewrite Hl1, Hl2. cbn [bind].
  rewrite (fft_exact min1 list1 min2 list2 Hl1 Hl2).
  eexists. split; [reflexivity|]. intros key.
  rewrite list_to_dictionary_get.
  destruct (Z.leb_spec (min1 + min2) key) as [Hle|Hlt].
  - rewrite linear_convolution_nth by assumption.
    rewrite (dense_convolution min1 min2) by assumption.
    replace (min1 + min2 + Z.of_nat (Z.to_nat (key - (min1 + min2))))%Z
      with key by lia.
    reflexivity.
  - rewrite (convolution_below_offsets min1 min2) by assumption.
    destruct (Rlt_dec 0 0); [exfalso; lra|reflexivity].
Qed.
End ConvolveDictionary.

(** ** C5: composition *)

(** X29. [compose] raises its configuration-mismatch error if and only if
    the two discretization intervals differ, whatever the FFT routine
    returns.  When they are equal, both histograms are non-empty and
    [fftconvolve] convolves their dense lists without rounding error, it
    returns a PLD with the same interval whose histogram is the dictionary
    convolution of the two histograms (at each key the sum, over
    [key1 + key2 = key], of the products of the masses, kept only when
    positive) and whose infinity mass is [a + b - a * b]. *)
Theorem compose_spec (fft : FFT) (self other : PrivacyLossDistribution) :
  (compose fft self other =
     Raise (ValueError "Discretization intervals are different")
   <-> value_discretization_interval self <>
       value_discretization_interval other) /\
  (value_discretization_interval self = value_discretization_interval other ->
   rounded_probability_mass_function self <> [] ->
   rounded_probability_mass_function other <> [] ->
   Dict.wf (rounded_probability_mass_function self) ->
   convolution_exact fft (rounded_probability_mass_function self)
                         (rounded_probability_mass_function other) ->
   exists pld,
     compose fft self other = Ok pld /\
     (forall key,
        Dict.get (rounded_probability_mass_function pld) key =
        if Rlt_dec 0 (convolution_at
                        (rounded_probability_mass_function self)
                        (rounded_probability_mass_function other) key)
        then Some (convolution_at
                     (rounded_probability_mass_function self)
                     (rounded_probability_mass_function other) key)
        else None) /\
     infinity_mass pld =
       infinity_mass self + infinity_mass other -
       infinity_mass self * infinity_mass other /\
     value_discretization_interval pld = value_discretization_interval self).
Proof.
  split.
  - unfold compose.
    destruct (Req_dec_T _ _) as [Heq|Hne]; [|tauto].
    split; [|contradiction]. intros Hraise. exfalso.
    unfold convolve_dictionary, dictionary_to_list in Hraise.
    destruct (rounded_probability_mass_function self) as [|[k1 v1] h1];
      [discriminate|].
    destruct (rounded_probability_mass_function other) as [|[k2 v2] h2];
      discriminate.
  - intros Heq Hne1 Hne2 Hwf Hexact.
    destruct (convolve_dictionary_get fft _ _ Hne1 Hne2 Hwf Hexact)
      as [d [Hd Hget]].
    unfold compose. destruct (Req_dec_T _ _) as [_|Hne]; [|contradiction].
    rewrite Hd. cbn [bind]. eexists. split; [reflexivity|].
    cbn [rounded_probability_mass_function infinity_mass
         value_discretization_interval].
    split; [exact Hget|]. split; reflexivity.
Qed.

Lemma convolution_exact_exact_FFT (d1 d2 : Dict.t Z R) :
  convolution_exact exact_FFT d1 d2.
Proof. intros min1 list1 min2 list2 _ _. reflexivity. Qed.

Lemma compose_spec_witness :
  exists pld,
    compose exact_FFT
      {| rounded_probability_mass_function := [(0%Z, 1 / 2); (1%Z, 1 / 2)];
         value_discretization_interval := 1;
         infinity_mass := 0 |}
      {| rounded_probability_mass_function := [(2%Z, 1)];
         value_discretization_interval := 1;
         infinity_mass := 0 |} = Ok pld /\
    (forall key,
       Dict.get (rounded_probability_mass_function pld) key =
       if Rlt_dec 0 (convolution_at [(0%Z, 1 / 2); (1%Z, 1 / 2)]
                                    [(2%Z, 1)] key)
       then Some (convolution_at [(0%Z, 1 / 2); (1%Z, 1 / 2)] [(2%Z, 1)] key)
       else None) /\
    infinity_mass pld = 0 + 0 - 0 * 0 /\
    value_discretization_interval pld = 1.
Proof.
  apply (proj2 (compose_spec exact_FFT
           {| rounded_probability_mass_function := [(0%Z, 1 / 2); (1%Z, 1 / 2)];
              value_discretization_interval := 1;
              infinity_mass := 0 |}
           {| rounded_probability_mass_function := [(2%Z, 1)];
              value_discretization_interval := 1;
              infinity_mass := 0 |})).
  - reflexivity.
  - discriminate.
  - discriminate.
  - unfold Dict.wf; simpl; repeat constructor; simpl; lia.
  - apply convolution_exact_exact_FFT.
Defined.

(** The PLD of two distributions with disjoint supports has an empty
    histogram: all the mass is infinity mass. *)
Lemma disjoint_supports_empty_histogram :
  from_two_probability_mass_functions
    [(0%Z, LogMass 0)] [(1%Z, LogMass 0)] true 1 NInf =
  Ok {| rounded_probability_mass_function := [];
        value_discretization_interval := 1;
        infinity_mass := 0 + exp 0 + 0 |}.
Proof.
  pose proof exp_range_bounds as Hb.
  unfold from_two_probability_mass_functions, upper_only_mass,
    upper_only_step, privacy_loss_step, Dict.get_default.
  cbn [Dict.keys map fst foldM Dict.get]. decide_keys.
  cbn [math_exp_logmass bind logmass_to_xreal xgt].
  rewrite math_exp_ok by lra. reflexivity.
Qed.

(** C5, at a failing input.  The PLD of two distributions with disjoint
    supports has an empty histogram and infinity mass 1.  Composed with
    itself, with equal intervals, the convolution of the two histograms is
    the empty histogram and the infinity mass [1 + 1 - 1 * 1]; whatever
    the FFT routine, [compose] returns no PLD: [min] of the empty key
    sequence raises [ValueError] in [dictionary_to_list]. *)
Theorem compose_empty_histogram_raises :
  exists pld,
    from_two_probability_mass_functions
      [(0%Z, LogMass 0)] [(1%Z, LogMass 0)] true 1 NInf = Ok pld /\
    rounded_probability_mass_function pld = [] /\
    infinity_mass pld = 1 /\
    forall fft,
      compose fft pld pld =
        Raise (ValueError "min() arg is an empty sequence") /\
      forall pld', compose fft pld pld <> Ok pld'.
Proof.
  rewrite disjoint_supports_empty_histogram. eexists.
  split; [reflexivity|]. split; [reflexivity|].
  cbn [infinity_mass]. split; [rewrite exp_0; lra|]. intros fft.
  assert (Hraise : compose fft
    {| rounded_probability_mass_function := [];
       value_discretization_interval := 1;
       infinity_mass := 0 + exp 0 + 0 |}
    {| rounded_probability_mass_function := [];
       value_discretization_interval := 1;
       infinity_mass := 0 + exp 0 + 0 |}
    = Raise (ValueError "min() arg is an empty sequence")).
  { unfold compose. cbn [value_discretization_interval].
    destruct (Req_dec_T 1 1); [reflexivity|contradiction]. }
  split; [exact Hraise|]. intros pld'. rewrite Hraise. discriminate.
Qed.

(** ** C7: composing once with itself *)

Lemma fft_pad_same_length (a : list R) : fft_pad a (List.length a) = a.
Proof.
  unfold fft_pad. rewrite firstn_all, Nat.sub_diag. simpl. apply app_nil_r.
Qed.

(** On a non-empty histogram, with [num_times >= 1], [self_compose]
    returns the positive part of whatever the FFT round trip returns. *)
Lemma self_compose_ok (fft : FFT) (self : PrivacyLossDistribution)
  (num_times : Z) :
  rounded_probability_mass_function self <> [] -> (1 <= num_times)%Z ->
  exists min_val input_list,
    dictionary_to_list (rounded_probability_mass_function self) =
      Ok (min_val, input_list) /\
    input_list <> [] /\
    self_compose fft self num_times =
    Ok {| rounded_probability_mass_function :=
            list_to_dictionary
              (ifft_fft_power fft input_list
                 (Z.to_nat (num_times * Z.of_nat (List.length input_list)))
                 (Z.to_nat num_times))
              (min_val * num_times);
          value_discretization_interval := value_discretization_interval self;
          infinity_mass :=
            1 - (1 - infinity_mass self) ^ Z.to_nat num_times |}.
Proof.
  intros Hne Hn.
  destruct (dictionary_to_list_spec _ Hne)
    as [min_val [input_list [Hl [Hnil _]]]].
  exists min_val, input_list. split; [exact Hl|]. split; [exact Hnil|].
  unfold self_compose, self_convolve_dictionary. rewrite Hl. cbn [bind].
  assert (Hlen : (0 < List.length input_list)%nat)
    by (destruct input_list; [contradiction|simpl; lia]).
  destruct (Z.ltb_spec (num_times * Z.of_nat (List.length input_list)) 1);
    [nia|reflexivity].
Qed.

(** On a non-empty histogram on whose dense list the FFT round trip is
    exact, [self_compose(1)] returns the histogram without its entries of
    non-positive mass. *)
Lemma self_compose_once_get (fft : FFT) (self : PrivacyLossDistribution) :
  rounded_probability_mass_function self <> [] ->
  self_convolution_exact fft (rounded_probability_mass_function self) 1 ->
  exists pld,
    self_compose fft self 1 = Ok pld /\
    (forall key,
       Dict.get (rounded_probability_mass_function pld) key =
       positive_part (rounded_probability_mass_function self) key) /\
    infinity_mass pld = infinity_mass self /\
    value_discretization_interval pld = value_discretization_interval self.
Proof.
  intros Hne Hexact.
  destruct (dictionary_to_list_spec _ Hne)
    as [min_val [input_list [Hl [Hnil [Hlow Hnth]]]]].
  unfold self_compose, self_convolve_dictionary. rewrite Hl. cbn [bind].
  assert (Hlen : (0 < List.length input_list)%nat).
  { destruct input_list; [contradiction|simpl; lia]. }
  destruct (Z.ltb_spec (1 * Z.of_nat (List.length input_list)) 1); [lia|].
  cbn [bind]. rewrite (Hexact min_val input_list Hl).
  eexists. split; [reflexivity|].
  cbn [rounded_probability_mass_function infinity_mass
       value_discretization_interval].
  split; [|split; [|reflexivity]].
  - intros key. rewrite list_to_dictionary_get.
    replace (Z.to_nat (1 * Z.of_nat (List.length input_list)))
      with (List.length input_list) by lia.
    unfold circular_power. change (Z.to_nat 1 - 1)%nat with 0%nat.
    cbn [Nat.iter]. rewrite fft_pad_same_length. unfold positive_part.
    destruct (Z.leb_spec (min_val * 1) key) as [Hle|Hlt].
    + rewrite Hnth.
      replace (min_val + Z.of_nat (Z.to_nat (key - min_val * 1)))%Z
        with key by lia.
      unfold Dict.get_default.
      destruct (Dict.get (rounded_probability_mass_function self) key);
        [reflexivity|].
      destruct (Rlt_dec 0 0); [exfalso; lra|reflexivity].
    + destruct (Dict.get (rounded_probability_mass_function self) key)
        as [v|] eqn:Hget; [|reflexivity].
      exfalso.
      assert (Hin : In key (Dict.keys
                              (rounded_probability_mass_function self))).
      { apply get_in_keys. rewrite Hget. discriminate. }
      apply Hlow in Hin. lia.
  - change (Z.to_nat 1) with 1%nat. simpl. lra.
Qed.

Lemma self_convolution_exact_exact_FFT (d : Dict.t Z R) (num_times : Z) :
  self_convolution_exact exact_FFT d num_times.
Proof. intros min_val input_list _. reflexivity. Qed.



(** The PLD of the guarantee (epsilon, delta) = (1, 1), at interval 1: both
    buckets are stored with mass zero. *)
Lemma degenerate_guarantee_value :
  from_privacy_parameters {| epsilon := 1; delta := 1 |} 1 =
  Ok {| rounded_probability_mass_function :=
          [(1%Z, (1 - 1) / (1 + exp (- 1))); ((-1)%Z, (1 - 1) / (1 + exp 1))];
        value_discretization_interval := 1;
        infinity_mass := 1 |}.
Proof.
  rewrite from_privacy_parameters_value by (unfold exp_overflow; lra).
  rewrite (math_ceil_eq (1 / 1) 1) by lra.
  rewrite (math_ceil_eq (Ropp 1 / 1) (-1)) by lra.
  cbn [Dict.set]. decide_keys. reflexivity.
Qed.

Lemma zero_mass (x : R) : (1 - 1) / x = 0.
Proof. replace (1 - 1) with 0 by lra. unfold Rdiv. apply Rmult_0_l. Qed.


(** ** C4: epsilon for a given delta *)

(** C4, at a failing input.  The PLD that [from_privacy_parameters] builds
    for the guarantee (epsilon, delta) = (1, 1) at interval 1 has infinity
    mass 1 and two buckets of mass zero.  For delta = 1 the divergence at
    epsilon = 0 is already 1, so the smallest non-negative epsilon is 0;
    [get_epsilon_for_delta(1)] returns 1: the first bucket, of mass zero,
    leaves [mass_lower] at 0 and triggers the early return of
    [max(0, val)]. *)
Theorem get_epsilon_for_delta_zero_mass_bucket :
  exists pld eps,
    from_privacy_parameters {| epsilon := 1; delta := 1 |} 1 = Ok pld /\
    get_epsilon_for_delta pld 1 = Ok (Fin eps) /\
    eps = 1 /\
    get_delta_for_epsilon pld 0 <= 1.
Proof.
  rewrite degenerate_guarantee_value. eexists. eexists.
  split; [reflexivity|].
  set (histogram :=
         [(1%Z, (1 - 1) / (1 + exp (- 1))); ((-1)%Z, (1 - 1) / (1 + exp 1))]).
  assert (Hm1 : Dict.get_default histogram 1%Z 0 = 0).
  { unfold Dict.get_default, histogram. cbn [Dict.get]. decide_keys.
    apply zero_mass. }
  assert (Hm2 : Dict.get_default histogram (-1)%Z 0 = 0).
  { unfold Dict.get_default, histogram. cbn [Dict.get]. decide_keys.
    apply zero_mass. }
  split; [|split].
  - unfold get_epsilon_for_delta.
    cbn [infinity_mass rounded_probability_mass_function
         value_discretization_interval].
    destruct (Rlt_dec 1 1) as [Hlt|_]; [exfalso; lra|].
    change (sorted_reverse (Dict.keys histogram)) with [1%Z; (-1)%Z].
    cbn [epsilon_loop value_discretization_interval
         rounded_probability_mass_function].
    unfold epsilon_reached at 1.
    destruct (Rlt_dec 1 1) as [Hlt|_]; [exfalso; lra|].
    cbn [bind]. rewrite Hm1.
    rewrite math_exp_ok by (unfold exp_underflow, exp_overflow; lra).
    cbn [bind].
    destruct (Rle_dec 1 (1 + 0)) as [_|Hn]; [|exfalso; lra].
    destruct (Req_dec_T (0 + exp (- (1 * 1)) * 0) 0) as [_|Hn];
      [|exfalso; lra].
    reflexivity.
  - unfold Rmax. destruct (Rle_dec 0 (1 * 1)); lra.
  - unfold get_delta_for_epsilon.
    cbn [infinity_mass rounded_probability_mass_function
         value_discretization_interval].
    change (Dict.keys histogram) with [1%Z; (-1)%Z].
    cbn [fold_left]. rewrite Hm1, Hm2. decide_R. lra.
Qed.

(** [exp(-x)] is at least 1/3 up to [x = 1]. *)
Lemma exp_neg_lower (x : R) : x <= 1 -> / 3 <= exp (- x).
Proof.
  intros Hx. apply Rle_trans with (exp (Ropp 1)).
  - rewrite exp_Ropp. apply Rinv_le_contravar; [apply exp_pos|apply exp_le_3].
  - destruct (Req_dec x 1) as [->|Hne]; [lra|].
    apply Rlt_le, exp_increasing. lra.
Qed.

(** *** [get_epsilon_for_delta] on histograms of positive masses

    When every stored mass is positive the special case never fires, and
    the loop finds the smallest non-negative epsilon. *)

Lemma sum_map_le {A : Type} (f g : A -> R) (l : list A) :
  (forall x, In x l -> f x <= g x) -> sum (map f l) <= sum (map g l).
Proof.
  induction l as [|x l IH]; intros Hle; simpl; [lra|].
  apply Rplus_le_compat; [apply Hle; now left|].
  apply IH. intros y Hy. apply Hle. now right.
Qed.

Lemma sum_map_nonneg {A : Type} (f : A -> R) (l : list A) :
  (forall x, In x l -> 0 <= f x) -> 0 <= sum (map f l).
Proof.
  induction l as [|x l IH]; intros Hle; simpl; [lra|].
  apply Rplus_le_le_0_compat; [apply Hle; now left|].
  apply IH. intros y Hy. apply Hle. now right.
Qed.

Lemma sum_map_app {A : Type} (f : A -> R) (l1 l2 : list A) :
  sum (map f (l1 ++ l2)) = sum (map f l1) + sum (map f l2).
Proof. rewrite map_app. apply sum_app. Qed.

(** Either some element of the list lies at or below the bound, or all
    of them lie strictly above it. *)
Lemma below_or_all_above (v : Z -> R) (l : list Z) (eps : R) :
  (exists a, In a l /\ v a <= eps) \/ (forall a, In a l -> eps < v a).
Proof.
  induction l as [|x l [[a [Ha Hle]]|Hall]].
  - right. intros a [].
  - left. exists a. split; [now right|assumption].
  - destruct (Rle_dec (v x) eps) as [Hx|Hx].
    + left. exists x. split; [now left|assumption].
    + right. intros a [<-|Ha]; [lra|now apply Hall].
Qed.

Lemma descending_strict (l : list Z) :
  StronglySorted (fun x y => is_true (ZDescending.leb x y)) l -> NoDup l ->
  StronglySorted (fun a b => (b < a)%Z) l.
Proof.
  induction 1 as [|a l Hsorted IH Hall]; intros Hnd; constructor.
  - apply IH. now inversion Hnd.
  - inversion Hnd as [|? ? Hnotin _]; subst.
    rewrite Forall_forall in *. intros b Hb.
    specialize (Hall b Hb). unfold ZDescending.leb, is_true in Hall.
    apply Z.leb_le in Hall.
    assert (b <> a) by (intros ->; contradiction). lia.
Qed.

Lemma sorted_reverse_spec (keys : list Z) :
  NoDup keys ->
  Permutation keys (sorted_reverse keys) /\
  StronglySorted (fun a b => (b < a)%Z) (sorted_reverse keys).
Proof.
  intros Hnd. unfold sorted_reverse.
  pose proof (ZDescendingSort.Permuted_sort keys) as Hperm.
  split; [exact Hperm|]. apply descending_strict.
  - apply ZDescendingSort.StronglySorted_sort.
    intros x y z. unfold ZDescending.leb, is_true.
    rewrite !Z.leb_le. lia.
  - eapply Permutation_NoDup; eassumption.
Qed.

Section EpsilonForDelta.
Variable self : PrivacyLossDistribution.
Variable delta : R.
Hypothesis interval_pos : 0 < value_discretization_interval self.

Lemma bucket_value_increasing (a b : Z) :
  (b < a)%Z -> bucket_value self b < bucket_value self a.
Proof.
  intros Hlt. unfold bucket_value.
  apply Rmult_lt_compat_r; [assumption|now apply IZR_lt].
Qed.

Lemma divergence_term_unfold (eps : R) (i : Z) :
  divergence_term self eps i =
  if Rlt_dec eps (bucket_value self i) then
    if Rlt_dec 0 (bucket_mass self i) then signed_term self eps i else 0
  else 0.
Proof. reflexivity. Qed.

Lemma signed_le_term (eps : R) (i : Z) :
  0 <= bucket_mass self i ->
  signed_term self eps i <= divergence_term self eps i.
Proof.
  intros Hm. rewrite divergence_term_unfold.
  destruct (Rlt_dec eps (bucket_value self i)) as [Hlt|Hge].
  - destruct (Rlt_dec 0 (bucket_mass self i)); [lra|].
    unfold signed_term. assert (bucket_mass self i = 0) as -> by lra. lra.
  - unfold signed_term.
    assert (1 <= exp (eps - bucket_value self i)).
    { rewrite <- exp_0. destruct (Req_dec_T eps (bucket_value self i)) as [->|].
      - rewrite Rminus_diag. lra.
      - apply Rlt_le, exp_increasing. lra. }
    nra.
Qed.

Lemma term_eq_signed (eps : R) (i : Z) :
  0 <= bucket_mass self i -> eps <= bucket_value self i ->
  divergence_term self eps i = signed_term self eps i.
Proof.
  intros Hm Hle. rewrite divergence_term_unfold.
  destruct (Rlt_dec eps (bucket_value self i)) as [Hlt|Hge].
  - destruct (Rlt_dec 0 (bucket_mass self i)); [reflexivity|].
    unfold signed_term. assert (bucket_mass self i = 0) as -> by lra. lra.
  - assert (eps = bucket_value self i) as -> by lra.
    unfold signed_term. rewrite Rminus_diag, exp_0. lra.
Qed.

Lemma term_zero (eps : R) (i : Z) :
  bucket_value self i <= eps -> divergence_term self eps i = 0.
Proof.
  intros Hle. rewrite divergence_term_unfold.
  destruct (Rlt_dec eps (bucket_value self i)); [lra|reflexivity].
Qed.

Lemma term_zero_mass (eps : R) (i : Z) :
  bucket_mass self i = 0 -> divergence_term self eps i = 0.
Proof.
  intros Hm. rewrite divergence_term_unfold, Hm.
  destruct (Rlt_dec eps (bucket_value self i)); [|reflexivity].
  destruct (Rlt_dec 0 0); [exfalso; lra|reflexivity].
Qed.

(** The signed term splits into what the loop adds to its two sums. *)
Lemma signed_term_split (eps : R) (i : Z) :
  signed_term self eps i =
  bucket_mass self i -
  exp eps * (exp (- bucket_value self i) * bucket_mass self i).
Proof.
  unfold signed_term. unfold Rminus at 2. rewrite exp_plus. ring.
Qed.

Section Prefix.
Variables pre suf : list Z.
Hypothesis divergence_sum : forall eps,
  get_delta_for_epsilon self eps =
  infinity_mass self + sum (map (divergence_term self eps) (pre ++ suf)).
Hypothesis masses_nonneg :
  forall k, In k (pre ++ suf) -> 0 <= bucket_mass self k.

Lemma divergence_ge_prefix (eps : R) :
  infinity_mass self + sum (map (signed_term self eps) pre)
  <= get_delta_for_epsilon self eps.
Proof.
  rewrite divergence_sum, sum_map_app.
  assert (sum (map (signed_term self eps) pre)
          <= sum (map (divergence_term self eps) pre)).
  { apply sum_map_le. intros k Hk. apply signed_le_term.
    apply masses_nonneg, in_or_app. now left. }
  assert (0 <= sum (map (divergence_term self eps) suf)).
  { apply sum_map_nonneg. intros k _. apply term_nonneg. }
  lra.
Qed.

Lemma divergence_eq_prefix (eps : R) :
  (forall a, In a pre -> eps <= bucket_value self a) ->
  (forall b, In b suf -> bucket_value self b <= eps) ->
  get_delta_for_epsilon self eps =
  infinity_mass self + sum (map (signed_term self eps) pre).
Proof.
  intros Hpre Hsuf. rewrite divergence_sum, sum_map_app.
  rewrite (sum_map_zero (divergence_term self eps) suf)
    by (intros k Hk; apply term_zero; now apply Hsuf).
  rewrite (map_ext_in (divergence_term self eps) (signed_term self eps) pre).
  - lra.
  - intros k Hk. apply term_eq_signed; [|now apply Hpre].
    apply masses_nonneg, in_or_app. now left.
Qed.
End Prefix.

Lemma quotient_spec (U L : R) :
  0 < L -> delta < U ->
  0 < (U - delta) / L /\ exp (ln ((U - delta) / L)) * L = U - delta.
Proof.
  intros HL HU.
  assert (Hq : 0 < (U - delta) / L) by (apply Rdiv_lt_0_compat; lra).
  split; [exact Hq|]. rewrite exp_ln by exact Hq. field. lra.
Qed.

(** Leaving the loop by [break], or at its end, gives the right epsilon. *)
Lemma fall_through_correct (pre suf : list Z) (U L : R) :
  loop_invariant self delta pre suf U L ->
  (suf = [] \/
   exists k suf', suf = k :: suf' /\ delta < U /\ 0 < L /\
                  bucket_value self k <= ln ((U - delta) / L)) ->
  exists eps,
    epsilon_after_loop delta (Fell_through U L) = Ok (Fin eps) /\
    smallest_epsilon self delta eps.
Proof.
  intros (HD & Hpos & _ & Hsorted & Hsep & Hsums & HL0 & HLU & HQ) Hexit.
  cbn [epsilon_after_loop].
  destruct (Rle_dec U (L + delta)) as [Hzero|Hlog].
  - (* the answer is 0 *)
    exists 0. split; [reflexivity|]. split; [lra|]. split; [|intros; lra].
    destruct (below_or_all_above (bucket_value self) pre 0)
      as [Hbelow|Habove]; [now apply HQ|].
    rewrite (divergence_eq_prefix pre suf HD Hpos 0).
    + rewrite Hsums, exp_0. lra.
    + intros a Ha. apply Rlt_le. now apply Habove.
    + intros b Hb. destruct Hexit as [->|(k & suf' & -> & HU & HL & Hk)];
        [destruct Hb|].
      destruct (quotient_spec U L HL HU) as [Hq Hexp].
      assert (Hk0 : bucket_value self k <= 0).
      { apply Rle_trans with (1 := Hk). apply Rnot_lt_le. intros Hln.
        apply exp_increasing in Hln. rewrite exp_0 in Hln. nra. }
      destruct Hb as [<-|Hb]; [exact Hk0|].
      apply StronglySorted_inv in Hsorted as [_ Hall].
      rewrite Forall_forall in Hall.
      pose proof (bucket_value_increasing k b (Hall b Hb)). lra.
  - (* the answer is the logarithm *)
    assert (HL : 0 < L).
    { destruct HL0 as [HL|HL]; [exact HL|].
      exfalso. symmetry in HL. specialize (HLU HL). lra. }
    assert (HU : delta < U) by lra.
    destruct (quotient_spec U L HL HU) as [Hq Hexp].
    set (eps := ln ((U - delta) / L)) in *.
    rewrite py_div_ok by lra. cbn [bind]. rewrite math_log_ok by exact Hq.
    cbn [bind]. exists eps. split; [reflexivity|].
    assert (Heps : 0 < eps).
    { apply exp_lt_inv. rewrite exp_0. nra. }
    assert (Hpre : forall a, In a pre -> eps <= bucket_value self a).
    { intros a Ha. apply Rnot_lt_le. intros Hlt.
      assert (Hle : get_delta_for_epsilon self (bucket_value self a) <= delta)
        by (apply HQ; exists a; split; [assumption|lra]).
      pose proof (divergence_ge_prefix pre suf HD Hpos (bucket_value self a))
        as Hge.
      rewrite Hsums in Hge. apply exp_increasing in Hlt. nra. }
    assert (Hsuf : forall b, In b suf -> bucket_value self b <= eps).
    { intros b Hb. destruct Hexit as [->|(k & suf' & -> & _ & _ & Hk)];
        [destruct Hb|].
      destruct Hb as [<-|Hb]; [exact Hk|].
      apply StronglySorted_inv in Hsorted as [_ Hall].
      rewrite Forall_forall in Hall.
      pose proof (bucket_value_increasing k b (Hall b Hb)). lra. }
    split; [lra|]. split.
    + rewrite (divergence_eq_prefix pre suf HD Hpos eps Hpre Hsuf).
      rewrite Hsums. lra.
    + intros eps' _ Hle. apply Rnot_lt_le. intros Hlt.
      pose proof (divergence_ge_prefix pre suf HD Hpos eps') as Hge.
      rewrite Hsums in Hge. apply exp_increasing in Hlt. nra.
Qed.

(** One more bucket folded into the sums keeps the invariant, provided the
    [break] test and the test of the special case have both failed. *)
Lemma loop_invariant_step (pre suf : list Z) (k : Z) (U L : R) :
  loop_invariant self delta pre (k :: suf) U L ->
  ~ (delta < U /\ 0 < L /\ bucket_value self k <= ln ((U - delta) / L)) ->
  ~ (delta <= U + bucket_mass self k /\
     L + exp (- bucket_value self k) * bucket_mass self k = 0) ->
  loop_invariant self delta (pre ++ [k]) suf
    (U + bucket_mass self k)
    (L + exp (- bucket_value self k) * bucket_mass self k).
Proof.
  intros (HD & Hpos & Hzero & Hsorted & Hsep & Hsums & HL0 & HLU & HQ)
         Hgo Hspecial.
  assert (Hm : 0 <= bucket_mass self k).
  { apply Hpos, in_or_app. right. now left. }
  pose proof (exp_pos (- bucket_value self k)) as Hexp.
  assert (HL' : 0 <= L + exp (- bucket_value self k) * bucket_mass self k)
    by nra.
  apply StronglySorted_inv in Hsorted as [Hsorted Hall].
  rewrite Forall_forall in Hall.
  unfold loop_invariant. rewrite <- !app_assoc. cbn [app].
  split; [exact HD|]. split; [exact Hpos|].
  split; [|split; [exact Hsorted|
           split; [|split; [|split; [exact HL'|split]]]]].
  - intros HL'0 a Ha.
    assert (HL0' : L = 0) by nra.
    apply in_app_or in Ha as [Ha|[<-|[]]]; [now apply Hzero|nra].
  - intros a b Ha Hb. apply in_app_or in Ha as [Ha|[<-|[]]].
    + apply Hsep; [assumption|now right].
    + now apply Hall.
  - intros eps. rewrite sum_map_app. cbn [map sum fold_right].
    rewrite signed_term_split.
    pose proof (Hsums eps). lra.
  - intros HL'0. apply Rnot_lt_le. intros Hlt. apply Hspecial.
    split; [lra|exact HL'0].
  - intros eps [a [Ha Hle]].
    destruct (below_or_all_above (bucket_value self) pre eps)
      as [Hbelow|Habove]; [now apply HQ|].
    apply in_app_or in Ha as [Ha|[<-|[]]].
    { apply HQ. exists a. split; assumption. }
    rewrite (divergence_eq_prefix pre (k :: suf) HD Hpos eps).
    + rewrite Hsums. pose proof (exp_pos eps).
      destruct (Rle_dec U delta) as [HU|HU]; [nra|].
      assert (HL : 0 < L).
      { destruct HL0 as [HL|HL]; [exact HL|].
        exfalso. symmetry in HL. specialize (HLU HL). lra. }
      assert (HU' : delta < U) by lra.
      destruct (quotient_spec U L HL HU') as [Hq Hexpq].
      assert (Hlt : ln ((U - delta) / L) < eps).
      { apply Rnot_le_lt. intros Hln. apply Hgo. repeat split; lra. }
      apply exp_increasing in Hlt. nra.
    + intros a' Ha'. apply Rlt_le. now apply Habove.
    + intros b [<-|Hb]; [exact Hle|].
      pose proof (bucket_value_increasing k b (Hall b Hb)). lra.
Qed.

(** When the special case returns, every bucket met so far has mass zero
    and the returned value attains the target. *)
Lemma special_return_sound (pre suf : list Z) (k : Z) (U L : R) :
  loop_invariant self delta pre (k :: suf) U L ->
  L + exp (- bucket_value self k) * bucket_mass self k = 0 ->
  bucket_mass self k = 0 /\
  get_delta_for_epsilon self (Rmax 0 (bucket_value self k)) <= delta.
Proof.
  intros (HD & Hpos & Hzero & Hsorted & Hsep & Hsums & HL0 & HLU & HQ) HL'.
  assert (Hm : 0 <= bucket_mass self k).
  { apply Hpos, in_or_app. right. now left. }
  pose proof (exp_pos (- bucket_value self k)) as Hexp.
  assert (HL : L = 0) by nra.
  assert (Hmk : bucket_mass self k = 0) by nra.
  split; [exact Hmk|].
  apply StronglySorted_inv in Hsorted as [_ Hall].
  rewrite Forall_forall in Hall.
  rewrite HD. rewrite (sum_map_zero _ (pre ++ k :: suf)).
  - pose proof (Hsums 0) as H0. rewrite HL in H0.
    rewrite (sum_map_zero _ pre) in H0.
    + specialize (HLU HL). lra.
    + intros a Ha. unfold signed_term. rewrite (Hzero HL a Ha). lra.
  - intros b Hb. apply in_app_or in Hb as [Hb|[<-|Hb]].
    + apply term_zero_mass. now apply Hzero.
    + now apply term_zero_mass.
    + apply term_zero.
      pose proof (bucket_value_increasing k b (Hall b Hb)).
      pose proof (Rmax_r 0 (bucket_value self k)). lra.
Qed.

(** The loop and the code after it: the result attains the target, and it
    is the smallest such epsilon when the masses still to come are
    positive. *)
Lemma epsilon_loop_correct (suf : list Z) :
  (forall k, In k suf ->
             exp_underflow <= - bucket_value self k <= exp_overflow) ->
  forall pre U L,
    loop_invariant self delta pre suf U L ->
    exists eps,
      (r <- epsilon_loop self delta suf U L ;; epsilon_after_loop delta r)
      = Ok (Fin eps) /\
      0 <= eps /\
      get_delta_for_epsilon self eps <= delta /\
      ((forall k, In k suf -> 0 < bucket_mass self k) ->
       smallest_epsilon self delta eps).
Proof.
  induction suf as [|k suf IH]; intros Hrange pre U L Hinv.
  - cbn [epsilon_loop bind].
    destruct (fall_through_correct pre [] U L Hinv) as [eps [Hrun Hsmall]];
      [now left|].
    exists eps. split; [exact Hrun|]. destruct Hsmall as (H0 & Hle & _).
    split; [exact H0|]. split; [exact Hle|]. intros _.
    destruct (fall_through_correct pre [] U L Hinv) as [eps' [Hrun' Hsmall']];
      [now left|].
    rewrite Hrun in Hrun'. now injection Hrun' as <-.
  - cbn [epsilon_loop]. fold (bucket_value self k). fold (bucket_mass self k).
    assert (Hstop : exists stop : bool,
      epsilon_reached delta U L (bucket_value self k) = Ok stop /\
      (stop = true <->
       delta < U /\ 0 < L /\ bucket_value self k <= ln ((U - delta) / L))).
    { unfold epsilon_reached.
      destruct (Rlt_dec delta U) as [HU|HU];
        [|exists false; split; [reflexivity|split; [discriminate|tauto]]].
      destruct (Rlt_dec 0 L) as [HL|HL];
        [|exists false; split; [reflexivity|split; [discriminate|tauto]]].
      destruct (quotient_spec U L HL HU) as [Hq _].
      rewrite py_div_ok by lra. cbn [bind]. rewrite math_log_ok by exact Hq.
      cbn [bind].
      destruct (Rle_dec (bucket_value self k) (ln ((U - delta) / L)));
        [exists true|exists false]; (split; [reflexivity|]); split;
        try tauto; try discriminate. }
    destruct Hstop as [stop [-> Hstop]]. cbn [bind].
    destruct stop.
    + cbn [bind].
      destruct (fall_through_correct pre (k :: suf) U L Hinv)
        as [eps [Hrun Hsmall]].
      { right. exists k, suf. split; [reflexivity|]. now apply Hstop. }
      exists eps. split; [exact Hrun|]. pose proof Hsmall as (H0 & Hle & _).
      split; [exact H0|]. split; [exact Hle|]. intros _. exact Hsmall.
    + assert (Hgo : ~ (delta < U /\ 0 < L /\
                       bucket_value self k <= ln ((U - delta) / L))).
      { intros Hbreak. apply Hstop in Hbreak. discriminate. }
      rewrite math_exp_ok by (apply Hrange; now left). cbn [bind].
      assert (Hrange' : forall b, In b suf ->
                exp_underflow <= - bucket_value self b <= exp_overflow)
        by (intros b Hb; apply Hrange; now right).
      specialize (IH Hrange').
      set (U' := U + bucket_mass self k).
      set (L' := L + exp (- bucket_value self k) * bucket_mass self k).
      destruct (Rle_dec delta U') as [HU'|HU'].
      * destruct (Req_dec_T L' 0) as [HL'|HL'].
        -- destruct (special_return_sound pre suf k U L Hinv HL')
             as [Hmk Hsound].
           cbn [bind epsilon_after_loop].
           exists (Rmax 0 (bucket_value self k)).
           split; [reflexivity|]. split; [apply Rmax_l|].
           split; [exact Hsound|]. intros Hpositive.
           exfalso. specialize (Hpositive k (or_introl eq_refl)). lra.
        -- destruct (IH (pre ++ [k]) U' L') as [eps (Hrun & H0 & Hle & Hmin)].
           { apply loop_invariant_step; [exact Hinv|exact Hgo|].
             intros [_ Hz]. contradiction. }
           exists eps. split; [exact Hrun|]. split; [exact H0|].
           split; [exact Hle|]. intros Hpositive. apply Hmin.
           intros b Hb. apply Hpositive. now right.
      * destruct (IH (pre ++ [k]) U' L') as [eps (Hrun & H0 & Hle & Hmin)].
        { apply loop_invariant_step; [exact Hinv|exact Hgo|].
          intros [Hd _]. contradiction. }
        exists eps. split; [exact Hrun|]. split; [exact H0|].
        split; [exact Hle|]. intros Hpositive. apply Hmin.
        intros b Hb. apply Hpositive. now right.
Qed.

(** The invariant holds when the loop starts. *)
Lemma loop_invariant_start :
  Dict.wf (rounded_probability_mass_function self) ->
  (forall k, In k (Dict.keys (rounded_probability_mass_function self)) ->
             0 <= bucket_mass self k) ->
  infinity_mass self <= delta ->
  loop_invariant self delta []
    (sorted_reverse (Dict.keys (rounded_probability_mass_function self)))
    (infinity_mass self) 0.
Proof.
  intros Hwf Hnn Hinf.
  destruct (sorted_reverse_spec
              (Dict.keys (rounded_probability_mass_function self)) Hwf)
    as [Hperm Hsorted].
  unfold loop_invariant. cbn [app map sum fold_right].
  split; [|split; [|split; [intros _ a []|
                    split; [exact Hsorted|split; [intros a b []|]]]]].
  - intros eps. rewrite get_delta_for_epsilon_sum. f_equal.
    now apply sum_map_permutation.
  - intros k Hk. apply Hnn.
    eapply Permutation_in; [apply Permutation_sym|]; eassumption.
  - split; [intros; lra|]. split; [lra|]. split; [intros; lra|].
    intros eps [a [[] _]].
Qed.

(** With positive masses the result is the smallest epsilon. *)
Lemma epsilon_for_delta_smallest :
  Dict.wf (rounded_probability_mass_function self) ->
  all_positive (rounded_probability_mass_function self) ->
  losses_in_float_range self ->
  infinity_mass self <= delta ->
  exists eps,
    get_epsilon_for_delta self delta = Ok (Fin eps) /\
    smallest_epsilon self delta eps.
Proof.
  intros Hwf Hpos Hrange Hinf. unfold get_epsilon_for_delta.
  destruct (Rlt_dec delta (infinity_mass self)); [exfalso; lra|].
  assert (Hmass : forall k,
    In k (Dict.keys (rounded_probability_mass_function self)) ->
    0 < bucket_mass self k)
    by (intros k Hk; now apply get_default_positive).
  destruct (sorted_reverse_spec _ Hwf) as [Hperm _].
  assert (Hkeys : forall k,
    In k (sorted_reverse
            (Dict.keys (rounded_probability_mass_function self))) ->
    In k (Dict.keys (rounded_probability_mass_function self)))
    by (intros k Hk; eapply Permutation_in;
        [apply Permutation_sym|]; eassumption).
  destruct (epsilon_loop_correct _
              (fun k Hk => proj1 (Hrange k (Hkeys k Hk))) [] _ _
              (loop_invariant_start Hwf
                 (fun k Hk => Rlt_le _ _ (Hmass k Hk)) Hinf))
    as [eps (Hrun & _ & _ & Hmin)].
  exists eps. split; [exact Hrun|]. apply Hmin.
  intros k Hk. apply Hmass. now apply Hkeys.
Qed.
End EpsilonForDelta.

(** X28. On a PLD with a positive discretization interval whose stored
    masses are all strictly positive and on which [mass_lower] is computed
    within the range of normal floats ([math.exp(-val)] does not overflow,
    and it and its product with the mass of the bucket are at least the
    least positive normal float), [get_epsilon_for_delta(delta)] is
    +infinity exactly when [infinity_mass > delta], in which case no
    epsilon attains the target, and is otherwise the smallest non-negative
    epsilon whose divergence is at most delta.  The defect shown above
    needs a stored mass that is not positive. *)
Theorem get_epsilon_for_delta_positive_masses
  (self : PrivacyLossDistribution) (delta : R) :
  0 < value_discretization_interval self ->
  Dict.wf (rounded_probability_mass_function self) ->
  all_positive (rounded_probability_mass_function self) ->
  losses_in_float_range self ->
  (delta < infinity_mass self ->
   get_epsilon_for_delta self delta = Ok PInf /\
   forall eps, delta < get_delta_for_epsilon self eps) /\
  (infinity_mass self <= delta ->
   exists eps,
     get_epsilon_for_delta self delta = Ok (Fin eps) /\
     smallest_epsilon self delta eps).
Proof.
  intros Hvdi Hwf Hpos Hrange. split.
  - intros Hinf. unfold get_epsilon_for_delta.
    destruct (Rlt_dec delta (infinity_mass self)); [|contradiction].
    split; [reflexivity|]. intros eps. rewrite get_delta_for_epsilon_sum.
    assert (0 <= sum (map (divergence_term self eps)
                          (Dict.keys
                             (rounded_probability_mass_function self)))).
    { apply sum_map_nonneg. intros k _. apply term_nonneg. }
    lra.
  - intros Hinf. now apply epsilon_for_delta_smallest.
Qed.

Lemma get_epsilon_for_delta_positive_masses_example :
  exists eps,
    get_epsilon_for_delta
      {| rounded_probability_mass_function := [(1%Z, 1 / 2); ((-1)%Z, 1 / 2)];
         value_discretization_interval := 1;
         infinity_mass := 0 |} 0 = Ok (Fin eps) /\
    smallest_epsilon
      {| rounded_probability_mass_function := [(1%Z, 1 / 2); ((-1)%Z, 1 / 2)];
         value_discretization_interval := 1;
         infinity_mass := 0 |} 0 eps.
Proof.
  refine (proj2 (get_epsilon_for_delta_positive_masses
                   {| rounded_probability_mass_function :=
                        [(1%Z, 1 / 2); ((-1)%Z, 1 / 2)];
                      value_discretization_interval := 1;
                      infinity_mass := 0 |} 0 _ _ _ _) _).
  - simpl. lra.
  - unfold Dict.wf; simpl; repeat constructor; simpl; lia.
  - intros k m. cbn [rounded_probability_mass_function Dict.get].
    decide_keys; intros [= <-]; lra.
  - intros k Hk. pose proof (exp_neg_lower (bucket_value
      {| rounded_probability_mass_function := [(1%Z, 1 / 2); ((-1)%Z, 1 / 2)];
         value_discretization_interval := 1;
         infinity_mass := 0 |} k)) as Hexp.
    unfold bucket_mass, Dict.get_default.
    cbn [rounded_probability_mass_function Dict.get Dict.keys map fst]
      in Hk |- *.
    destruct Hk as [<-|[<-|[]]]; decide_keys;
      unfold bucket_value, exp_underflow, exp_overflow, float_min_normal in *;
      cbn [value_discretization_interval] in *;
      (split; [lra|]); (split; [|right]); lra.
  - simpl. lra.
Defined.

(** * Further properties of the code *)

(** ** The dense and the sparse form of a histogram *)

Lemma fold_min_in (l : list Z) (x : Z) : In (fold_left Z.min l x) (x :: l).
Proof.
  revert x. induction l as [|z l IH]; intros x; simpl; [now left|].
  destruct (IH (Z.min x z)) as [Hhead|Htail]; [|now right; right].
  destruct (Z.min_spec x z) as [[_ Hmin]|[_ Hmin]]; rewrite Hmin in *.
  - now left.
  - right. now left.
Qed.

Lemma fold_max_in (l : list Z) (x : Z) : In (fold_left Z.max l x) (x :: l).
Proof.
  revert x. induction l as [|z l IH]; intros x; simpl; [now left|].
  destruct (IH (Z.max x z)) as [Hhead|Htail]; [|now right; right].
  destruct (Z.max_spec x z) as [[_ Hmax]|[_ Hmax]]; rewrite Hmax in *.
  - right. now left.
  - now left.
Qed.

(** X1. [dictionary_to_list] raises [ValueError] on the empty dictionary.
    On a non-empty one it returns the least key as offset and a list that
    spans exactly the keys from the least to the greatest: both ends are
    keys, every key falls inside, and the entry at index [i] is the mass
    stored at key [offset + i], or 0 when that key is absent. *)
Theorem dictionary_to_list_dense (d : Dict.t Z R) :
  (d = [] ->
   dictionary_to_list d =
   Raise (ValueError "min() arg is an empty sequence")) /\
  (d <> [] ->
   exists offset l,
     dictionary_to_list d = Ok (offset, l) /\
     In offset (Dict.keys d) /\
     In (offset + Z.of_nat (List.length l) - 1)%Z (Dict.keys d) /\
     (forall k, In k (Dict.keys d) ->
                (offset <= k < offset + Z.of_nat (List.length l))%Z) /\
     (forall i : nat,
        nth i l 0 = Dict.get_default d (offset + Z.of_nat i)%Z 0)).
Proof.
  split; [intros ->; reflexivity|]. intros Hne.
  destruct (dictionary_to_list_spec d Hne)
    as [offset [l [Hl [Hnil [Hlow Hnth]]]]].
  exists offset, l. split; [exact Hl|].
  unfold dictionary_to_list in Hl.
  destruct (Dict.keys d) as [|x ks] eqn:Hkeys.
  { destruct d; [contradiction|discriminate]. }
  cbn [py_min py_max bind] in Hl. injection Hl as Hoff Hlist.
  assert (Hlen : Z.of_nat (List.length l) =
                 (fold_left Z.max ks x + 1 - offset)%Z).
  { rewrite <- Hlist, length_map, py_range_length.
    pose proof (fold_max_ge ks x offset) as Hmax.
    rewrite <- Hoff in Hmax at 1.
    specialize (Hmax (fold_min_in ks x)). subst offset. lia. }
  split; [rewrite <- Hoff; apply fold_min_in|].
  split.
  - replace (offset + Z.of_nat (List.length l) - 1)%Z
      with (fold_left Z.max ks x) by lia.
    apply fold_max_in.
  - split; [|exact Hnth]. intros k Hk. split; [now apply Hlow|].
    pose proof (fold_max_ge ks x k Hk). lia.
Qed.

Lemma dictionary_to_list_dense_witness :
  exists offset l,
    dictionary_to_list [(5%Z, 1 / 4); (2%Z, 1 / 2)] = Ok (offset, l) /\
    In offset (Dict.keys [(5%Z, 1 / 4); (2%Z, 1 / 2)]) /\
    In (offset + Z.of_nat (List.length l) - 1)%Z
       (Dict.keys [(5%Z, 1 / 4); (2%Z, 1 / 2)]) /\
    (forall k, In k (Dict.keys [(5%Z, 1 / 4); (2%Z, 1 / 2)]) ->
               (offset <= k < offset + Z.of_nat (List.length l))%Z) /\
    (forall i : nat,
       nth i l 0 =
       Dict.get_default [(5%Z, 1 / 4); (2%Z, 1 / 2)]
                        (offset + Z.of_nat i)%Z 0).
Proof.
  apply (proj2 (dictionary_to_list_dense [(5%Z, 1 / 4); (2%Z, 1 / 2)])).
  discriminate.
Defined.

Lemma list_to_dictionary_wf (l : list R) (offset : Z) :
  Dict.wf (list_to_dictionary l offset).
Proof.
  unfold list_to_dictionary. generalize (seq 0 (List.length l)).
  assert (Hnil : Dict.wf (@nil (Z * R))) by constructor.
  revert Hnil. generalize (@nil (Z * R)) as d. intros d Hd idx. revert d Hd.
  induction idx as [|i idx IH]; intros d Hd; simpl; [exact Hd|].
  apply IH. destruct (Rlt_dec 0 (nth i l 0)); [|exact Hd].
  now apply set_wf.
Qed.

(** X2. [list_to_dictionary] stores exactly the positive entries of the
    list, the entry at index [i] under key [i + offset]: a key holds [v]
    if and only if it is [i + offset] for an index [i] of the list whose
    entry is [v > 0].  No key is stored twice. *)
Theorem list_to_dictionary_lookup (l : list R) (offset : Z) :
  Dict.wf (list_to_dictionary l offset) /\
  forall key v,
    Dict.get (list_to_dictionary l offset) key = Some v <->
    exists i : nat,
      (i < List.length l)%nat /\ key = (Z.of_nat i + offset)%Z /\
      nth i l 0 = v /\ 0 < v.
Proof.
  split; [apply list_to_dictionary_wf|]. intros key v.
  rewrite list_to_dictionary_get. split.
  - destruct (Z.leb_spec offset key) as [Hle|Hlt]; [|discriminate].
    destruct (Rlt_dec 0 (nth (Z.to_nat (key - offset)) l 0)) as [Hpos|];
      [|discriminate].
    intros [= <-]. exists (Z.to_nat (key - offset)).
    split; [|split; [lia|split; [reflexivity|exact Hpos]]].
    destruct (Nat.lt_ge_cases (Z.to_nat (key - offset)) (List.length l))
      as [Hin|Hout]; [exact Hin|].
    rewrite nth_overflow in Hpos by exact Hout. lra.
  - intros [i (Hi & -> & <- & Hpos)].
    destruct (Z.leb_spec offset (Z.of_nat i + offset)) as [_|Hlt]; [|lia].
    replace (Z.to_nat (Z.of_nat i + offset - offset)) with i by lia.
    destruct (Rlt_dec 0 (nth i l 0)); [reflexivity|contradiction].
Qed.

Lemma list_to_dictionary_lookup_witness :
  Dict.get (list_to_dictionary [1 / 2; 0] 3) 3%Z = Some (1 / 2).
Proof.
  apply (proj2 (list_to_dictionary_lookup [1 / 2; 0] 3)).
  exists 0%nat. split; [simpl; lia|]. split; [reflexivity|].
  split; [reflexivity|lra].
Defined.

Lemma positive_part_get_default (d : Dict.t Z R) (key : Z) :
  (if Rlt_dec 0 (Dict.get_default d key 0)
   then Some (Dict.get_default d key 0) else None) = positive_part d key.
Proof.
  unfold positive_part, Dict.get_default.
  destruct (Dict.get d key); [reflexivity|].
  destruct (Rlt_dec 0 0); [exfalso; lra|reflexivity].
Qed.

(** X3. Round trip: turning a non-empty dictionary into a list and back
    returns the dictionary without its entries of non-positive mass; every
    other key holds the mass it held before. *)
Theorem dictionary_list_round_trip (d : Dict.t Z R) :
  d <> [] ->
  exists offset l,
    dictionary_to_list d = Ok (offset, l) /\
    forall key,
      Dict.get (list_to_dictionary l offset) key = positive_part d key.
Proof.
  intros Hne.
  destruct (dictionary_to_list_spec d Hne)
    as [offset [l [Hl [Hnil [Hlow Hnth]]]]].
  exists offset, l. split; [exact Hl|]. intros key.
  rewrite list_to_dictionary_get.
  destruct (Z.leb_spec offset key) as [Hle|Hlt].
  - rewrite Hnth.
    replace (offset + Z.of_nat (Z.to_nat (key - offset)))%Z with key by lia.
    apply positive_part_get_default.
  - unfold positive_part.
    destruct (Dict.get d key) as [v|] eqn:Hget; [|reflexivity].
    exfalso. assert (Hin : In key (Dict.keys d)).
    { apply get_in_keys. rewrite Hget. discriminate. }
    apply Hlow in Hin. lia.
Qed.

Lemma dictionary_list_round_trip_witness :
  exists offset l,
    dictionary_to_list [(5%Z, 1 / 4); (2%Z, 0)] = Ok (offset, l) /\
    forall key,
      Dict.get (list_to_dictionary l offset) key =
      positive_part [(5%Z, 1 / 4); (2%Z, 0)] key.
Proof.
  apply (dictionary_list_round_trip [(5%Z, 1 / 4); (2%Z, 0)]). discriminate.
Defined.

(** ** Convolution *)

Lemma NoDup_map_reflect (key : Z) (l : list Z) :
  NoDup l -> NoDup (map (fun k => (key - k)%Z) l).
Proof.
  induction 1 as [|x l Hnotin Hnd IH]; simpl; constructor; [|exact IH].
  rewrite in_map_iff. intros [y [Heq Hy]].
  assert (y = x) by lia. subst y. contradiction.
Qed.

(** The sum over the decompositions [key1 + key2 = key] does not depend on
    which dictionary drives it. *)
Lemma convolution_at_comm (d1 d2 : Dict.t Z R) (key : Z) :
  Dict.wf d1 -> Dict.wf d2 ->
  convolution_at d1 d2 key = convolution_at d2 d1 key.
Proof.
  intros Hwf1 Hwf2. unfold convolution_at.
  set (h := fun key1 : Z =>
              Dict.get_default d1 key1 0 *
              Dict.get_default d2 (key - key1)%Z 0).
  transitivity (sum (map h (map (fun k => (key - k)%Z) (Dict.keys d2)))).
  - apply sum_map_common.
    + exact Hwf1.
    + now apply NoDup_map_reflect.
    + intros k Hout. unfold h. rewrite (get_default_absent d1 k Hout). lra.
    + intros k Hout. unfold h.
      rewrite (get_default_absent d2 (key - k)); [lra|].
      intros Hin. apply Hout. rewrite in_map_iff.
      exists (key - k)%Z. split; [lia|exact Hin].
  - rewrite map_map. f_equal. apply map_ext. intros k. unfold h.
    replace (key - (key - k))%Z with k by lia. lra.
Qed.

(** X4. Convolution is commutative where [fftconvolve] is exact: on two
    non-empty dictionaries whose dense lists [fftconvolve] convolves
    without rounding error in either order, [convolve_dictionary] returns,
    in either order of the arguments, dictionaries that hold the same mass
    under every key. *)
Theorem convolve_dictionary_comm (fft : FFT) (d1 d2 : Dict.t Z R) :
  d1 <> [] -> d2 <> [] -> Dict.wf d1 -> Dict.wf d2 ->
  convolution_exact fft d1 d2 -> convolution_exact fft d2 d1 ->
  exists r1 r2,
    convolve_dictionary fft d1 d2 = Ok r1 /\
    convolve_dictionary fft d2 d1 = Ok r2 /\
    forall key, Dict.get r1 key = Dict.get r2 key.
Proof.
  intros Hne1 Hne2 Hwf1 Hwf2 Hexact12 Hexact21.
  destruct (convolve_dictionary_get fft d1 d2 Hne1 Hne2 Hwf1 Hexact12)
    as [r1 [Hr1 Hget1]].
  destruct (convolve_dictionary_get fft d2 d1 Hne2 Hne1 Hwf2 Hexact21)
    as [r2 [Hr2 Hget2]].
  exists r1, r2. split; [exact Hr1|]. split; [exact Hr2|]. intros key.
  rewrite Hget1, Hget2, (convolution_at_comm d1 d2 key Hwf1 Hwf2).
  reflexivity.
Qed.

Lemma convolve_dictionary_comm_witness :
  exists r1 r2,
    convolve_dictionary exact_FFT
      [(0%Z, 1 / 2); (1%Z, 1 / 2)] [(2%Z, 1)] = Ok r1 /\
    convolve_dictionary exact_FFT
      [(2%Z, 1)] [(0%Z, 1 / 2); (1%Z, 1 / 2)] = Ok r2 /\
    forall key, Dict.get r1 key = Dict.get r2 key.
Proof.
  apply convolve_dictionary_comm; try discriminate;
    try apply convolution_exact_exact_FFT;
    unfold Dict.wf; simpl; repeat constructor; simpl; lia.
Defined.

(** X5. The point mass is a shift where [fftconvolve] is exact: when
    [fftconvolve] convolves the dense lists of [{c: 1}] and of a non-empty
    dictionary without rounding error, [convolve_dictionary] moves every
    positive mass from key [k] to key [c + k] and drops the other entries;
    for [c = 0] the positive part of the dictionary comes back
    unchanged. *)
Theorem convolve_dictionary_point_mass (fft : FFT) (c : Z) (d : Dict.t Z R) :
  d <> [] ->
  convolution_exact fft [(c, 1)] d ->
  exists r,
    convolve_dictionary fft [(c, 1)] d = Ok r /\
    forall key, Dict.get r key = positive_part d (key - c).
Proof.
  intros Hne Hexact.
  destruct (convolve_dictionary_get fft [(c, 1)] d) as [r [Hr Hget]];
    [discriminate|exact Hne|repeat constructor; intros []|exact Hexact|].
  exists r. split; [exact Hr|]. intros key. rewrite Hget.
  assert (Hconv : convolution_at [(c, 1)] d key =
                  Dict.get_default d (key - c)%Z 0).
  { unfold convolution_at. cbn [Dict.keys map fst sum fold_right].
    unfold Dict.get_default at 1. cbn [Dict.get].
    destruct (eq_dec c c); [lra|contradiction]. }
  rewrite Hconv. apply positive_part_get_default.
Qed.

Lemma convolve_dictionary_point_mass_witness :
  exists r,
    convolve_dictionary exact_FFT
      [(0%Z, 1)] [(3%Z, 1 / 2); ((-1)%Z, 1 / 2)] = Ok r /\
    forall key,
      Dict.get r key =
      positive_part [(3%Z, 1 / 2); ((-1)%Z, 1 / 2)] (key - 0).
Proof.
  apply (convolve_dictionary_point_mass exact_FFT 0
           [(3%Z, 1 / 2); ((-1)%Z, 1 / 2)]).
  - discriminate.
  - apply convolution_exact_exact_FFT.
Defined.

(** ** Composition conserves the probability mass *)

Lemma sum_map_plus {A : Type} (f g : A -> R) (l : list A) :
  sum (map (fun x => f x + g x) l) = sum (map f l) + sum (map g l).
Proof. induction l as [|x l IH]; simpl; lra. Qed.

Lemma sum_map_scal {A : Type} (c : R) (f : A -> R) (l : list A) :
  sum (map (fun x => c * f x) l) = c * sum (map f l).
Proof. induction l as [|x l IH]; simpl; lra. Qed.

Lemma sum_seq_nth (l : list R) :
  forall N, (List.length l <= N)%nat ->
            sum (map (fun n => nth n l 0) (seq 0 N)) = sum l.
Proof.
  induction l as [|a l IH]; intros N HN.
  - apply sum_map_zero. intros n _. now destruct n.
  - destruct N as [|N]; [simpl in HN; lia|].
    cbn [seq map sum fold_right nth]. rewrite <- seq_shift, map_map.
    cbn [nth]. rewrite IH by (simpl in HN; lia). reflexivity.
Qed.

Lemma convolution_entry_cons (a : R) (l1 l2 : list R) (n : nat) :
  convolution_entry (a :: l1) l2 n =
  a * nth n l2 0 +
  match n with
  | O => 0
  | S m => convolution_entry l1 l2 m
  end.
Proof.
  unfold convolution_entry. cbn [seq map sum fold_right nth].
  rewrite Nat.sub_0_r. f_equal.
  rewrite <- seq_shift, map_map. cbn [nth].
  destruct n as [|m]; [reflexivity|]. reflexivity.
Qed.

Lemma convolution_entry_nil (l2 : list R) (n : nat) :
  convolution_entry [] l2 n = 0.
Proof.
  unfold convolution_entry. apply sum_map_zero. intros i _.
  destruct i; simpl; lra.
Qed.

(** The entries of a convolution add up to the product of the two sums. *)
Lemma sum_convolution_entries (l2 : list R) (l1 : list R) :
  forall N, (List.length l1 + List.length l2 <= S N)%nat ->
            sum (map (convolution_entry l1 l2) (seq 0 N)) = sum l1 * sum l2.
Proof.
  induction l1 as [|a l1 IH]; intros N HN.
  - rewrite (sum_map_zero (convolution_entry [] l2))
      by (intros; apply convolution_entry_nil).
    simpl. lra.
  - rewrite (map_ext _ _ (convolution_entry_cons a l1 l2)).
    rewrite sum_map_plus, sum_map_scal. cbn [sum fold_right].
    destruct N as [|N].
    + simpl in HN.
      assert (l1 = []) by (destruct l1; [reflexivity|simpl in HN; lia]).
      assert (l2 = []) by (destruct l2; [reflexivity|simpl in HN; lia]).
      subst. simpl. lra.
    + rewrite sum_seq_nth by (simpl in HN; lia).
      cbn [seq map sum fold_right]. rewrite <- seq_shift, map_map.
      rewrite IH by (simpl in HN; lia). fold (sum l1). lra.
Qed.

Lemma linear_convolution_entries (l1 l2 : list R) :
  l1 <> [] -> l2 <> [] ->
  linear_convolution l1 l2 =
  map (convolution_entry l1 l2)
      (seq 0 (List.length l1 + List.length l2 - 1)).
Proof.
  intros H1 H2. destruct l1; [contradiction|]. destruct l2; [contradiction|].
  reflexivity.
Qed.

Lemma linear_convolution_sum (l1 l2 : list R) :
  l1 <> [] -> l2 <> [] -> sum (linear_convolution l1 l2) = sum l1 * sum l2.
Proof.
  intros H1 H2. rewrite linear_convolution_entries by assumption.
  apply sum_convolution_entries.
  destruct l1; [contradiction|]. simpl. lia.
Qed.

Lemma linear_convolution_nonneg (l1 l2 : list R) (n : nat) :
  l1 <> [] -> l2 <> [] ->
  (forall i, 0 <= nth i l1 0) -> (forall i, 0 <= nth i l2 0) ->
  0 <= nth n (linear_convolution l1 l2) 0.
Proof.
  intros H1 H2 Hnn1 Hnn2. rewrite linear_convolution_nth by assumption.
  apply sum_map_nonneg. intros i _. now apply Rmult_le_pos.
Qed.

(** A list without negative entries keeps its sum as a dictionary. *)
Lemma list_to_dictionary_sum (l : list R) (offset : Z) :
  (forall i, 0 <= nth i l 0) ->
  sum (Dict.values (list_to_dictionary l offset)) = sum l.
Proof.
  intros Hnn. set (d := list_to_dictionary l offset).
  assert (Hval : forall k,
    Dict.get_default d k 0 =
    if (offset <=? k)%Z then nth (Z.to_nat (k - offset)) l 0 else 0).
  { intros k. unfold Dict.get_default, d. rewrite list_to_dictionary_get.
    destruct (offset <=? k)%Z; [|reflexivity].
    destruct (Rlt_dec 0 (nth (Z.to_nat (k - offset)) l 0)) as [|Hz];
      [reflexivity|].
    pose proof (Hnn (Z.to_nat (k - offset))). lra. }
  rewrite <- (lookup_keys d 0 (list_to_dictionary_wf l offset)).
  rewrite (sum_map_common (fun k => Dict.get_default d k 0) (Dict.keys d)
             (py_range offset (offset + Z.of_nat (List.length l)))).
  - unfold py_range. rewrite map_map.
    replace (Z.to_nat (offset + Z.of_nat (List.length l) - offset))
      with (List.length l) by lia.
    rewrite <- (sum_seq_nth l (List.length l) (Nat.le_refl _)).
    f_equal. apply map_ext. intros i. rewrite Hval.
    destruct (Z.leb_spec offset (offset + Z.of_nat i)); [|lia].
    f_equal. lia.
  - apply list_to_dictionary_wf.
  - apply py_range_NoDup.
  - intros k Hout. now apply get_default_absent.
  - intros k Hout. rewrite py_range_In in Hout. rewrite Hval.
    destruct (Z.leb_spec offset k); [|reflexivity].
    apply nth_overflow. lia.
Qed.

(** The dense list of a dictionary has the sum of its values. *)
Lemma dictionary_to_list_sum (d : Dict.t Z R) (offset : Z) (l : list R) :
  Dict.wf d ->
  (forall k, In k (Dict.keys d) -> (offset <= k)%Z) ->
  (forall i : nat,
     nth i l 0 = Dict.get_default d (offset + Z.of_nat i)%Z 0) ->
  sum l = sum (Dict.values d).
Proof.
  intros Hwf Hlow Hnth.
  rewrite <- (lookup_keys d 0 Hwf).
  rewrite <- (sum_seq_nth l (List.length l) (Nat.le_refl _)).
  rewrite (sum_map_common (fun k => Dict.get_default d k 0) (Dict.keys d)
             (py_range offset (offset + Z.of_nat (List.length l)))).
  - unfold py_range. rewrite map_map.
    replace (Z.to_nat (offset + Z.of_nat (List.length l) - offset))
      with (List.length l) by lia.
    f_equal. apply map_ext. intros i. apply Hnth.
  - exact Hwf.
  - apply py_range_NoDup.
  - intros k Hout. now apply get_default_absent.
  - intros k Hout. rewrite py_range_In in Hout.
    destruct (Z_lt_ge_dec k offset) as [Hlt|Hge].
    + apply get_default_absent. intros Hin. apply Hlow in Hin. lia.
    + replace k with (offset + Z.of_nat (Z.to_nat (k - offset)))%Z by lia.
      rewrite <- Hnth. apply nth_overflow. lia.
Qed.

Lemma get_default_all_nonnegative (d : Dict.t Z R) (k : Z) :
  all_nonnegative d -> 0 <= Dict.get_default d k 0.
Proof.
  intros Hnn. unfold Dict.get_default.
  destruct (Dict.get d k) as [m|] eqn:Hget; [now apply (Hnn k)|lra].
Qed.

Lemma convolve_dictionary_sum (fft : FFT) (d1 d2 : Dict.t Z R) :
  d1 <> [] -> d2 <> [] -> Dict.wf d1 -> Dict.wf d2 ->
  all_nonnegative d1 -> all_nonnegative d2 ->
  convolution_exact fft d1 d2 ->
  exists r,
    convolve_dictionary fft d1 d2 = Ok r /\
    sum (Dict.values r) = sum (Dict.values d1) * sum (Dict.values d2).
Proof.
  intros Hne1 Hne2 Hwf1 Hwf2 Hnn1 Hnn2 Hexact.
  destruct (dictionary_to_list_spec d1 Hne1)
    as [min1 [list1 [Hl1 [Hnil1 [Hlow1 Hnth1]]]]].
  destruct (dictionary_to_list_spec d2 Hne2)
    as [min2 [list2 [Hl2 [Hnil2 [Hlow2 Hnth2]]]]].
  unfold convolve_dictionary. rewrite Hl1, Hl2. cbn [bind].
  rewrite (Hexact min1 list1 min2 list2 Hl1 Hl2).
  eexists. split; [reflexivity|].
  rewrite list_to_dictionary_sum.
  - rewrite linear_convolution_sum by assumption.
    rewrite (dictionary_to_list_sum d1 min1 list1 Hwf1 Hlow1 Hnth1).
    rewrite (dictionary_to_list_sum d2 min2 list2 Hwf2 Hlow2 Hnth2).
    reflexivity.
  - intros n. apply linear_convolution_nonneg; try assumption.
    + intros i. rewrite Hnth1. now apply get_default_all_nonnegative.
    + intros i. rewrite Hnth2. now apply get_default_all_nonnegative.
Qed.

(** X6. Composition conserves the probability mass.  For two PLDs with
    the same interval and non-empty histograms without negative masses,
    whose dense lists [fftconvolve] convolves without rounding error,
    the histogram of [compose] sums to the product of the sums of the two
    histograms; so when infinity mass and histogram add up to 1 in both
    PLDs, they add up to 1 in the composition. *)
Theorem compose_total_mass (fft : FFT)
  (self other : PrivacyLossDistribution) :
  value_discretization_interval self = value_discretization_interval other ->
  rounded_probability_mass_function self <> [] ->
  rounded_probability_mass_function other <> [] ->
  Dict.wf (rounded_probability_mass_function self) ->
  Dict.wf (rounded_probability_mass_function other) ->
  all_nonnegative (rounded_probability_mass_function self) ->
  all_nonnegative (rounded_probability_mass_function other) ->
  convolution_exact fft (rounded_probability_mass_function self)
                        (rounded_probability_mass_function other) ->
  exists pld,
    compose fft self other = Ok pld /\
    sum (Dict.values (rounded_probability_mass_function pld)) =
      sum (Dict.values (rounded_probability_mass_function self)) *
      sum (Dict.values (rounded_probability_mass_function other)) /\
    (total_mass self = 1 -> total_mass other = 1 -> total_mass pld = 1).
Proof.
  intros Hvdi Hne1 Hne2 Hwf1 Hwf2 Hnn1 Hnn2 Hexact.
  destruct (convolve_dictionary_sum fft _ _ Hne1 Hne2 Hwf1 Hwf2 Hnn1 Hnn2
              Hexact) as [r [Hr Hsum]].
  unfold compose. destruct (Req_dec_T _ _) as [_|Hne]; [|contradiction].
  rewrite Hr. cbn [bind]. eexists. split; [reflexivity|].
  cbn [rounded_probability_mass_function]. split; [exact Hsum|].
  unfold total_mass. cbn [rounded_probability_mass_function infinity_mass].
  intros H1 H2. rewrite Hsum. nra.
Qed.

Lemma compose_total_mass_witness :
  exists pld,
    compose exact_FFT
      {| rounded_probability_mass_function := [(0%Z, 1 / 4); (1%Z, 1 / 4)];
         value_discretization_interval := 1;
         infinity_mass := 1 / 2 |}
      {| rounded_probability_mass_function := [(2%Z, 1)];
         value_discretization_interval := 1;
         infinity_mass := 0 |} = Ok pld /\
    sum (Dict.values (rounded_probability_mass_function pld)) =
      sum (Dict.values [(0%Z, 1 / 4); (1%Z, 1 / 4)]) *
      sum (Dict.values [(2%Z, 1)]) /\
    (total_mass
       {| rounded_probability_mass_function := [(0%Z, 1 / 4); (1%Z, 1 / 4)];
          value_discretization_interval := 1;
          infinity_mass := 1 / 2 |} = 1 ->
     total_mass
       {| rounded_probability_mass_function := [(2%Z, 1)];
          value_discretization_interval := 1;
          infinity_mass := 0 |} = 1 ->
     total_mass pld = 1).
Proof.
  apply (compose_total_mass exact_FFT
           {| rounded_probability_mass_function :=
                [(0%Z, 1 / 4); (1%Z, 1 / 4)];
              value_discretization_interval := 1;
              infinity_mass := 1 / 2 |}
           {| rounded_probability_mass_function := [(2%Z, 1)];
              value_discretization_interval := 1;
              infinity_mass := 0 |}).
  - reflexivity.
  - discriminate.
  - discriminate.
  - unfold Dict.wf; simpl; repeat constructor; simpl; lia.
  - unfold Dict.wf; simpl; repeat constructor; simpl; lia.
  - intros k m. cbn [rounded_probability_mass_function Dict.get].
    decide_keys; intros [= <-]; lra.
  - intros k m. cbn [rounded_probability_mass_function Dict.get].
    decide_keys; intros [= <-]; lra.
  - apply convolution_exact_exact_FFT.
Defined.

(** ** Self composition *)

Lemma pow_unit_interval (x : R) (n : nat) : 0 <= x <= 1 -> 0 <= x ^ n <= 1.
Proof.
  intros Hx. split; [now apply pow_le|].
  rewrite <- (pow1 n). apply pow_incr. lra.
Qed.

(** X7. [self_compose(num_times)] raises [ValueError] on an empty
    histogram, whatever [num_times] is, and on [num_times <= 0]; for
    [num_times >= 1] and a non-empty histogram it returns a PLD with the
    same interval, only positive masses, and infinity mass
    [1 - (1 - infinity_mass) ^ num_times], which lies in [0,1] when
    [infinity_mass] does.  None of this depends on what the FFT round
    trip returns. *)
Theorem self_compose_result (fft : FFT) (self : PrivacyLossDistribution)
  (num_times : Z) :
  (rounded_probability_mass_function self = [] ->
   self_compose fft self num_times =
   Raise (ValueError "min() arg is an empty sequence")) /\
  (rounded_probability_mass_function self <> [] -> (num_times <= 0)%Z ->
   self_compose fft self num_times =
   Raise (ValueError "Invalid number of FFT data points specified.")) /\
  (rounded_probability_mass_function self <> [] -> (1 <= num_times)%Z ->
   exists pld,
     self_compose fft self num_times = Ok pld /\
     value_discretization_interval pld = value_discretization_interval self /\
     all_positive (rounded_probability_mass_function pld) /\
     infinity_mass pld =
       1 - (1 - infinity_mass self) ^ Z.to_nat num_times /\
     (0 <= infinity_mass self <= 1 -> 0 <= infinity_mass pld <= 1)).
Proof.
  unfold self_compose, self_convolve_dictionary.
  split; [intros ->; reflexivity|].
  split; intros Hne Hn;
    destruct (dictionary_to_list_spec _ Hne)
      as [min_val [input_list [Hl [Hnil _]]]];
    rewrite Hl; cbn [bind];
    assert (Hlen : (0 < List.length input_list)%nat)
      by (destruct input_list; [contradiction|simpl; lia]).
  - destruct (Z.ltb_spec (num_times * Z.of_nat (List.length input_list)) 1);
      [reflexivity|nia].
  - destruct (Z.ltb_spec (num_times * Z.of_nat (List.length input_list)) 1);
      [nia|].
    cbn [bind]. eexists. split; [reflexivity|].
    cbn [rounded_probability_mass_function infinity_mass
         value_discretization_interval].
    split; [reflexivity|]. split; [apply list_to_dictionary_positive|].
    split; [reflexivity|]. intros Hinf.
    pose proof (pow_unit_interval (1 - infinity_mass self)
                  (Z.to_nat num_times)) as Hpow.
    lra.
Qed.

Lemma self_compose_result_witness :
  exists pld,
    self_compose exact_FFT
      {| rounded_probability_mass_function := [(1%Z, 1 / 2); ((-1)%Z, 1 / 4)];
         value_discretization_interval := 1;
         infinity_mass := 1 / 4 |} 3 = Ok pld /\
    value_discretization_interval pld = 1 /\
    all_positive (rounded_probability_mass_function pld) /\
    infinity_mass pld = 1 - (1 - 1 / 4) ^ Z.to_nat 3 /\
    (0 <= 1 / 4 <= 1 -> 0 <= infinity_mass pld <= 1).
Proof.
  apply (proj2 (proj2 (self_compose_result exact_FFT
           {| rounded_probability_mass_function :=
                [(1%Z, 1 / 2); ((-1)%Z, 1 / 4)];
              value_discretization_interval := 1;
              infinity_mass := 1 / 4 |} 3))).
  - discriminate.
  - lia.
Defined.

Lemma fft_pad_nth (a : list R) (n i : nat) :
  (List.length a <= n)%nat -> nth i (fft_pad a n) 0 = nth i a 0.
Proof.
  intros Hn. unfold fft_pad. rewrite firstn_all2 by exact Hn.
  destruct (Nat.lt_ge_cases i (List.length a)) as [Hi|Hi].
  - now rewrite app_nth1.
  - rewrite app_nth2 by exact Hi. rewrite (nth_overflow a) by exact Hi.
    apply nth_repeat.
Qed.

(** With room for the whole result the circular convolution does not wrap
    around: it is the linear one. *)
Lemma circular_is_linear (a : list R) (m : nat) :
  a <> [] ->
  nth m (circular_convolve (2 * List.length a)
           (fft_pad a (2 * List.length a))
           (fft_pad a (2 * List.length a))) 0 =
  nth m (linear_convolution a a) 0.
Proof.
  intros Hne.
  assert (Hn : (0 < List.length a)%nat)
    by (destruct a; [contradiction|simpl; lia]).
  rewrite linear_convolution_nth by assumption. unfold circular_convolve.
  set (n := List.length a) in *.
  destruct (Nat.lt_ge_cases m (2 * n)) as [Hm|Hm].
  - rewrite seq_map_nth by exact Hm.
    replace (seq 0 (2 * n)) with (seq 0 (S m + (2 * n - S m)))
      by (f_equal; lia).
    rewrite seq_app, sum_map_app.
    rewrite (sum_map_zero _ (seq (0 + S m) (2 * n - S m))).
    + rewrite Rplus_0_r. f_equal. apply map_ext_in. intros i Hi.
      apply in_seq in Hi. rewrite !fft_pad_nth by (fold n; lia).
      f_equal. f_equal.
      replace (m + 2 * n - i)%nat with (m - i + 1 * (2 * n))%nat by lia.
      rewrite Nat.Div0.mod_add. apply Nat.mod_small. lia.
    + intros i Hi. apply in_seq in Hi. rewrite !fft_pad_nth by (fold n; lia).
      destruct (Nat.lt_ge_cases i n) as [Hi1|Hi1].
      * rewrite Nat.mod_small by lia.
        rewrite (@nth_overflow _ a (m + 2 * n - i)%nat) by (fold n; lia). lra.
      * rewrite (@nth_overflow _ a i) by (fold n; lia). lra.
  - rewrite nth_overflow by (now rewrite length_map, length_seq).
    symmetry. apply sum_map_zero. intros i Hi. apply in_seq in Hi.
    destruct (Nat.lt_ge_cases i n) as [Hi1|Hi1].
    + rewrite (@nth_overflow _ a (m - i)%nat) by (fold n; lia). lra.
    + rewrite (@nth_overflow _ a i) by (fold n; lia). lra.
Qed.



(** ** The divergence and its inverse *)

(** X9. The divergence [get_delta_for_epsilon(epsilon)] is never below the
    infinity mass; it equals the infinity mass as soon as [epsilon] is at
    least every bucket's privacy loss; and on a histogram without negative
    masses it never exceeds the total mass of the PLD. *)
Theorem get_delta_for_epsilon_bounds (self : PrivacyLossDistribution)
  (eps : R) :
  infinity_mass self <= get_delta_for_epsilon self eps /\
  ((forall k, In k (Dict.keys (rounded_probability_mass_function self)) ->
              bucket_value self k <= eps) ->
   get_delta_for_epsilon self eps = infinity_mass self) /\
  (Dict.wf (rounded_probability_mass_function self) ->
   all_nonnegative (rounded_probability_mass_function self) ->
   get_delta_for_epsilon self eps <= total_mass self).
Proof.
  rewrite get_delta_for_epsilon_sum. split; [|split].
  - pose proof (sum_map_nonneg (divergence_term self eps)
                  (Dict.keys (rounded_probability_mass_function self))
                  (fun k _ => term_nonneg self eps k)).
    lra.
  - intros Hall. rewrite sum_map_zero; [lra|].
    intros k Hk. apply term_zero. now apply Hall.
  - intros Hwf Hnn. unfold total_mass. rewrite <- (lookup_keys _ 0 Hwf).
    apply Rplus_le_compat_l. apply sum_map_le. intros k _.
    pose proof (get_default_all_nonnegative _ k Hnn) as Hm.
    unfold divergence_term. cbv zeta.
    destruct (Rlt_dec eps _); [|exact Hm].
    destruct (Rlt_dec 0 _); [|exact Hm].
    pose proof (exp_pos
      (eps - IZR k * value_discretization_interval self)).
    nra.
Qed.

Lemma get_delta_for_epsilon_bounds_witness :
  get_delta_for_epsilon
    {| rounded_probability_mass_function := [(1%Z, 1 / 2); ((-1)%Z, 1 / 4)];
       value_discretization_interval := 1;
       infinity_mass := 1 / 4 |} 0 <=
  total_mass
    {| rounded_probability_mass_function := [(1%Z, 1 / 2); ((-1)%Z, 1 / 4)];
       value_discretization_interval := 1;
       infinity_mass := 1 / 4 |}.
Proof.
  apply (proj2 (proj2 (get_delta_for_epsilon_bounds
           {| rounded_probability_mass_function :=
                [(1%Z, 1 / 2); ((-1)%Z, 1 / 4)];
              value_discretization_interval := 1;
              infinity_mass := 1 / 4 |} 0))).
  - unfold Dict.wf; simpl; repeat constructor; simpl; lia.
  - intros k m. cbn [rounded_probability_mass_function Dict.get].
    decide_keys; intros [= <-]; lra.
Defined.

(** The first turn of the loop raises when [math.exp] overflows at the
    first privacy loss and the [break] test has not fired. *)
Lemma epsilon_loop_overflow (self : PrivacyLossDistribution) (delta : R)
  (k : Z) (suf : list Z) (U L : R) :
  ~ delta < U -> exp_overflow < - bucket_value self k ->
  epsilon_loop self delta (k :: suf) U L = Raise OverflowError.
Proof.
  intros HU Hk. cbn [epsilon_loop]. unfold epsilon_reached.
  destruct (Rlt_dec delta U); [contradiction|]. cbn [bind].
  fold (bucket_value self k). now rewrite math_exp_overflow.
Qed.

(** X10. On a well-formed histogram without negative masses and with a
    positive interval, [get_epsilon_for_delta(delta)] is +infinity when
    [delta < infinity_mass].  Otherwise, when [mass_lower] is computed
    within the range of normal floats ([math.exp(-val)] does not overflow,
    and it and its product with the mass of the bucket, unless that mass
    is zero, are at least the least positive normal float), it is a finite
    non-negative epsilon at which the divergence is at most [delta]; and
    when [math.exp(-val)] overflows at every bucket of a non-empty
    histogram, it raises [OverflowError]. *)
Theorem get_epsilon_for_delta_sound (self : PrivacyLossDistribution)
  (delta : R) :
  0 < value_discretization_interval self ->
  Dict.wf (rounded_probability_mass_function self) ->
  all_nonnegative (rounded_probability_mass_function self) ->
  (delta < infinity_mass self ->
   get_epsilon_for_delta self delta = Ok PInf) /\
  (infinity_mass self <= delta ->
   losses_in_float_range self ->
   exists eps,
     get_epsilon_for_delta self delta = Ok (Fin eps) /\
     0 <= eps /\
     get_delta_for_epsilon self eps <= delta) /\
  (infinity_mass self <= delta ->
   rounded_probability_mass_function self <> [] ->
   (forall k, In k (Dict.keys (rounded_probability_mass_function self)) ->
              exp_overflow < - bucket_value self k) ->
   get_epsilon_for_delta self delta = Raise OverflowError).
Proof.
  intros Hvdi Hwf Hnn. unfold get_epsilon_for_delta.
  destruct (sorted_reverse_spec _ Hwf) as [Hperm _].
  assert (Hkeys : forall k,
    In k (sorted_reverse
            (Dict.keys (rounded_probability_mass_function self))) ->
    In k (Dict.keys (rounded_probability_mass_function self)))
    by (intros k Hk; eapply Permutation_in;
        [apply Permutation_sym|]; eassumption).
  split; [|split].
  - intros Hinf.
    destruct (Rlt_dec delta (infinity_mass self)); [reflexivity|contradiction].
  - intros Hinf Hrange.
    destruct (Rlt_dec delta (infinity_mass self)); [exfalso; lra|].
    destruct (epsilon_loop_correct self delta Hvdi _
                (fun k Hk => proj1 (Hrange k (Hkeys k Hk))) [] _ _
                (loop_invariant_start self delta Hwf
                   (fun k _ => get_default_all_nonnegative _ k Hnn) Hinf))
      as [eps (Hrun & H0 & Hle & _)].
    exists eps. now repeat split.
  - intros Hinf Hne Hover.
    destruct (Rlt_dec delta (infinity_mass self)) as [|Hge]; [exfalso; lra|].
    destruct (sorted_reverse
                (Dict.keys (rounded_probability_mass_function self)))
      as [|k suf] eqn:Hsorted.
    + apply Permutation_sym, Permutation_nil in Hperm.
      destruct (rounded_probability_mass_function self);
        [contradiction|discriminate].
    + rewrite epsilon_loop_overflow; [reflexivity|exact Hge|].
      apply Hover, Hkeys. now left.
Qed.

Lemma get_epsilon_for_delta_sound_witness :
  exists eps,
    get_epsilon_for_delta
      {| rounded_probability_mass_function := [(1%Z, 0); ((-1)%Z, 1 / 2)];
         value_discretization_interval := 1;
         infinity_mass := 1 / 2 |} (1 / 2) = Ok (Fin eps) /\
    0 <= eps /\
    get_delta_for_epsilon
      {| rounded_probability_mass_function := [(1%Z, 0); ((-1)%Z, 1 / 2)];
         value_discretization_interval := 1;
         infinity_mass := 1 / 2 |} eps <= 1 / 2.
Proof.
  refine (proj1 (proj2 (get_epsilon_for_delta_sound
                   {| rounded_probability_mass_function :=
                        [(1%Z, 0); ((-1)%Z, 1 / 2)];
                      value_discretization_interval := 1;
                      infinity_mass := 1 / 2 |} (1 / 2) _ _ _)) _ _).
  - simpl. lra.
  - unfold Dict.wf; simpl; repeat constructor; simpl; lia.
  - intros k m. cbn [rounded_probability_mass_function Dict.get].
    decide_keys; intros [= <-]; lra.
  - simpl. lra.
  - intros k Hk. pose proof (exp_neg_lower (bucket_value
      {| rounded_probability_mass_function := [(1%Z, 0); ((-1)%Z, 1 / 2)];
         value_discretization_interval := 1;
         infinity_mass := 1 / 2 |} k)) as Hexp.
    unfold bucket_mass, Dict.get_default.
    cbn [rounded_probability_mass_function Dict.get Dict.keys map fst]
      in Hk |- *.
    destruct Hk as [<-|[<-|[]]]; decide_keys;
      unfold bucket_value, exp_underflow, exp_overflow, float_min_normal in *;
      cbn [value_discretization_interval] in *;
      (split; [lra|]); (split; [lra|]); [left; reflexivity|right; lra].
Defined.

(** X11. On a well-formed histogram of positive masses with a positive
    interval, on which [mass_lower] is computed within the range of normal
    floats ([math.exp(-val)] does not overflow, and it and its product
    with the mass of the bucket are at least the least positive normal
    float), [get_epsilon_for_delta] is non-increasing in [delta]: a larger
    target delta never needs a larger epsilon. *)
Theorem get_epsilon_for_delta_antitone (self : PrivacyLossDistribution)
  (delta1 delta2 : R) :
  0 < value_discretization_interval self ->
  Dict.wf (rounded_probability_mass_function self) ->
  all_positive (rounded_probability_mass_function self) ->
  losses_in_float_range self ->
  infinity_mass self <= delta1 -> delta1 <= delta2 ->
  exists eps1 eps2,
    get_epsilon_for_delta self delta1 = Ok (Fin eps1) /\
    get_epsilon_for_delta self delta2 = Ok (Fin eps2) /\
    eps2 <= eps1.
Proof.
  intros Hvdi Hwf Hpos Hrange Hinf Hle.
  destruct (epsilon_for_delta_smallest self delta1 Hvdi Hwf Hpos Hrange Hinf)
    as [eps1 [Hrun1 (H01 & Hd1 & _)]].
  destruct (epsilon_for_delta_smallest self delta2 Hvdi Hwf Hpos Hrange)
    as [eps2 [Hrun2 (_ & _ & Hmin2)]]; [lra|].
  exists eps1, eps2. split; [exact Hrun1|]. split; [exact Hrun2|].
  apply Hmin2; lra.
Qed.

Lemma get_epsilon_for_delta_antitone_witness :
  exists eps1 eps2,
    get_epsilon_for_delta
      {| rounded_probability_mass_function := [(1%Z, 1 / 2); ((-1)%Z, 1 / 2)];
         value_discretization_interval := 1;
         infinity_mass := 0 |} 0 = Ok (Fin eps1) /\
    get_epsilon_for_delta
      {| rounded_probability_mass_function := [(1%Z, 1 / 2); ((-1)%Z, 1 / 2)];
         value_discretization_interval := 1;
         infinity_mass := 0 |} (1 / 4) = Ok (Fin eps2) /\
    eps2 <= eps1.
Proof.
  apply (get_epsilon_for_delta_antitone
           {| rounded_probability_mass_function :=
                [(1%Z, 1 / 2); ((-1)%Z, 1 / 2)];
              value_discretization_interval := 1;
              infinity_mass := 0 |} 0 (1 / 4)).
  - simpl. lra.
  - unfold Dict.wf; simpl; repeat constructor; simpl; lia.
  - intros k m. cbn [rounded_probability_mass_function Dict.get].
    decide_keys; intros [= <-]; lra.
  - intros k Hk. pose proof (exp_neg_lower (bucket_value
      {| rounded_probability_mass_function := [(1%Z, 1 / 2); ((-1)%Z, 1 / 2)];
         value_discretization_interval := 1;
         infinity_mass := 0 |} k)) as Hexp.
    unfold bucket_mass, Dict.get_default.
    cbn [rounded_probability_mass_function Dict.get Dict.keys map fst]
      in Hk |- *.
    destruct Hk as [<-|[<-|[]]]; decide_keys;
      unfold bucket_value, exp_underflow, exp_overflow, float_min_normal in *;
      cbn [value_discretization_interval] in *;
      (split; [lra|]); (split; [|right]); lra.
  - simpl. lra.
  - lra.
Defined.

(** ** Histograms built from a guarantee *)

Lemma keys_set_in {K V : Type} `{EqDec K} (d : Dict.t K V) (k k' : K)
  (v : V) :
  In k' (Dict.keys (Dict.set d k v)) -> k' = k \/ In k' (Dict.keys d).
Proof.
  intros Hin. destruct (eq_dec k k') as [->|Hne]; [now left|right].
  apply get_in_keys. apply get_in_keys in Hin.
  now rewrite get_set_other in Hin.
Qed.

Lemma set_nonnegative {K : Type} `{EqDec K} (d : Dict.t K R) (k : K)
  (v : R) :
  all_nonnegative d -> 0 <= v -> all_nonnegative (Dict.set d k v).
Proof.
  intros Hd Hv k' m. destruct (eq_dec k k') as [->|Hne].
  - rewrite get_set_same. now intros [= <-].
  - rewrite get_set_other by assumption. apply Hd.
Qed.

Lemma math_ceil_positive (x : R) : 0 < x -> (1 <= math_ceil x)%Z.
Proof.
  intros Hx. pose proof (math_ceil_spec x) as [_ Hc].
  assert (0 < IZR (math_ceil x)) by lra.
  apply lt_IZR in H. lia.
Qed.

Lemma math_ceil_nonpositive (x : R) : x <= 0 -> (math_ceil x <= 0)%Z.
Proof.
  intros Hx. pose proof (math_ceil_spec x) as [Hc _].
  assert (IZR (math_ceil x) < 1) by lra.
  apply lt_IZR in H. lia.
Qed.

Lemma guarantee_masses (eps d : R) :
  (1 - d) / (1 + exp (- eps)) + (1 - d) / (1 + exp eps) = 1 - d.
Proof.
  rewrite exp_Ropp. pose proof (exp_pos eps) as He.
  set (e := exp eps) in *. field. split; lra.
Qed.

(** X12. With a non-zero interval, [from_privacy_parameters] raises
    [OverflowError] when [math.exp] overflows at [epsilon] or at
    [-epsilon].  For every other non-zero epsilon it returns a PLD with two
    distinct buckets whose masses, together with the infinity mass
    [delta], total exactly 1; for [delta] in [0,1] no mass is negative. *)
Theorem from_privacy_parameters_total_mass (eps d vdi : R) :
  vdi <> 0 ->
  (exp_overflow < eps \/ eps < - exp_overflow ->
   from_privacy_parameters {| epsilon := eps; delta := d |} vdi =
   Raise OverflowError) /\
  (eps <> 0 -> - exp_overflow <= eps <= exp_overflow ->
   exists pld,
     from_privacy_parameters {| epsilon := eps; delta := d |} vdi = Ok pld /\
     total_mass pld = 1 /\
     Dict.wf (rounded_probability_mass_function pld) /\
     List.length (rounded_probability_mass_function pld) = 2%nat /\
     (0 <= d <= 1 ->
      all_nonnegative (rounded_probability_mass_function pld))).
Proof.
  intros Hvdi. pose proof exp_range_bounds as Hb. split.
  { intros Hover. unfold from_privacy_parameters.
    cbn [epsilon delta]. rewrite py_div_ok by exact Hvdi. cbn [bind].
    destruct Hover as [Hover|Hover].
    - rewrite math_exp_value by lra. cbn [bind].
      rewrite py_div_ok by apply one_plus_float_exp_neq_0. cbn [bind].
      rewrite py_div_ok by exact Hvdi. cbn [bind].
      now rewrite math_exp_overflow.
    - now rewrite math_exp_overflow by lra. }
  intros Heps Hrange. rewrite from_privacy_parameters_value by assumption.
  eexists. split; [reflexivity|].
  cbn [rounded_probability_mass_function]. unfold total_mass.
  cbn [rounded_probability_mass_function infinity_mass].
  assert (Hkeys : math_ceil (eps / vdi) <> math_ceil (- eps / vdi)).
  { assert (Hq : eps / vdi <> 0).
    { intros Hq. apply Heps.
      replace eps with (eps / vdi * vdi) by (field; assumption).
      rewrite Hq. lra. }
    replace (- eps / vdi) with (- (eps / vdi)) by (field; assumption).
    destruct (Rlt_dec 0 (eps / vdi)) as [Hpos|Hneg].
    - pose proof (math_ceil_positive _ Hpos).
      assert (math_ceil (- (eps / vdi)) <= 0)%Z
        by (apply math_ceil_nonpositive; lra).
      lia.
    - assert (math_ceil (eps / vdi) <= 0)%Z
        by (apply math_ceil_nonpositive; lra).
      assert (1 <= math_ceil (- (eps / vdi)))%Z
        by (apply math_ceil_positive; lra).
      lia. }
  split; [|split; [|split]].
  - rewrite sum_values_set.
    rewrite get_default_none
      by (cbn [Dict.set Dict.get]; now decide_keys).
    cbn [Dict.set Dict.values map snd sum fold_right].
    pose proof (guarantee_masses eps d). lra.
  - apply set_wf, set_wf. constructor.
  - cbn [Dict.set]. now decide_keys.
  - intros Hd. pose proof (exp_pos eps). pose proof (exp_pos (- eps)).
    apply set_nonnegative; [apply set_nonnegative|].
    + intros k m [=].
    + apply Rmult_le_pos; [lra|]. apply Rlt_le, Rinv_0_lt_compat. lra.
    + apply Rmult_le_pos; [lra|]. apply Rlt_le, Rinv_0_lt_compat. lra.
Qed.

Lemma from_privacy_parameters_total_mass_witness :
  exists pld,
    from_privacy_parameters {| epsilon := 1; delta := 1 / 4 |} (1 / 2)
      = Ok pld /\
    total_mass pld = 1 /\
    Dict.wf (rounded_probability_mass_function pld) /\
    List.length (rounded_probability_mass_function pld) = 2%nat /\
    (0 <= 1 / 4 <= 1 ->
     all_nonnegative (rounded_probability_mass_function pld)).
Proof.
  apply (proj2 (from_privacy_parameters_total_mass 1 (1 / 4) (1 / 2)
                  ltac:(lra)));
    unfold exp_overflow; lra.
Defined.

(** X13. The PLD of the guarantee (epsilon, delta), with epsilon >= 0
    small enough for [math.exp(epsilon)] not to overflow and a positive
    interval, gives back delta: at every epsilon' that is at least epsilon
    rounded up to the grid, [get_delta_for_epsilon] is exactly delta. *)
Theorem from_privacy_parameters_delta (eps d vdi eps' : R) :
  0 <= eps <= exp_overflow -> 0 < vdi ->
  IZR (math_ceil (eps / vdi)) * vdi <= eps' ->
  exists pld,
    from_privacy_parameters {| epsilon := eps; delta := d |} vdi = Ok pld /\
    get_delta_for_epsilon pld eps' = d.
Proof.
  intros Heps Hvdi Hle. pose proof exp_range_bounds as Hb.
  rewrite from_privacy_parameters_value by lra.
  eexists. split; [reflexivity|]. rewrite get_delta_for_epsilon_sum.
  cbn [rounded_probability_mass_function infinity_mass].
  rewrite sum_map_zero; [lra|]. intros k Hk. apply term_zero.
  unfold bucket_value. cbn [value_discretization_interval].
  assert (Hq : 0 <= eps / vdi) by (apply Rmult_le_pos;
    [lra|apply Rlt_le, Rinv_0_lt_compat; lra]).
  assert (Hk1 : 0 <= IZR (math_ceil (eps / vdi)))
    by (pose proof (math_ceil_spec (eps / vdi)); lra).
  apply keys_set_in in Hk as [->|Hk]; [|apply keys_set_in in Hk as [->|[]]].
  - assert (Hk2 : (math_ceil (- eps / vdi) <= 0)%Z).
    { apply math_ceil_nonpositive.
      replace (- eps / vdi) with (- (eps / vdi)) by (field; lra). lra. }
    apply IZR_le in Hk2. nra.
  - exact Hle.
Qed.

Lemma from_privacy_parameters_delta_witness :
  exists pld,
    from_privacy_parameters {| epsilon := 1; delta := 1 / 4 |} 1 = Ok pld /\
    get_delta_for_epsilon pld 1 = 1 / 4.
Proof.
  apply (from_privacy_parameters_delta 1 (1 / 4) 1 1);
    try (unfold exp_overflow; lra).
  rewrite (math_ceil_eq (1 / 1) 1) by lra. lra.
Defined.

Lemma add_to_nonnegative (d : Dict.t Z R) (k : Z) (v : R) :
  all_nonnegative d -> 0 <= v -> all_nonnegative (add_to d k v).
Proof.
  intros Hd Hv. unfold add_to. apply set_nonnegative; [exact Hd|].
  pose proof (get_default_all_nonnegative d k Hd). lra.
Qed.

Lemma round_fn_nonneg (pess : bool) (x : R) :
  0 <= x -> (0 <= round_fn pess x)%Z.
Proof.
  intros Hx. destruct pess; cbn [round_fn].
  - pose proof (math_ceil_spec x) as [_ Hc].
    apply le_IZR. lra.
  - pose proof (math_floor_spec x) as [_ Hf].
    assert (H : -1 < IZR (math_floor x)) by lra.
    apply (lt_IZR (-1)) in H. lia.
Qed.

Lemma round_fn_nonpos (pess : bool) (x : R) :
  x <= 0 -> (round_fn pess x <= 0)%Z.
Proof.
  intros Hx. destruct pess; cbn [round_fn].
  - now apply math_ceil_nonpositive.
  - pose proof (math_floor_spec x) as [Hf _].
    apply le_IZR. lra.
Qed.

(** X14. On valid arguments and a non-zero interval the PLD of randomized
    response has total mass exactly 1: the three masses it stores, none of
    them negative, add up to one under distinct keys. *)
Theorem from_randomized_response_total_mass (p : R) (k : Z) (pess : bool)
  (vdi : R) :
  0 < p < 1 -> (1 < k)%Z -> vdi <> 0 ->
  exists pld,
    from_randomized_response p k pess vdi = Ok pld /\
    total_mass pld = 1 /\
    Dict.wf (rounded_probability_mass_function pld) /\
    all_nonnegative (rounded_probability_mass_function pld).
Proof.
  intros Hp Hk Hvdi.
  rewrite from_randomized_response_valid by assumption.
  rewrite !py_div_ok by assumption. cbn [bind].
  eexists. split; [reflexivity|].
  pose proof (IZR_buckets_pos k Hk) as HK.
  pose proof (not_input_pos p k Hp Hk) as Hn.
  pose proof (equal_input_pos p k Hp Hk) as He.
  unfold total_mass.
  cbn [rounded_probability_mass_function infinity_mass].
  split; [|split].
  - rewrite !sum_values_add_to. cbn [Dict.values map sum fold_right].
    unfold probability_output_equal_input, probability_output_not_input.
    rewrite minus_IZR. field. lra.
  - repeat apply add_to_wf. constructor.
  - repeat apply add_to_nonnegative; try lra.
    + intros k' m [=].
    + apply Rmult_le_pos; [lra|]. apply IZR_le. lia.
Qed.

Lemma from_randomized_response_total_mass_witness :
  exists pld,
    from_randomized_response (1 / 2) 3 true 1 = Ok pld /\
    total_mass pld = 1 /\
    Dict.wf (rounded_probability_mass_function pld) /\
    all_nonnegative (rounded_probability_mass_function pld).
Proof.
  apply (from_randomized_response_total_mass (1 / 2) 3 true 1); lra || lia.
Defined.

(** X15. Randomized response is a pure guarantee: with valid arguments and
    a positive interval, the divergence of its PLD is 0 at every epsilon
    that is at least the privacy loss of its top bucket, the rounded
    [log(probability_output_equal_input / probability_output_not_input)]. *)
Theorem from_randomized_response_delta (p : R) (k : Z) (pess : bool)
  (vdi eps : R) :
  0 < p < 1 -> (1 < k)%Z -> 0 < vdi ->
  IZR (round_fn pess
         (ln (probability_output_equal_input p k /
              probability_output_not_input p k) / vdi)) * vdi <= eps ->
  exists pld,
    from_randomized_response p k pess vdi = Ok pld /\
    get_delta_for_epsilon pld eps = 0.
Proof.
  intros Hp Hk Hvdi Heps.
  rewrite from_randomized_response_valid by assumption.
  rewrite !py_div_ok by lra. cbn [bind].
  eexists. split; [reflexivity|].
  pose proof (IZR_buckets_pos k Hk) as HK.
  pose proof (not_input_pos p k Hp Hk) as Hn.
  pose proof (equal_input_pos p k Hp Hk) as He.
  assert (Hlt : probability_output_not_input p k <
                probability_output_equal_input p k).
  { unfold probability_output_equal_input, probability_output_not_input.
    fold (probability_output_not_input p k). lra. }
  set (eq_in := probability_output_equal_input p k) in *.
  set (not_in := probability_output_not_input p k) in *.
  assert (Hl1 : 0 < ln (eq_in / not_in)).
  { rewrite <- ln_1. apply ln_increasing; [lra|].
    apply (Rmult_lt_reg_r not_in); [exact Hn|].
    unfold Rdiv. rewrite Rmult_assoc, Rinv_l by lra. lra. }
  assert (Hl2 : ln (not_in / eq_in) < 0).
  { rewrite <- ln_1. apply ln_increasing.
    - apply Rdiv_lt_0_compat; assumption.
    - apply (Rmult_lt_reg_r eq_in); [exact He|].
      unfold Rdiv. rewrite Rmult_assoc, Rinv_l by lra. lra. }
  assert (Hk1 : (0 <= round_fn pess (ln (eq_in / not_in) / vdi))%Z).
  { apply round_fn_nonneg. apply Rlt_le, Rdiv_lt_0_compat; assumption. }
  assert (Hk2 : (round_fn pess (ln (not_in / eq_in) / vdi) <= 0)%Z).
  { apply round_fn_nonpos. unfold Rdiv.
    pose proof (Rinv_0_lt_compat vdi Hvdi). nra. }
  apply IZR_le in Hk1, Hk2.
  rewrite get_delta_for_epsilon_sum.
  cbn [rounded_probability_mass_function infinity_mass].
  rewrite sum_map_zero; [lra|]. intros key Hkey. apply term_zero.
  unfold bucket_value. cbn [value_discretization_interval].
  unfold add_to in Hkey.
  apply keys_set_in in Hkey as [->|Hkey];
    [nra|apply keys_set_in in Hkey as [->|Hkey]];
    [nra|apply keys_set_in in Hkey as [->|[]]].
  exact Heps.
Qed.

Lemma from_randomized_response_delta_witness :
  exists pld,
    from_randomized_response (1 / 2) 2 true 1 = Ok pld /\
    get_delta_for_epsilon pld
      (IZR (round_fn true
              (ln (probability_output_equal_input (1 / 2) 2 /
                   probability_output_not_input (1 / 2) 2) / 1)) * 1) = 0.
Proof.
  apply (from_randomized_response_delta (1 / 2) 2 true 1); lra || lia.
Defined.

(** ** Histograms built from two mass functions *)

Section TwoMassFunctionsKeys.
Context {O : Type} `{EqDec O}.
Variables (lower upper : Dict.t O logmass).
Variables (pess : bool) (vdi : R).

(** Without a truncation bound the second loop leaves the infinity mass
    as the first loop computed it. *)
Lemma privacy_loss_steps_no_truncation (outcomes : list O)
  (st st' : Dict.t R R * R) :
  foldM (privacy_loss_step lower upper pess NInf) outcomes st = Ok st' ->
  snd st' = snd st.
Proof.
  apply (foldM_invariant (privacy_loss_step lower upper pess NInf)
           (fun s => snd s = snd st)); [|reflexivity].
  intros [pmf im] o s' _ Hs. cbn [snd] in Hs. subst im.
  unfold privacy_loss_step.
  destruct (Dict.get_default lower o LogZero); [|now intros [= <-]].
  destruct (Dict.get_default upper o LogZero);
    cbn [logmass_to_xreal xgt math_exp_logmass bind].
  - intros Hstep. apply bind_inv in Hstep as [m [_ Hstep]].
    now injection Hstep as <-.
  - destruct pess; intros [= <-]; cbn [snd]; lra.
Qed.

Lemma contribution_no_truncation (o : O) :
  contribution lower upper pess NInf o =
  if in_lower lower o then mass_upper upper o else 0.
Proof.
  unfold contribution, mass_upper. destruct (in_lower lower o); [|reflexivity].
  destruct (Dict.get_default upper o LogZero);
    cbn [logmass_to_xreal xgt logmass_exp]; [reflexivity|].
  now destruct pess.
Qed.

(** Every privacy loss value of the second loop is the difference of the
    two finite log masses of some outcome. *)
Lemma privacy_loss_steps_keys (bound : xreal) (P : R -> Prop)
  (outcomes : list O) (st st' : Dict.t R R * R) :
  (forall v, In v (Dict.keys (fst st)) -> P v) ->
  (forall o l u, In o outcomes ->
     Dict.get_default lower o LogZero = LogMass l ->
     Dict.get_default upper o LogZero = LogMass u -> P (u - l)) ->
  foldM (privacy_loss_step lower upper pess bound) outcomes st = Ok st' ->
  forall v, In v (Dict.keys (fst st')) -> P v.
Proof.
  intros Hst Hout.
  apply (foldM_invariant (privacy_loss_step lower upper pess bound)
           (fun s => forall v, In v (Dict.keys (fst s)) -> P v));
    [|exact Hst].
  intros [pmf im] o s' Ho Hs. cbn [fst] in Hs. unfold privacy_loss_step.
  destruct (Dict.get_default lower o LogZero) as [l|] eqn:Hl;
    [|now intros [= <-]].
  destruct (Dict.get_default upper o LogZero) as [u|] eqn:Hu.
  - destruct (xgt _ bound).
    + intros Hstep. apply bind_inv in Hstep as [m [_ Hstep]].
      injection Hstep as <-. cbn [fst]. intros v Hv.
      apply keys_set_in in Hv as [->|Hv]; [|now apply Hs].
      now apply (Hout o).
    + destruct pess; [|now intros [= <-]].
      intros Hstep. apply bind_inv in Hstep as [m [_ Hstep]].
      now injection Hstep as <-.
  - destruct (xgt _ bound); [now intros [= <-]|].
    destruct pess; [|now intros [= <-]].
    intros Hstep. apply bind_inv in Hstep as [m [_ Hstep]].
    now injection Hstep as <-.
Qed.

(** Every bucket of the discretization is the rounded quotient of a
    privacy loss value by the interval. *)
Lemma discretize_keys (pmf : Dict.t R R) (rounded : Dict.t Z R) :
  discretize pess vdi pmf = Ok rounded ->
  forall k, In k (Dict.keys rounded) ->
            exists v, In v (Dict.keys pmf) /\ k = round_fn pess (v / vdi).
Proof.
  unfold discretize.
  assert (Hgen : forall vals acc,
    foldM
      (fun rounded_probability_mass_function val =>
         q <- py_div val vdi ;;
         Ok (add_to rounded_probability_mass_function (round_fn pess q)
                    (Dict.get_default pmf val 0)))
      vals acc = Ok rounded ->
    forall k, In k (Dict.keys rounded) ->
              In k (Dict.keys acc) \/
              exists v, In v vals /\ k = round_fn pess (v / vdi)).
  { induction vals as [|val vals IH]; intros acc Hfold k Hk; simpl in Hfold.
    - injection Hfold as <-. now left.
    - apply bind_inv in Hfold as [acc' [Hstep Hfold]].
      apply bind_inv in Hstep as [q [Hq Hstep]]. injection Hstep as <-.
      unfold py_div in Hq. destruct (Req_dec_T vdi 0); [discriminate|].
      injection Hq as <-.
      destruct (IH _ Hfold k Hk) as [Hacc|[v [Hv ->]]].
      + unfold add_to in Hacc. apply keys_set_in in Hacc as [->|Hacc].
        * right. exists val. split; [now left|reflexivity].
        * now left.
      + right. exists v. split; [now right|reflexivity]. }
  intros Hfold k Hk. destruct (Hgen _ _ Hfold k Hk) as [[]|Hex]. exact Hex.
Qed.
End TwoMassFunctionsKeys.

(** X16. With the default truncation bound (minus infinity), a non-zero
    interval and an upper distribution none of whose log masses makes
    [math.exp] overflow, [from_two_probability_mass_functions] loses no
    mass in either estimate: the infinity mass is exactly the upper mass
    of the outcomes outside the support of the lower distribution, and
    infinity mass plus histogram is the whole mass of the upper
    distribution, each mass being what [math.exp] returns for its log
    mass. *)
Theorem from_two_probability_mass_functions_no_truncation
  {O : Type} `{EqDec O} (lower upper : Dict.t O logmass)
  (pess : bool) (vdi : R) :
  Dict.wf lower -> Dict.wf upper -> vdi <> 0 ->
  no_exp_overflow upper ->
  exists pld,
    from_two_probability_mass_functions lower upper pess vdi NInf = Ok pld /\
    infinity_mass pld =
      sum (map (fun o => if in_lower lower o then 0 else mass_upper upper o)
               (Dict.keys upper)) /\
    total_mass pld = sum (map logmass_exp (Dict.values upper)).
Proof.
  intros Hl Hu Hvdi Hover.
  destruct (from_two_probability_mass_functions_total
              lower upper pess vdi NInf Hover Hvdi) as [pld [Hok Htotal]].
  exists pld. split; [exact Hok|]. split.
  - apply from_two_probability_mass_functions_inv in Hok
      as (im0 & pmf & im & rounded & Him0 & Hsteps & _ & ->).
    apply privacy_loss_steps_no_truncation in Hsteps. cbn [snd] in Hsteps.
    cbn [infinity_mass]. rewrite Hsteps.
    now apply upper_only_mass_sum.
  - rewrite Htotal.
    rewrite <- (upper_mass_split lower upper Hl Hu).
    f_equal. f_equal. apply map_ext. intros o.
    apply contribution_no_truncation.
Qed.

Lemma from_two_probability_mass_functions_no_truncation_witness :
  exists pld,
    from_two_probability_mass_functions
      [(0%Z, LogMass (ln (1 / 2))); (1%Z, LogMass (ln (1 / 2)))]
      [(0%Z, LogMass (ln (1 / 4))); (2%Z, LogMass (ln (3 / 4)))]
      false 1 NInf = Ok pld /\
    infinity_mass pld =
      sum (map (fun o =>
                  if in_lower
                       [(0%Z, LogMass (ln (1 / 2)));
                        (1%Z, LogMass (ln (1 / 2)))] o
                  then 0
                  else mass_upper
                         [(0%Z, LogMass (ln (1 / 4)));
                          (2%Z, LogMass (ln (3 / 4)))] o)
               (Dict.keys [(0%Z, LogMass (ln (1 / 4)));
                           (2%Z, LogMass (ln (3 / 4)))])) /\
    total_mass pld =
      sum (map logmass_exp
               (Dict.values [(0%Z, LogMass (ln (1 / 4)));
                             (2%Z, LogMass (ln (3 / 4)))])).
Proof.
  apply from_two_probability_mass_functions_no_truncation.
  - unfold Dict.wf; simpl; repeat constructor; simpl; lia.
  - unfold Dict.wf; simpl; repeat constructor; simpl; lia.
  - lra.
  - apply complete_no_exp_overflow.
    cbn [Dict.values map snd logmass_exp sum fold_right].
    rewrite !float_exp_ln by lra. lra.
Defined.

(** X17. A mechanism whose two output distributions are the same one is
    perfectly private: with the default truncation bound, a non-zero
    interval and no log mass that makes [math.exp] overflow,
    [from_two_probability_mass_functions] of a distribution and itself has
    infinity mass 0, no bucket other than 0, and divergence 0 at every
    epsilon >= 0. *)
Theorem from_two_probability_mass_functions_identical
  {O : Type} `{EqDec O} (d : Dict.t O logmass) (pess : bool) (vdi eps : R) :
  vdi <> 0 -> 0 <= eps -> no_exp_overflow d ->
  exists pld,
    from_two_probability_mass_functions d d pess vdi NInf = Ok pld /\
    infinity_mass pld = 0 /\
    (forall k, In k (Dict.keys (rounded_probability_mass_function pld)) ->
               k = 0%Z) /\
    get_delta_for_epsilon pld eps = 0.
Proof.
  intros Hvdi Heps Hover.
  destruct (from_two_probability_mass_functions_total
              d d pess vdi NInf Hover Hvdi) as [pld [Hok _]].
  exists pld. split; [exact Hok|].
  apply from_two_probability_mass_functions_inv in Hok
    as (im0 & pmf & im & rounded & Him0 & Hsteps & Hd & ->).
  pose proof (privacy_loss_steps_no_truncation d d pess _ _ _ Hsteps)
    as Hsnd.
  pose proof (fun Hinit Hout =>
                privacy_loss_steps_keys d d pess NInf (fun v => v = 0)
                  _ _ _ Hinit Hout Hsteps) as Hkeys.
  cbn [fst snd] in Hsnd, Hkeys.
  cbn [infinity_mass rounded_probability_mass_function].
  assert (Him : im = 0).
  { rewrite Hsnd, (upper_only_mass_sum d d im0 Him0). apply sum_map_zero.
    intros o _. unfold in_lower, mass_upper.
    now destruct (Dict.get_default d o LogZero). }
  assert (Hzero : forall k, In k (Dict.keys rounded) -> k = 0%Z).
  { intros k Hk.
    destruct (discretize_keys pess vdi pmf rounded Hd k Hk) as [v [Hv ->]].
    rewrite (Hkeys (fun _ => False_ind _)) with (v := v); [| |exact Hv].
    - replace (0 / vdi) with (IZR 0) by (unfold Rdiv; lra).
      destruct pess; [apply math_ceil_IZR|apply math_floor_IZR].
    - intros o l u _ Hl Hu. rewrite Hl in Hu. injection Hu as <-. lra. }
  split; [exact Him|]. split; [exact Hzero|].
  rewrite get_delta_for_epsilon_sum.
  cbn [infinity_mass rounded_probability_mass_function].
  rewrite sum_map_zero; [lra|]. intros k Hk. apply term_zero.
  unfold bucket_value. rewrite (Hzero k Hk). lra.
Qed.

Lemma from_two_probability_mass_functions_identical_witness :
  exists pld,
    from_two_probability_mass_functions
      [(0%Z, LogMass (ln (1 / 4))); (1%Z, LogMass (ln (3 / 4)))]
      [(0%Z, LogMass (ln (1 / 4))); (1%Z, LogMass (ln (3 / 4)))]
      true 1 NInf = Ok pld /\
    infinity_mass pld = 0 /\
    (forall k, In k (Dict.keys (rounded_probability_mass_function pld)) ->
               k = 0%Z) /\
    get_delta_for_epsilon pld 0 = 0.
Proof.
  apply from_two_probability_mass_functions_identical; try lra.
  apply complete_no_exp_overflow.
  cbn [Dict.values map snd logmass_exp sum fold_right].
  rewrite !float_exp_ln by lra. lra.
Defined.

(** ** Additive noise: the discrete branch *)

Lemma sum_telescope (f : Z -> R) (n : nat) (a : Z) :
  sum (map (fun x => f x - f (x - 1)%Z)
           (map (fun i => (a + Z.of_nat i)%Z) (seq 0 n))) =
  f (a + Z.of_nat n - 1)%Z - f (a - 1)%Z.
Proof.
  induction n as [|n IH].
  - simpl. replace (a + 0 - 1)%Z with (a - 1)%Z by lia. lra.
  - rewrite seq_S, !map_app, sum_app, IH. cbn [map sum fold_right Nat.add].
    replace (a + Z.of_nat (S n) - 1)%Z with (a + Z.of_nat n)%Z by lia.
    lra.
Qed.

Lemma sum_telescope_range (f : Z -> R) (a b : Z) :
  (a <= b)%Z ->
  sum (map (fun x => f x - f (x - 1)%Z) (py_range a b)) =
  f (b - 1)%Z - f (a - 1)%Z.
Proof.
  intros Hab. unfold py_range. rewrite sum_telescope.
  replace (a + Z.of_nat (Z.to_nat (b - a)) - 1)%Z with (b - 1)%Z by lia.
  reflexivity.
Qed.

(** When the privacy loss is defined at every integer the loop of the
    discrete branch never raises, and adds one cdf increment per point. *)
Lemma discrete_steps_total (self : AdditiveNoiseMethods) (pess : bool)
  (loss : Z -> R) :
  (forall x, privacy_loss self (PyInt x) = Ok (loss x)) ->
  forall (xs : list Z) (rounded : Dict.t Z R),
  exists rounded',
    foldM (discrete_step self pess) xs rounded = Ok rounded' /\
    sum (Dict.values rounded') =
    sum (Dict.values rounded) +
    sum (map (fun x => noise_cdf self (Fin (IZR x)) -
                       noise_cdf self (Fin (IZR (x - 1)))) xs).
Proof.
  intros Hloss. induction xs as [|x xs IH]; intros rounded; simpl.
  - exists rounded. split; [reflexivity|lra].
  - unfold discrete_step at 1. rewrite Hloss. cbn [bind].
    destruct (IH (add_to rounded (round_fn pess (loss x))
                    (noise_cdf self (Fin (IZR x)) -
                     noise_cdf self (Fin (IZR (x - 1))))))
      as [rounded' [Hfold Hsum]].
    exists rounded'. split; [exact Hfold|].
    rewrite Hsum, sum_values_add_to. lra.
Qed.

Lemma set_two_keys {K V : Type} `{EqDec K} (k1 k2 : K) (v1 v2 : V) :
  k1 <> k2 ->
  Dict.set (Dict.set [] k1 v1) k2 v2 = [(k1, v1); (k2, v2)].
Proof.
  intros Hne. cbn [Dict.set].
  destruct (eq_dec k1 k2); [contradiction|reflexivity].
Qed.

Lemma get_default_two_keys {K : Type} `{EqDec K} (k1 k2 : K) (v1 v2 : R) :
  k1 <> k2 ->
  Dict.get_default [(k1, v1); (k2, v2)] k1 0 = v1 /\
  Dict.get_default [(k1, v1); (k2, v2)] k2 0 = v2.
Proof.
  intros Hne. unfold Dict.get_default. cbn [Dict.get].
  destruct (eq_dec k1 k1); [|contradiction].
  destruct (eq_dec k1 k2); [contradiction|].
  destruct (eq_dec k2 k2); [|contradiction]. now split.
Qed.

Lemma get_default_two_keys_other {K : Type} `{EqDec K} (k1 k2 k : K)
  (v1 v2 : R) :
  k1 <> k -> k2 <> k -> Dict.get_default [(k1, v1); (k2, v2)] k 0 = 0.
Proof.
  intros H1 H2. unfold Dict.get_default. cbn [Dict.get].
  destruct (eq_dec k1 k); [contradiction|].
  destruct (eq_dec k2 k); [contradiction|reflexivity].
Qed.

(** X18. The constructor of the discrete Laplace PLD rejects a
    non-positive parameter, a sensitivity that is not an [int], and an
    integer sensitivity below 1, each with its [ValueError]; with valid
    arguments and a zero interval it raises [ZeroDivisionError]. *)
Theorem DiscreteLaplace_init_errors (dlaplace_cdf : R -> xreal -> R)
  (parameter : R) (pess : bool) (vdi : R) :
  (parameter <= 0 -> forall sensitivity,
     DiscreteLaplacePrivacyLossDistribution dlaplace_cdf parameter
       sensitivity pess vdi =
     Some (Raise (ValueError "Parameter is not a positive real number"))) /\
  (0 < parameter -> forall r,
     DiscreteLaplacePrivacyLossDistribution dlaplace_cdf parameter
       (PyFloat r) pess vdi =
     Some (Raise (ValueError
       "Sensitivity of the discrete Laplace mechanism must be an integer"))) /\
  (0 < parameter -> forall s, (s <= 0)%Z ->
     DiscreteLaplacePrivacyLossDistribution dlaplace_cdf parameter
       (PyInt s) pess vdi =
     Some (Raise (ValueError "Sensitivity is not a positive real number"))) /\
  (0 < parameter -> forall s, (1 <= s)%Z -> vdi = 0 ->
     DiscreteLaplacePrivacyLossDistribution dlaplace_cdf parameter
       (PyInt s) pess vdi = Some (Raise ZeroDivisionError)).
Proof.
  unfold DiscreteLaplacePrivacyLossDistribution.
  split; [|split; [|split]].
  - intros Hp sensitivity.
    destruct (Rle_dec parameter 0); [reflexivity|contradiction].
  - intros Hp r. destruct (Rle_dec parameter 0); [exfalso; lra|reflexivity].
  - intros Hp s Hs. destruct (Rle_dec parameter 0); [exfalso; lra|].
    unfold AdditiveNoisePrivacyLossDistribution_init. cbn [to_R].
    apply IZR_le in Hs.
    destruct (Rle_dec (IZR s) 0); [reflexivity|contradiction].
  - intros Hp s Hs ->. destruct (Rle_dec parameter 0); [exfalso; lra|].
    unfold AdditiveNoisePrivacyLossDistribution_init. cbn [to_R].
    apply IZR_le in Hs.
    destruct (Rle_dec (IZR s) 0); [exfalso; lra|].
    cbn [privacy_loss_tail DiscreteLaplace_methods
         DiscreteLaplace_privacy_loss_tail tail_probability_mass_function].
    rewrite set_two_keys.
    + cbn [Dict.keys map fst foldM tail_step]. rewrite py_div_zero.
      reflexivity.
    + rewrite opp_IZR. intros [= Heq]. nra.
Qed.

Lemma DiscreteLaplace_init_errors_witness :
  DiscreteLaplacePrivacyLossDistribution (fun _ _ => 0) 1 (PyInt 2) true 0 =
  Some (Raise ZeroDivisionError).
Proof.
  apply (proj2 (proj2 (proj2
           (DiscreteLaplace_init_errors (fun _ _ => 0) 1 true 0))));
    [lra|lia|reflexivity].
Defined.

(** X19. With a positive parameter, an integer sensitivity s >= 1 and a
    non-zero interval, the constructor of the discrete Laplace PLD returns
    a PLD with infinity mass 0 whose histogram masses telescope to
    [cdf(-s) + cdf(s - 1)]: the two tails and every point in between are
    counted once, so the total is 1 for a cdf symmetric about zero. *)
Theorem DiscreteLaplace_init_total_mass (dlaplace_cdf : R -> xreal -> R)
  (parameter : R) (s : Z) (pess : bool) (vdi : R) :
  0 < parameter -> (1 <= s)%Z -> vdi <> 0 ->
  exists pld,
    DiscreteLaplacePrivacyLossDistribution dlaplace_cdf parameter (PyInt s)
      pess vdi = Some (Ok pld) /\
    infinity_mass pld = 0 /\
    value_discretization_interval pld = vdi /\
    total_mass pld =
      dlaplace_cdf parameter (Fin (IZR (- s))) +
      dlaplace_cdf parameter (Fin (IZR (s - 1))).
Proof.
  intros Hp Hs Hvdi. unfold DiscreteLaplacePrivacyLossDistribution.
  destruct (Rle_dec parameter 0); [exfalso; lra|].
  unfold AdditiveNoisePrivacyLossDistribution_init. cbn [to_R].
  pose proof (IZR_le _ _ Hs) as HsR.
  destruct (Rle_dec (IZR s) 0); [exfalso; lra|].
  cbn [privacy_loss_tail DiscreteLaplace_methods
       DiscreteLaplace_privacy_loss_tail tail_probability_mass_function
       lower_x_truncation upper_x_truncation ceil_num floor_num].
  assert (Hkeys : Fin (IZR s * parameter) <> Fin (IZR (- s) * parameter)).
  { rewrite opp_IZR. intros [= Heq]. nra. }
  rewrite set_two_keys by exact Hkeys.
  cbn [Dict.keys map fst foldM tail_step].
  rewrite !py_div_ok by assumption. cbn [bind].
  destruct (get_default_two_keys _ _
              (dlaplace_cdf parameter (Fin 0))
              (dlaplace_cdf parameter (Fin (IZR (- s)))) Hkeys)
    as [-> ->].
  rewrite get_default_two_keys_other by discriminate.
  destruct (discrete_steps_total
              (DiscreteLaplace_methods dlaplace_cdf parameter s) pess
              (fun x => IZR (Z.abs (x - s) - Z.abs x) * parameter)
              (fun x => eq_refl)
              (py_range 1 (s - 1 + 1))
              (add_to
                 (add_to [] (round_fn pess (IZR s * parameter / vdi))
                         (dlaplace_cdf parameter (Fin 0)))
                 (round_fn pess (IZR (- s) * parameter / vdi))
                 (dlaplace_cdf parameter (Fin (IZR (- s))))))
    as [rounded [Hfold Hsum]].
  rewrite Hfold. cbn [bind]. eexists. split; [reflexivity|].
  split; [reflexivity|]. split; [reflexivity|].
  unfold total_mass.
  cbn [infinity_mass rounded_probability_mass_function].
  rewrite Hsum, !sum_values_add_to. cbn [Dict.values map sum fold_right].
  cbn [noise_cdf DiscreteLaplace_methods].
  rewrite (sum_telescope_range
             (fun x => dlaplace_cdf parameter (Fin (IZR x)))) by lia.
  replace (s - 1 + 1 - 1)%Z with (s - 1)%Z by lia.
  change (1 - 1)%Z with 0%Z. lra.
Qed.

Lemma DiscreteLaplace_init_total_mass_witness :
  exists pld,
    DiscreteLaplacePrivacyLossDistribution (fun _ _ => 1 / 2) 1 (PyInt 3)
      true (1 / 2) = Some (Ok pld) /\
    infinity_mass pld = 0 /\
    value_discretization_interval pld = 1 / 2 /\
    total_mass pld = 1 / 2 + 1 / 2.
Proof.
  apply (DiscreteLaplace_init_total_mass (fun _ _ => 1 / 2) 1 3 true (1 / 2));
    lra || lia.
Defined.

(** ** Additive noise: the privacy loss and its inverse *)

(** X20. For the discrete Laplace mechanism with parameter a > 0 and
    integer sensitivity s >= 1, [inverse_privacy_loss(L)] is what its
    docstring says, at integers: -infinity when L > s * a (no point has a
    loss that large), +infinity when L <= -s * a (every point has), and
    otherwise an integer m such that the privacy loss at an integer x is
    at least L exactly when x <= m. *)
Theorem DiscreteLaplace_inverse_privacy_loss_spec (a : R) (s : Z) (L : R) :
  0 < a -> (1 <= s)%Z ->
  (IZR s * a < L ->
   DiscreteLaplace_inverse_privacy_loss a s L = Ok NInf /\
   forall x, exists l,
     DiscreteLaplace_privacy_loss a s (PyInt x) = Ok l /\ l < L) /\
  (L <= IZR (- s) * a ->
   DiscreteLaplace_inverse_privacy_loss a s L = Ok PInf /\
   forall x, exists l,
     DiscreteLaplace_privacy_loss a s (PyInt x) = Ok l /\ L <= l) /\
  (IZR (- s) * a < L <= IZR s * a ->
   exists m,
     DiscreteLaplace_inverse_privacy_loss a s L = Ok (Fin (IZR m)) /\
     forall x, exists l,
       DiscreteLaplace_privacy_loss a s (PyInt x) = Ok l /\
       (L <= l <-> (x <= m)%Z)).
Proof.
  intros Ha Hs. pose proof (IZR_le _ _ Hs) as HsR.
  assert (Hrange : forall x,
    - IZR s <= IZR (Z.abs (x - s) - Z.abs x) <= IZR s).
  { intros x. rewrite <- opp_IZR. split; apply IZR_le; lia. }
  unfold DiscreteLaplace_inverse_privacy_loss, DiscreteLaplace_privacy_loss.
  rewrite opp_IZR. split; [|split].
  - intros HL. destruct (Rlt_dec (IZR s * a) L); [|contradiction].
    split; [reflexivity|]. intros x. eexists. split; [reflexivity|].
    pose proof (Hrange x). nra.
  - intros HL. destruct (Rlt_dec (IZR s * a) L); [exfalso; nra|].
    destruct (Rle_dec L (- IZR s * a)); [|contradiction].
    split; [reflexivity|]. intros x. eexists. split; [reflexivity|].
    pose proof (Hrange x). nra.
  - intros [HL1 HL2]. destruct (Rlt_dec (IZR s * a) L); [exfalso; lra|].
    destruct (Rle_dec L (- IZR s * a)); [exfalso; lra|].
    rewrite py_div_ok by lra. cbn [bind].
    eexists. split; [reflexivity|]. intros x. eexists. split; [reflexivity|].
    assert (Hq : L / a * a = L) by (field; lra).
    set (q := L / a) in *.
    pose proof (math_floor_spec (0.5 * (IZR s - q))) as [Hf1 Hf2].
    set (m := math_floor (0.5 * (IZR s - q))) in *.
    assert (Hm : (x <= m)%Z <-> IZR x <= 0.5 * (IZR s - q)).
    { split; intros Hx.
      - apply IZR_le in Hx. lra.
      - assert (Hlt : IZR x < IZR (m + 1)) by (rewrite plus_IZR; lra).
        apply lt_IZR in Hlt. lia. }
    rewrite Hm.
    destruct (Z_le_gt_dec x 0) as [Hx0|Hx0];
      [|destruct (Z_lt_ge_dec x s) as [Hxs|Hxs]].
    + replace (Z.abs (x - s) - Z.abs x)%Z with s by lia.
      apply IZR_le in Hx0. split; intros _; nra.
    + replace (Z.abs (x - s) - Z.abs x)%Z with (s - 2 * x)%Z by lia.
      rewrite minus_IZR, mult_IZR. split; intros Hx; nra.
    + replace (Z.abs (x - s) - Z.abs x)%Z with (- s)%Z by lia.
      rewrite opp_IZR. apply Z.ge_le, IZR_le in Hxs. split; intros Hx; nra.
Qed.

Lemma DiscreteLaplace_inverse_privacy_loss_spec_witness :
  exists m,
    DiscreteLaplace_inverse_privacy_loss 1 3 1 = Ok (Fin (IZR m)) /\
    forall x, exists l,
      DiscreteLaplace_privacy_loss 1 3 (PyInt x) = Ok l /\
      (1 <= l <-> (x <= m)%Z).
Proof.
  apply (proj2 (proj2 (DiscreteLaplace_inverse_privacy_loss_spec 1 3 1
                         ltac:(lra) ltac:(lia)))).
  cbn [Z.opp]. lra.
Defined.

(** X21. The privacy loss of the Laplace mechanism, for a positive
    parameter b and sensitivity s, has the shape the constructor relies
    on: it is defined everywhere, lies in [-s/b, s/b], is non-increasing
    in x, and equals s/b for x <= 0 and -s/b for x >= s, the two values
    of the tail. *)
Theorem Laplace_privacy_loss_shape (b s : R) (x1 x2 : pynum) :
  0 < b -> 0 < s ->
  exists l1 l2,
    Laplace_privacy_loss b s x1 = Ok l1 /\
    Laplace_privacy_loss b s x2 = Ok l2 /\
    - s / b <= l1 <= s / b /\
    (to_R x1 <= to_R x2 -> l2 <= l1) /\
    (to_R x1 <= 0 -> l1 = s / b) /\
    (s <= to_R x1 -> l1 = - s / b).
Proof.
  intros Hb Hs. unfold Laplace_privacy_loss. rewrite !py_div_ok by lra.
  eexists. eexists. split; [reflexivity|]. split; [reflexivity|].
  pose proof (Rinv_0_lt_compat b Hb) as Hinv.
  set (y1 := to_R x1). set (y2 := to_R x2). unfold Rdiv.
  split; [|split; [|split]].
  - split; apply Rmult_le_compat_r; try lra;
      unfold Rabs; destruct (Rcase_abs _); destruct (Rcase_abs _); lra.
  - intros Hle. apply Rmult_le_compat_r; [lra|].
    unfold Rabs; repeat destruct (Rcase_abs _); lra.
  - intros Hle. f_equal.
    unfold Rabs; repeat destruct (Rcase_abs _); lra.
  - intros Hle. f_equal.
    unfold Rabs; repeat destruct (Rcase_abs _); lra.
Qed.

Lemma Laplace_privacy_loss_shape_witness :
  exists l1 l2,
    Laplace_privacy_loss 1 1 (PyFloat 0) = Ok l1 /\
    Laplace_privacy_loss 1 1 (PyInt 1) = Ok l2 /\
    - 1 / 1 <= l1 <= 1 / 1 /\
    (to_R (PyFloat 0) <= to_R (PyInt 1) -> l2 <= l1) /\
    (to_R (PyFloat 0) <= 0 -> l1 = 1 / 1) /\
    (1 <= to_R (PyFloat 0) -> l1 = - 1 / 1).
Proof.
  apply (Laplace_privacy_loss_shape 1 1 (PyFloat 0) (PyInt 1)); lra.
Defined.

(** X22. For the Gaussian mechanism with positive standard deviation and
    sensitivity, [inverse_privacy_loss] inverts [privacy_loss]: the
    privacy loss at [inverse_privacy_loss(L)] is L, and since the loss is
    decreasing, the loss at y is at least L exactly when
    y <= inverse_privacy_loss(L). *)
Theorem Gaussian_inverse_privacy_loss_spec (sd s L : R) :
  0 < sd -> 0 < s ->
  exists x,
    Gaussian_inverse_privacy_loss sd s L = Ok (Fin x) /\
    Gaussian_privacy_loss sd s (PyFloat x) = Ok L /\
    forall y, exists l,
      Gaussian_privacy_loss sd s y = Ok l /\ (L <= l <-> to_R y <= x).
Proof.
  intros Hsd Hs.
  assert (Hsq : 0 < sd ^ 2) by (apply pow_lt; exact Hsd).
  unfold Gaussian_inverse_privacy_loss, Gaussian_privacy_loss.
  rewrite !py_div_ok by lra. cbn [bind to_R].
  eexists. split; [reflexivity|]. split.
  - rewrite py_div_ok by lra. apply f_equal.
    set (v := sd ^ 2) in *.
    assert (H1 : L * v / s * s = L * v) by (field; lra).
    set (q := L * v / s) in *.
    replace (0.5 * s * (s - 2 * (0.5 * s - q))) with (L * v) by nra.
    unfold Rdiv. rewrite Rmult_assoc, Rinv_r; lra.
  - intros y. rewrite py_div_ok by lra. eexists. split; [reflexivity|].
    set (v := sd ^ 2) in *. set (t := to_R y).
    assert (H1 : L * v / s * s = L * v) by (field; lra).
    assert (H2 : 0.5 * s * (s - 2 * t) / v * v = 0.5 * s * (s - 2 * t))
      by (unfold Rdiv; rewrite Rmult_assoc, Rinv_l; lra).
    set (q := L * v / s) in *.
    set (l := 0.5 * s * (s - 2 * t) / v) in *.
    split; intros Hle; nra.
Qed.

Lemma Gaussian_inverse_privacy_loss_spec_witness :
  exists x,
    Gaussian_inverse_privacy_loss 1 1 0 = Ok (Fin x) /\
    Gaussian_privacy_loss 1 1 (PyFloat x) = Ok 0 /\
    forall y, exists l,
      Gaussian_privacy_loss 1 1 y = Ok l /\ (0 <= l <-> to_R y <= x).
Proof. apply (Gaussian_inverse_privacy_loss_spec 1 1 0); lra. Defined.

(** ** Additive noise: the continuous branch of the Laplace mechanism *)

Section LaplaceLoop.
Variable laplace_cdf : R -> xreal -> R.
Variables (b s : R) (pess : bool) (vdi : R).
Hypothesis parameter_pos : 0 < b.
Hypothesis interval_pos : 0 < vdi.

Lemma continuous_loop_done (fuel : nat) (rounded : Dict.t Z R) (r : Z) :
  continuous_loop (Laplace_methods laplace_cdf b s) pess vdi fuel
    (Fin s) rounded (Fin s) r = Some (Ok rounded).
Proof.
  destruct fuel; cbn [continuous_loop xlt xgt];
    destruct (Rlt_dec s s); (exfalso; lra) || reflexivity.
Qed.

Lemma continuous_loop_S (fuel : nat) (upper_x_truncation : xreal)
  (rounded : Dict.t Z R) (lower_x : xreal) (r : Z) :
  continuous_loop (Laplace_methods laplace_cdf b s) pess vdi (S fuel)
    upper_x_truncation rounded lower_x r =
  if xlt lower_x upper_x_truncation then
    match Laplace_inverse_privacy_loss b s (vdi * IZR r) with
    | Raise e => Some (Raise e)
    | Ok inverse =>
        continuous_loop (Laplace_methods laplace_cdf b s) pess vdi fuel
          upper_x_truncation
          (add_to rounded (round_fn pess (IZR r + 0.5))
             (laplace_cdf b (xmin upper_x_truncation inverse) -
              laplace_cdf b lower_x))
          (xmin upper_x_truncation inverse) (r - 1)%Z
    end
  else Some (Ok rounded).
Proof. reflexivity. Qed.

(** The loop ends once [vdi * rounded_down_value] has come down to
    [-s / b], and its masses telescope to [cdf(s) - cdf(lower_x)]. *)
Lemma Laplace_continuous_loop (fuel : nat) :
  forall (r : Z) (lower : R) (rounded : Dict.t Z R),
    lower <= s ->
    vdi * IZR r <= s / b ->
    vdi * (IZR r - INR fuel) <= - s / b ->
    exists rounded',
      continuous_loop (Laplace_methods laplace_cdf b s) pess vdi (S fuel)
        (Fin s) rounded (Fin lower) r = Some (Ok rounded') /\
      sum (Dict.values rounded') =
      sum (Dict.values rounded) +
      (laplace_cdf b (Fin s) - laplace_cdf b (Fin lower)).
Proof.
  induction fuel as [|fuel IH]; intros r lower rounded Hlower Hr Hfuel;
    rewrite continuous_loop_S; cbn [xlt xgt];
    (destruct (Rlt_dec lower s) as [Hlt|Hge];
     [|exists rounded; split; [reflexivity|];
       replace lower with s by lra; lra]);
    unfold Laplace_inverse_privacy_loss;
    rewrite !py_div_ok by lra; cbn [bind];
    (destruct (Rlt_dec (s / b) (vdi * IZR r)); [exfalso; lra|]);
    destruct (Rle_dec (vdi * IZR r) (- s / b)) as [Hend|Hmore].
  - cbn [xmin xlt xgt]. rewrite continuous_loop_done.
    eexists. split; [reflexivity|]. rewrite sum_values_add_to. lra.
  - exfalso. cbn [INR] in Hfuel. lra.
  - cbn [xmin xlt xgt]. rewrite continuous_loop_done.
    eexists. split; [reflexivity|]. rewrite sum_values_add_to. lra.
  - rewrite S_INR in Hfuel.
    assert (Hnext : vdi * IZR (r - 1) <= s / b)
      by (rewrite minus_IZR; lra).
    assert (Hfuel' : vdi * (IZR (r - 1) - INR fuel) <= - s / b).
    { rewrite minus_IZR.
      replace (IZR r - 1 - INR fuel) with (IZR r - (INR fuel + 1)) by lra.
      exact Hfuel. }
    destruct (Rlt_dec (0.5 * (s - vdi * IZR r * b)) s) as [Hin|Hout].
    + replace (xmin (Fin s) (Fin (0.5 * (s - vdi * IZR r * b))))
        with (Fin (0.5 * (s - vdi * IZR r * b)))
        by (unfold xmin, xlt, xgt;
            destruct (Rlt_dec (0.5 * (s - vdi * IZR r * b)) s);
            [reflexivity|contradiction]).
      destruct (IH (r - 1)%Z (0.5 * (s - vdi * IZR r * b))
                  (add_to rounded (round_fn pess (IZR r + 0.5))
                     (laplace_cdf b (Fin (0.5 * (s - vdi * IZR r * b))) -
                      laplace_cdf b (Fin lower)))
                  (Rlt_le _ _ Hin) Hnext Hfuel')
        as [rounded' [Hloop Hsum]].
      exists rounded'. split; [exact Hloop|].
      rewrite Hsum, sum_values_add_to. lra.
    + replace (xmin (Fin s) (Fin (0.5 * (s - vdi * IZR r * b))))
        with (Fin s)
        by (unfold xmin, xlt, xgt;
            destruct (Rlt_dec (0.5 * (s - vdi * IZR r * b)) s);
            [contradiction|reflexivity]).
      destruct (IH (r - 1)%Z s
                  (add_to rounded (round_fn pess (IZR r + 0.5))
                     (laplace_cdf b (Fin s) - laplace_cdf b (Fin lower)))
                  (Rle_refl s) Hnext Hfuel')
        as [rounded' [Hloop Hsum]].
      exists rounded'. split; [exact Hloop|].
      rewrite Hsum, sum_values_add_to. lra.
Qed.
End LaplaceLoop.

(** X23. The constructor of the Laplace PLD: a non-positive parameter or
    sensitivity is rejected with a [ValueError], and a zero interval
    raises [ZeroDivisionError]; with positive parameter b, sensitivity s
    and interval, the [while] loop of the continuous branch terminates and
    the constructor returns a PLD with infinity mass 0 whose histogram
    masses are the two tail masses plus the telescoped [cdf(s) - cdf(0)]:
    a total of [0.5 + cdf(-s) + cdf(s) - cdf(0)]. *)
Theorem Laplace_init_result (laplace_cdf : R -> xreal -> R) (b : R)
  (sensitivity : pynum) (pess : bool) (vdi : R) :
  (b <= 0 -> forall fuel,
     LaplacePrivacyLossDistribution laplace_cdf b sensitivity pess vdi fuel =
     Some (Raise (ValueError "Parameter is not a positive real number"))) /\
  (0 < b -> to_R sensitivity <= 0 -> forall fuel,
     LaplacePrivacyLossDistribution laplace_cdf b sensitivity pess vdi fuel =
     Some (Raise (ValueError "Sensitivity is not a positive real number"))) /\
  (0 < b -> 0 < to_R sensitivity -> vdi = 0 -> forall fuel,
     LaplacePrivacyLossDistribution laplace_cdf b sensitivity pess vdi fuel =
     Some (Raise ZeroDivisionError)) /\
  (0 < b -> 0 < to_R sensitivity -> 0 < vdi ->
   exists N, forall fuel, (N <= fuel)%nat ->
     exists pld,
       LaplacePrivacyLossDistribution laplace_cdf b sensitivity pess vdi fuel
         = Some (Ok pld) /\
       infinity_mass pld = 0 /\
       value_discretization_interval pld = vdi /\
       total_mass pld =
         0.5 + laplace_cdf b (Fin (- to_R sensitivity)) +
         (laplace_cdf b (Fin (to_R sensitivity)) - laplace_cdf b (Fin 0))).
Proof.
  unfold LaplacePrivacyLossDistribution.
  set (s := to_R sensitivity).
  assert (Hkeys : 0 < b -> 0 < s -> Fin (s / b) <> Fin (- s / b)).
  { intros Hb Hs [= Heq]. pose proof (Rinv_0_lt_compat b Hb).
    unfold Rdiv in Heq. nra. }
  split; [|split; [|split]].
  - intros Hb fuel. destruct (Rle_dec b 0); [reflexivity|contradiction].
  - intros Hb Hs fuel. destruct (Rle_dec b 0); [exfalso; lra|].
    unfold AdditiveNoisePrivacyLossDistribution_init. fold s.
    destruct (Rle_dec s 0); [reflexivity|contradiction].
  - intros Hb Hs -> fuel. destruct (Rle_dec b 0); [exfalso; lra|].
    unfold AdditiveNoisePrivacyLossDistribution_init. fold s.
    destruct (Rle_dec s 0); [exfalso; lra|].
    cbn [privacy_loss_tail Laplace_methods]. unfold Laplace_privacy_loss_tail.
    rewrite !py_div_ok by lra. cbn [bind tail_probability_mass_function].
    rewrite set_two_keys by now apply Hkeys.
    cbn [Dict.keys map fst foldM tail_step]. rewrite py_div_zero.
    reflexivity.
  - intros Hb Hs Hvdi. specialize (Hkeys Hb Hs).
    pose proof (Rinv_0_lt_compat b Hb) as Hinvb.
    pose proof (Rinv_0_lt_compat vdi Hvdi) as Hinvv.
    assert (Hl0 : (Rabs (0 - s) - Rabs 0) / b = s / b).
    { f_equal. unfold Rabs. repeat destruct (Rcase_abs _); lra. }
    assert (Hsb : 0 < s / b) by (apply Rdiv_lt_0_compat; assumption).
    set (r0 := math_floor (s / b / vdi)).
    assert (Hr0 : vdi * IZR r0 <= s / b).
    { pose proof (math_floor_spec (s / b / vdi)) as [Hf _]. fold r0 in Hf.
      assert (Hq : vdi * (s / b / vdi) = s / b) by (field; lra).
      rewrite <- Hq. apply Rmult_le_compat_l; lra. }
    assert (Hr0pos : 0 <= IZR r0).
    { apply IZR_le. unfold r0.
      apply (round_fn_nonneg false). apply Rlt_le.
      apply Rdiv_lt_0_compat; assumption. }
    set (x := IZR r0 + s / b / vdi).
    assert (Hx : 0 < x).
    { unfold x. assert (0 < s / b / vdi) by
        (apply Rdiv_lt_0_compat; assumption). lra. }
    destruct (archimed x) as [Hup _].
    assert (Hupz : (0 <= up x)%Z).
    { apply le_IZR. lra. }
    exists (S (Z.to_nat (up x))). intros [|fuel] Hfuel; [lia|].
    destruct (Rle_dec b 0); [exfalso; lra|].
    unfold AdditiveNoisePrivacyLossDistribution_init. fold s.
    destruct (Rle_dec s 0); [exfalso; lra|].
    cbn [privacy_loss_tail Laplace_methods]. unfold Laplace_privacy_loss_tail.
    rewrite !py_div_ok by lra.
    cbn [bind tail_probability_mass_function lower_x_truncation
         upper_x_truncation to_R].
    rewrite set_two_keys by exact Hkeys.
    cbn [Dict.keys map fst foldM tail_step].
    rewrite !py_div_ok by lra. cbn [bind].
    destruct (get_default_two_keys _ _ 0.5
                (laplace_cdf b (Fin (- s))) Hkeys) as [-> ->].
    rewrite get_default_two_keys_other by discriminate.
    cbn [privacy_loss Laplace_methods]. unfold Laplace_privacy_loss.
    cbn [to_R].
    rewrite (py_div_ok _ b) by lra. rewrite Hl0.
    rewrite py_div_ok by lra. fold r0.
    assert (Hmeasure : vdi * (IZR r0 - INR fuel) <= - s / b).
    { assert (Hf : IZR (up x) <= INR fuel).
      { rewrite <- (Z2Nat.id (up x)) by exact Hupz.
        rewrite <- INR_IZR_INZ. apply le_INR. lia. }
      assert (Hxf : x <= INR fuel) by lra.
      replace (- s / b) with (vdi * (IZR r0 - x)).
      - apply Rmult_le_compat_l; lra.
      - unfold x. field. lra. }
    destruct (Laplace_continuous_loop laplace_cdf b s pess vdi Hb Hvdi
                fuel r0 0
                (add_to (add_to [] (round_fn pess (s / b / vdi)) 0.5)
                        (round_fn pess (- s / b / vdi))
                        (laplace_cdf b (Fin (- s))))
                (Rlt_le _ _ Hs) Hr0 Hmeasure)
      as [rounded [Hloop Hsum]].
    rewrite Hloop. cbn [option_map bind]. eexists.
    split; [reflexivity|]. split; [reflexivity|]. split; [reflexivity|].
    unfold total_mass.
    cbn [infinity_mass rounded_probability_mass_function].
    rewrite Hsum, !sum_values_add_to. cbn [Dict.values map sum fold_right].
    lra.
Qed.

Lemma Laplace_init_result_witness :
  exists N, forall fuel, (N <= fuel)%nat ->
    exists pld,
      LaplacePrivacyLossDistribution (fun _ _ => 1 / 2) 1 (PyInt 1) true 1
        fuel = Some (Ok pld) /\
      infinity_mass pld = 0 /\
      value_discretization_interval pld = 1 /\
      total_mass pld = 0.5 + 1 / 2 + (1 / 2 - 1 / 2).
Proof.
  apply (proj2 (proj2 (proj2
           (Laplace_init_result (fun _ _ => 1 / 2) 1 (PyInt 1) true 1))));
    simpl; lra.
Defined.

(** ** Additive noise: the exact divergence of the Laplace mechanism *)

(** X24. When [noise_cdf] is the cdf of the Laplace distribution of scale
    b > 0, the [get_delta_for_epsilon] of the additive-noise class raises
    [OverflowError] when [math.exp(epsilon)] overflows.  When
    [math.exp(epsilon)] neither overflows nor underflows to zero, it gives
    the Laplace mechanism of sensitivity s > 0 its closed form: 0 for
    epsilon > s/b, [1 - exp((epsilon - s/b) / 2)] for
    -s/b < epsilon <= s/b, and [1 - exp(epsilon)] for epsilon <= -s/b,
    which is never negative. *)
Theorem Laplace_get_delta_for_epsilon_closed_form
  (laplace_cdf : R -> xreal -> R) (b : R) (sensitivity : pynum) (eps : R) :
  0 < b -> 0 < to_R sensitivity ->
  (forall x, x <= 0 -> laplace_cdf b (Fin x) = 0.5 * exp (x / b)) ->
  (forall x, 0 <= x -> laplace_cdf b (Fin x) = 1 - 0.5 * exp (- x / b)) ->
  laplace_cdf b PInf = 1 -> laplace_cdf b NInf = 0 ->
  (exp_overflow < eps ->
   AdditiveNoise_get_delta_for_epsilon
     (Laplace_methods laplace_cdf b (to_R sensitivity)) sensitivity eps
   = Raise OverflowError) /\
  (exp_underflow <= eps <= exp_overflow ->
   exists d,
     AdditiveNoise_get_delta_for_epsilon
       (Laplace_methods laplace_cdf b (to_R sensitivity)) sensitivity eps
       = Ok d /\
     0 <= d /\
     (to_R sensitivity / b < eps -> d = 0) /\
     (- to_R sensitivity / b < eps <= to_R sensitivity / b ->
      d = 1 - exp ((eps - to_R sensitivity / b) / 2)) /\
     (eps <= - to_R sensitivity / b -> d = 1 - exp eps)).
Proof.
  set (s := to_R sensitivity). intros Hb Hs Hneg Hpos Hinf Hninf.
  pose proof (Rinv_0_lt_compat b Hb) as Hinvb.
  assert (Hsb : 0 < s / b) by (apply Rdiv_lt_0_compat; assumption).
  assert (Hopp : - s / b = - (s / b)) by (unfold Rdiv; lra).
  unfold AdditiveNoise_get_delta_for_epsilon.
  cbn [inverse_privacy_loss Laplace_methods noise_cdf].
  unfold Laplace_inverse_privacy_loss. rewrite !py_div_ok by lra.
  cbn [bind]. split.
  { intros Hover.
    destruct (Rlt_dec (s / b) eps); [|destruct (Rle_dec eps (- s / b))];
      cbn [bind]; now rewrite math_exp_overflow. }
  intros Hrange.
  destruct (Rlt_dec (s / b) eps) as [Hhigh|Hhigh].
  - cbn [bind xsub]. rewrite math_exp_ok by exact Hrange. cbn [bind].
    rewrite Hninf. eexists. split; [reflexivity|].
    split; [lra|]. split; [intros _; lra|]. split; intros; exfalso; lra.
  - destruct (Rle_dec eps (- s / b)) as [Hlow|Hlow].
    + cbn [bind xsub]. rewrite math_exp_ok by exact Hrange. cbn [bind].
      rewrite Hinf. eexists. split; [reflexivity|].
      assert (Hexp : exp eps < 1).
      { rewrite <- exp_0. apply exp_increasing. lra. }
      split; [lra|]. split; [intros; exfalso; lra|].
      split; [intros; exfalso; lra|intros _; lra].
    + cbn [bind xsub]. rewrite math_exp_ok by exact Hrange. cbn [bind].
      fold s. eexists. split; [reflexivity|].
      assert (Hcut : 0 <= 0.5 * (s - eps * b)).
      { assert (eps * b <= s / b * b) by (apply Rmult_le_compat_r; lra).
        replace (s / b * b) with s in * by (field; lra). lra. }
      assert (Hshift : 0.5 * (s - eps * b) - s <= 0).
      { assert (- (s / b) * b < eps * b) by (apply Rmult_lt_compat_r; lra).
        replace (- (s / b) * b) with (- s) in * by (field; lra). lra. }
      rewrite (Hpos _ Hcut), (Hneg _ Hshift).
      assert (Hhalf : 0.5 = / 2) by lra.
      assert (H1 : - (0.5 * (s - eps * b)) / b = (eps - s / b) / 2)
        by (rewrite Hhalf; field; lra).
      assert (H2 : (0.5 * (s - eps * b) - s) / b =
                   (eps - s / b) / 2 - eps)
        by (rewrite Hhalf; field; lra).
      rewrite H1, H2.
      assert (Hexp : exp ((eps - s / b) / 2 - eps) =
                     exp ((eps - s / b) / 2) * / exp eps)
        by (unfold Rminus; rewrite exp_plus, exp_Ropp; reflexivity).
      rewrite Hexp.
      pose proof (exp_pos eps) as He.
      set (E := exp ((eps - s / b) / 2)).
      assert (Hcancel : exp eps * (0.5 * (E * / exp eps)) = 0.5 * E)
        by (rewrite Hhalf; field; lra).
      rewrite Hcancel.
      assert (HE : E <= 1).
      { unfold E. rewrite <- exp_0.
        destruct (Req_dec (eps - s / b) 0) as [->|Hne].
        - replace (0 / 2) with 0 by lra. lra.
        - apply Rlt_le, exp_increasing. lra. }
      split; [lra|]. split; [intros; exfalso; lra|].
      split; [intros _; lra|intros; exfalso; lra].
Qed.

Lemma Laplace_get_delta_for_epsilon_closed_form_witness :
  exists d,
    AdditiveNoise_get_delta_for_epsilon
      (Laplace_methods
         (fun b x =>
            match x with
            | Fin r => if Rle_dec r 0 then 0.5 * exp (r / b)
                       else 1 - 0.5 * exp (- r / b)
            | PInf => 1
            | NInf => 0
            end) 1 (to_R (PyInt 1))) (PyInt 1) 0 = Ok d /\
    0 <= d /\
    (to_R (PyInt 1) / 1 < 0 -> d = 0) /\
    (- to_R (PyInt 1) / 1 < 0 <= to_R (PyInt 1) / 1 ->
     d = 1 - exp ((0 - to_R (PyInt 1) / 1) / 2)) /\
    (0 <= - to_R (PyInt 1) / 1 -> d = 1 - exp 0).
Proof.
  apply (fun H1 H2 H3 H4 H5 H6 =>
           proj2 (Laplace_get_delta_for_epsilon_closed_form
           (fun b x =>
              match x with
              | Fin r => if Rle_dec r 0 then 0.5 * exp (r / b)
                         else 1 - 0.5 * exp (- r / b)
              | PInf => 1
              | NInf => 0
              end) 1 (PyInt 1) 0 H1 H2 H3 H4 H5 H6));
    try reflexivity; try (simpl; lra);
    try (unfold exp_underflow, exp_overflow; lra).
  - intros x Hx. destruct (Rle_dec x 0); [reflexivity|contradiction].
  - intros x Hx. destruct (Rle_dec x 0) as [Hle|]; [|reflexivity].
    replace x with 0 by lra.
    replace (0 / 1) with 0 by lra. replace (- 0 / 1) with 0 by lra.
    rewrite exp_0. lra.
Defined.

(** X25. [LaplacePrivacyLossDistribution.from_privacy_guarantee] divides
    the sensitivity by epsilon: epsilon = 0 raises [ZeroDivisionError], a
    negative epsilon ends in one of the two [ValueError]s of the
    constructors, and for positive epsilon and sensitivity the result is
    the Laplace PLD of parameter [sensitivity / epsilon], whose privacy
    loss lies in [-epsilon, epsilon] at every point. *)
Theorem Laplace_from_privacy_guarantee_result
  (laplace_cdf : R -> xreal -> R) (eps delta0 : R) (sensitivity : pynum)
  (pess : bool) (vdi : R) (fuel : nat) :
  (eps = 0 ->
   Laplace_from_privacy_guarantee laplace_cdf
     {| epsilon := eps; delta := delta0 |} sensitivity pess vdi fuel =
   Some (Raise ZeroDivisionError)) /\
  (eps < 0 -> 0 <= to_R sensitivity ->
   Laplace_from_privacy_guarantee laplace_cdf
     {| epsilon := eps; delta := delta0 |} sensitivity pess vdi fuel =
   Some (Raise (ValueError "Parameter is not a positive real number"))) /\
  (eps < 0 -> to_R sensitivity < 0 ->
   Laplace_from_privacy_guarantee laplace_cdf
     {| epsilon := eps; delta := delta0 |} sensitivity pess vdi fuel =
   Some (Raise (ValueError "Sensitivity is not a positive real number"))) /\
  (0 < eps -> 0 < to_R sensitivity ->
   Laplace_from_privacy_guarantee laplace_cdf
     {| epsilon := eps; delta := delta0 |} sensitivity pess vdi fuel =
   LaplacePrivacyLossDistribution laplace_cdf (to_R sensitivity / eps)
     sensitivity pess vdi fuel /\
   forall x, exists l,
     Laplace_privacy_loss (to_R sensitivity / eps) (to_R sensitivity) x
       = Ok l /\
     - eps <= l <= eps).
Proof.
  unfold Laplace_from_privacy_guarantee. cbn [epsilon].
  set (s := to_R sensitivity).
  split; [|split; [|split]].
  - intros ->. now rewrite py_div_zero.
  - intros Heps Hs. rewrite py_div_ok by lra.
    unfold LaplacePrivacyLossDistribution.
    assert (Hinv : / eps < 0) by (apply Rinv_lt_0_compat; exact Heps).
    destruct (Rle_dec (s / eps) 0) as [|Hpos]; [reflexivity|].
    exfalso. apply Hpos. unfold Rdiv. nra.
  - intros Heps Hs. rewrite py_div_ok by lra.
    unfold LaplacePrivacyLossDistribution.
    assert (Hinv : / eps < 0) by (apply Rinv_lt_0_compat; exact Heps).
    destruct (Rle_dec (s / eps) 0) as [Hneg|_].
    + exfalso. unfold Rdiv in Hneg. nra.
    + unfold AdditiveNoisePrivacyLossDistribution_init. fold s.
      destruct (Rle_dec s 0); [reflexivity|exfalso; lra].
  - intros Heps Hs. rewrite py_div_ok by lra. split; [reflexivity|].
    assert (Hb : 0 < s / eps) by (apply Rdiv_lt_0_compat; assumption).
    intros x. unfold Laplace_privacy_loss. rewrite py_div_ok by lra.
    eexists. split; [reflexivity|].
    assert (Hbound : - s <= Rabs (to_R x - s) - Rabs (to_R x) <= s).
    { unfold Rabs. repeat destruct (Rcase_abs _); lra. }
    assert (Heq : s / (s / eps) = eps) by (field; lra).
    pose proof (Rinv_0_lt_compat _ Hb) as Hinv.
    unfold Rdiv in *. set (i := / (s * / eps)) in *.
    split; nra.
Qed.

Lemma Laplace_from_privacy_guarantee_result_witness :
  Laplace_from_privacy_guarantee (fun _ _ => 1 / 2)
    {| epsilon := 1; delta := 0 |} (PyInt 1) true 1 5 =
  LaplacePrivacyLossDistribution (fun _ _ => 1 / 2) (to_R (PyInt 1) / 1)
    (PyInt 1) true 1 5 /\
  forall x, exists l,
    Laplace_privacy_loss (to_R (PyInt 1) / 1) (to_R (PyInt 1)) x = Ok l /\
    - 1 <= l <= 1.
Proof.
  apply (proj2 (proj2 (proj2
           (Laplace_from_privacy_guarantee_result (fun _ _ => 1 / 2) 1 0
              (PyInt 1) true 1 5)))); simpl; lra.
Defined.

(** X26. One turn of the [while] loop of the continuous branch, for the
    Laplace mechanism with positive parameter, sensitivity and interval:
    if the privacy loss at [lower_x] lies in
    [vdi * rounded_down_value, vdi * (rounded_down_value + 1)], then so
    does the privacy loss of every x in [lower_x, upper_x], whose mass
    [cdf(upper_x) - cdf(lower_x)] goes to bucket [rounded_down_value + 1]
    (pessimistic) or [rounded_down_value] (optimistic); and unless the
    loop is over ([upper_x] is the sensitivity) the same holds of the
    next turn's [lower_x] and [rounded_down_value]. *)
Theorem Laplace_continuous_bucket (laplace_cdf : R -> xreal -> R)
  (b s : R) (pess : bool) (vdi : R) (fuel : nat) (rounded : Dict.t Z R)
  (lower : R) (r : Z) :
  0 < b -> 0 < s -> 0 < vdi -> 0 <= lower < s ->
  (exists l0, Laplace_privacy_loss b s (PyFloat lower) = Ok l0 /\
              vdi * IZR r <= l0 <= vdi * IZR (r + 1)) ->
  exists upper,
    lower <= upper <= s /\
    continuous_loop (Laplace_methods laplace_cdf b s) pess vdi (S fuel)
      (Fin s) rounded (Fin lower) r =
    continuous_loop (Laplace_methods laplace_cdf b s) pess vdi fuel
      (Fin s)
      (add_to rounded (if pess then (r + 1)%Z else r)
         (laplace_cdf b (Fin upper) - laplace_cdf b (Fin lower)))
      (Fin upper) (r - 1)%Z /\
    (forall x, lower <= to_R x <= upper ->
       exists l, Laplace_privacy_loss b s x = Ok l /\
                 vdi * IZR r <= l <= vdi * IZR (r + 1)) /\
    (upper < s ->
     exists l, Laplace_privacy_loss b s (PyFloat upper) = Ok l /\
               vdi * IZR (r - 1) <= l <= vdi * IZR (r - 1 + 1)).
Proof.
  intros Hb Hs Hvdi Hlower [l0 [Hl0 Hbucket]].
  pose proof (Rinv_0_lt_compat b Hb) as Hinvb.
  assert (Hloss : forall x, 0 <= to_R x <= s ->
    Laplace_privacy_loss b s x = Ok ((s - 2 * to_R x) / b)).
  { intros x Hx. unfold Laplace_privacy_loss. rewrite py_div_ok by lra.
    do 2 f_equal. unfold Rabs. repeat destruct (Rcase_abs _); lra. }
  rewrite Hloss in Hl0 by (cbn [to_R]; lra). cbn [to_R] in Hl0.
  injection Hl0 as <-.
  assert (Hround : round_fn pess (IZR r + 0.5) =
                   if pess then (r + 1)%Z else r).
  { destruct pess; cbn [round_fn].
    - apply math_ceil_unique. rewrite plus_IZR. lra.
    - apply math_floor_unique. lra. }
  assert (Hmul : forall t, t / b * b = t) by (intros t; field; lra).
  pose proof (Hmul (s - 2 * lower)) as Hm0. pose proof (Hmul s) as Hms.
  rewrite plus_IZR in Hbucket.
  rewrite continuous_loop_S. cbn [xlt xgt].
  destruct (Rlt_dec lower s) as [_|Hge]; [|exfalso; lra].
  unfold Laplace_inverse_privacy_loss. rewrite !py_div_ok by lra.
  cbn [bind].
  assert (Htop : (s - 2 * lower) / b <= s / b).
  { unfold Rdiv. apply Rmult_le_compat_r; lra. }
  destruct (Rlt_dec (s / b) (vdi * IZR r)); [exfalso; lra|].
  destruct (Rle_dec (vdi * IZR r) (- s / b)) as [Hend|Hmore].
  - exists s. cbn [xmin xlt xgt]. rewrite Hround.
    split; [lra|]. split; [reflexivity|]. split; [|intros; exfalso; lra].
    intros x Hx. rewrite Hloss by lra. eexists. split; [reflexivity|].
    rewrite plus_IZR.
    assert ((s - 2 * to_R x) / b <= (s - 2 * lower) / b)
      by (unfold Rdiv; apply Rmult_le_compat_r; lra).
    assert (- s / b <= (s - 2 * to_R x) / b)
      by (unfold Rdiv; apply Rmult_le_compat_r; lra).
    lra.
  - set (inv := 0.5 * (s - vdi * IZR r * b)).
    assert (Hinv1 : lower <= inv).
    { unfold inv.
      assert (vdi * IZR r * b <= (s - 2 * lower) / b * b)
        by (apply Rmult_le_compat_r; lra).
      lra. }
    assert (Hinv2 : inv < s).
    { unfold inv.
      assert (- s / b * b < vdi * IZR r * b)
        by (apply Rmult_lt_compat_r; lra).
      pose proof (Hmul (- s)). lra. }
    assert (Hinvloss : (s - 2 * inv) / b = vdi * IZR r).
    { unfold inv.
      replace (s - 2 * (0.5 * (s - vdi * IZR r * b)))
        with (vdi * IZR r * b) by lra.
      field. lra. }
    exists inv.
    replace (xmin (Fin s) (Fin inv)) with (Fin inv)
      by (unfold xmin, xlt, xgt; destruct (Rlt_dec inv s);
          [reflexivity|contradiction]).
    rewrite Hround. split; [lra|]. split; [reflexivity|]. split.
    + intros x Hx. rewrite Hloss by lra. eexists. split; [reflexivity|].
      rewrite plus_IZR.
      assert ((s - 2 * to_R x) / b <= (s - 2 * lower) / b)
        by (unfold Rdiv; apply Rmult_le_compat_r; lra).
      assert ((s - 2 * inv) / b <= (s - 2 * to_R x) / b)
        by (unfold Rdiv; apply Rmult_le_compat_r; lra).
      lra.
    + intros _. rewrite Hloss by (cbn [to_R]; lra). cbn [to_R].
      eexists. split; [reflexivity|]. rewrite Hinvloss.
      replace (r - 1 + 1)%Z with r by lia. rewrite minus_IZR.
      split; [|lra]. apply Rmult_le_compat_l; lra.
Qed.

Lemma Laplace_continuous_bucket_witness :
  exists upper,
    0 <= upper <= 1 /\
    continuous_loop (Laplace_methods (fun _ _ => 1 / 2) 1 1) true 1 1
      (Fin 1) [] (Fin 0) 1 =
    continuous_loop (Laplace_methods (fun _ _ => 1 / 2) 1 1) true 1 0
      (Fin 1)
      (add_to [] (if true then (1 + 1)%Z else 1%Z)
         ((fun _ _ => 1 / 2) 1 (Fin upper) - (fun _ _ => 1 / 2) 1 (Fin 0)))
      (Fin upper) (1 - 1)%Z /\
    (forall x, 0 <= to_R x <= upper ->
       exists l, Laplace_privacy_loss 1 1 x = Ok l /\
                 1 * IZR 1 <= l <= 1 * IZR (1 + 1)) /\
    (upper < 1 ->
     exists l, Laplace_privacy_loss 1 1 (PyFloat upper) = Ok l /\
               1 * IZR (1 - 1) <= l <= 1 * IZR (1 - 1 + 1)).
Proof.
  apply (Laplace_continuous_bucket (fun _ _ => 1 / 2) 1 1 true 1 0 [] 0 1);
    try lra.
  exists ((Rabs (0 - 1) - Rabs 0) / 1). split.
  - unfold Laplace_privacy_loss. cbn [to_R]. apply py_div_ok. lra.
  - replace (Rabs (0 - 1) - Rabs 0) with 1
      by (unfold Rabs; repeat destruct (Rcase_abs _); lra).
    change (IZR (1 + 1)) with 2. lra.
Defined.

(** ** Histograms built from two mass functions: what is raised *)

Section TwoMassFunctionsErrors.
Context {O : Type} `{EqDec O}.
Variables (lower upper : Dict.t O logmass).
Variables (pess : bool) (bound : xreal).

Lemma set_not_nil {K V : Type} `{EqDec K} (d : Dict.t K V) (k : K) (v : V) :
  Dict.set d k v <> [].
Proof.
  destruct d as [|[k' v'] d]; cbn [Dict.set]; [discriminate|].
  destruct (eq_dec k' k); discriminate.
Qed.

Lemma privacy_loss_step_not_nil (st st' : Dict.t R R * R) (o : O) :
  privacy_loss_step lower upper pess bound st o = Ok st' ->
  fst st <> [] -> fst st' <> [].
Proof.
  destruct st as [pmf im]. unfold privacy_loss_step. intros Hstep Hne.
  cbn [fst] in Hne.
  destruct (Dict.get_default lower o LogZero); [|now injection Hstep as <-].
  destruct (xgt _ bound).
  - destruct (Dict.get_default upper o LogZero);
      [|now injection Hstep as <-].
    apply bind_inv in Hstep as [m [_ Hstep]]. injection Hstep as <-.
    cbn [fst]. apply set_not_nil.
  - destruct pess; [|now injection Hstep as <-].
    apply bind_inv in Hstep as [m [_ Hstep]]. now injection Hstep as <-.
Qed.

Lemma privacy_loss_step_stores (st st' : Dict.t R R * R) (o : O) (l u : R) :
  Dict.get_default lower o LogZero = LogMass l ->
  Dict.get_default upper o LogZero = LogMass u ->
  xgt (Fin u) bound = true ->
  privacy_loss_step lower upper pess bound st o = Ok st' ->
  fst st' <> [].
Proof.
  destruct st as [pmf im]. unfold privacy_loss_step. intros Hl Hu Hgt.
  rewrite Hl, Hu. cbn [logmass_to_xreal]. rewrite Hgt. intros Hstep.
  apply bind_inv in Hstep as [m [_ Hstep]]. injection Hstep as <-.
  cbn [fst]. apply set_not_nil.
Qed.

(** The second loop leaves a privacy loss value behind as soon as one
    outcome has finite log masses in both distributions, the upper one
    above the truncation bound. *)
Lemma privacy_loss_steps_not_nil (outcomes : list O) :
  forall st st',
    foldM (privacy_loss_step lower upper pess bound) outcomes st = Ok st' ->
    fst st <> [] \/
    (exists o l u,
       In o outcomes /\
       Dict.get_default lower o LogZero = LogMass l /\
       Dict.get_default upper o LogZero = LogMass u /\
       xgt (Fin u) bound = true) ->
    fst st' <> [].
Proof.
  induction outcomes as [|o outcomes IH]; intros st st' Hfold Hcase;
    simpl in Hfold.
  - injection Hfold as <-.
    destruct Hcase as [Hne|(o & l & u & [] & _)]. exact Hne.
  - apply bind_inv in Hfold as [s1 [Hstep Hfold]].
    apply (IH s1 st' Hfold).
    destruct Hcase as [Hne|(o' & l & u & [<-|Hin] & Hl & Hu & Hgt)].
    + left. now apply (privacy_loss_step_not_nil st s1 o).
    + left. now apply (privacy_loss_step_stores st s1 o l u).
    + right. now exists o', l, u.
Qed.

Lemma discretize_zero_interval (pmf : Dict.t R R) :
  pmf <> [] -> discretize pess 0 pmf = Raise ZeroDivisionError.
Proof.
  destruct pmf as [|[v m] pmf]; [contradiction|]. intros _.
  unfold discretize. cbn [Dict.keys map fst foldM].
  now rewrite py_div_zero.
Qed.

Lemma math_exp_raises (x : R) (e : exn) :
  math_exp x = Raise e -> e = OverflowError.
Proof.
  unfold math_exp. destruct (Rlt_dec exp_overflow x); [|discriminate].
  now intros [= <-].
Qed.

Lemma upper_only_step_raises (im : R) (o : O) (e : exn) :
  upper_only_step lower upper im o = Raise e -> e = OverflowError.
Proof.
  unfold upper_only_step.
  destruct (Dict.get_default lower o LogZero); [discriminate|].
  destruct (Dict.get_default upper o LogZero) as [u|];
    cbn [math_exp_logmass bind]; [|discriminate].
  destruct (math_exp u) as [m|e'] eqn:Hexp; cbn [bind]; [discriminate|].
  intros [= <-]. exact (math_exp_raises u e' Hexp).
Qed.

Lemma privacy_loss_step_raises (st : Dict.t R R * R) (o : O) (e : exn) :
  privacy_loss_step lower upper pess bound st o = Raise e ->
  e = OverflowError.
Proof.
  destruct st as [pmf im]. unfold privacy_loss_step.
  destruct (Dict.get_default lower o LogZero); [|discriminate].
  destruct (Dict.get_default upper o LogZero) as [u|];
    cbn [logmass_to_xreal math_exp_logmass].
  - destruct (xgt (Fin u) bound); [|destruct pess; [|discriminate]];
      (destruct (math_exp u) as [m|e'] eqn:Hexp; cbn [bind]; [discriminate|];
       intros [= <-]; exact (math_exp_raises u e' Hexp)).
  - destruct (xgt NInf bound); [discriminate|].
    destruct pess; discriminate.
Qed.

(** The first loop raises when [math.exp] overflows at the log mass of an
    outcome outside the support of the lower distribution. *)
Lemma upper_only_mass_overflow :
  (exists o u,
     In o (Dict.keys upper) /\
     Dict.get_default lower o LogZero = LogZero /\
     Dict.get_default upper o LogZero = LogMass u /\
     exp_overflow < u) ->
  upper_only_mass lower upper = Raise OverflowError.
Proof.
  intros (o & u & Hin & Hl & Hu & Hover). apply foldM_raises.
  - apply upper_only_step_raises.
  - exists o. split; [exact Hin|]. intros im. unfold upper_only_step.
    rewrite Hl, Hu. cbn [math_exp_logmass]. now rewrite math_exp_overflow.
Qed.

(** The second loop raises when [math.exp] overflows at the upper log mass
    of an outcome of the lower distribution whose mass it computes. *)
Lemma privacy_loss_steps_overflow (st : Dict.t R R * R) :
  (exists o l u,
     In o (Dict.keys lower) /\
     Dict.get_default lower o LogZero = LogMass l /\
     Dict.get_default upper o LogZero = LogMass u /\
     exp_overflow < u /\
     (xgt (Fin u) bound = true \/ pess = true)) ->
  foldM (privacy_loss_step lower upper pess bound) (Dict.keys lower) st =
  Raise OverflowError.
Proof.
  intros (o & l & u & Hin & Hl & Hu & Hover & Hcomputed).
  apply foldM_raises.
  - apply privacy_loss_step_raises.
  - exists o. split; [exact Hin|]. intros [pmf im].
    unfold privacy_loss_step. rewrite Hl, Hu.
    cbn [logmass_to_xreal math_exp_logmass].
    destruct (xgt (Fin u) bound) eqn:Hgt.
    + now rewrite math_exp_overflow.
    + destruct Hcomputed as [Hc| ->]; [discriminate|].
      now rewrite math_exp_overflow.
Qed.

Lemma upper_only_mass_raises (e : exn) :
  upper_only_mass lower upper = Raise e -> e = OverflowError.
Proof.
  unfold upper_only_mass. generalize 0 as im.
  induction (Dict.keys upper) as [|o l IH]; intros im; simpl;
    [discriminate|].
  destruct (upper_only_step lower upper im o) as [im'|e'] eqn:Hstep;
    cbn [bind]; [apply IH|].
  intros [= <-]. exact (upper_only_step_raises im o e' Hstep).
Qed.
End TwoMassFunctionsErrors.

(** X27. What [from_two_probability_mass_functions] raises.  With a zero
    interval and no log mass at which [math.exp] overflows, it raises
    [ZeroDivisionError] as soon as one outcome has a finite log mass in
    both distributions with the upper one above the truncation bound.  It
    raises [OverflowError] when [math.exp] overflows at the log mass the
    upper distribution gives to an outcome whose mass the code computes:
    one outside the support of the lower distribution, or one inside it
    that lies above the truncation bound or is counted by the pessimistic
    estimate. *)
Theorem from_two_probability_mass_functions_errors
  {O : Type} `{EqDec O} (lower upper : Dict.t O logmass)
  (pess : bool) (vdi : R) (bound : xreal) :
  (vdi = 0 -> no_exp_overflow upper ->
   (exists o l u,
      In o (Dict.keys lower) /\
      Dict.get_default lower o LogZero = LogMass l /\
      Dict.get_default upper o LogZero = LogMass u /\
      xgt (Fin u) bound = true) ->
   from_two_probability_mass_functions lower upper pess vdi bound =
   Raise ZeroDivisionError) /\
  ((exists o u,
      In o (Dict.keys upper) /\
      Dict.get_default lower o LogZero = LogZero /\
      Dict.get_default upper o LogZero = LogMass u /\
      exp_overflow < u) ->
   from_two_probability_mass_functions lower upper pess vdi bound =
   Raise OverflowError) /\
  ((exists o l u,
      In o (Dict.keys lower) /\
      Dict.get_default lower o LogZero = LogMass l /\
      Dict.get_default upper o LogZero = LogMass u /\
      exp_overflow < u /\
      (xgt (Fin u) bound = true \/ pess = true)) ->
   from_two_probability_mass_functions lower upper pess vdi bound =
   Raise OverflowError).
Proof.
  unfold from_two_probability_mass_functions. split; [|split].
  - intros -> Hno Hstored.
    destruct (upper_only_mass_ok lower upper Hno) as [im0 ->]. cbn [bind].
    destruct (privacy_loss_steps_ok lower upper pess bound
                (Dict.keys lower) ([], im0) Hno) as [[pmf im] Hsteps].
    rewrite Hsteps. cbn [bind].
    rewrite discretize_zero_interval; [reflexivity|].
    apply (privacy_loss_steps_not_nil lower upper pess bound _ _ _ Hsteps).
    now right.
  - intros Hover. now rewrite upper_only_mass_overflow.
  - intros Hover.
    destruct (upper_only_mass lower upper) as [im0|e] eqn:Hfirst;
      cbn [bind].
    + now rewrite privacy_loss_steps_overflow.
    + now rewrite (upper_only_mass_raises lower upper e Hfirst).
Qed.

Lemma from_two_probability_mass_functions_errors_witness :
  from_two_probability_mass_functions
    [(0%Z, LogMass 0)] [(0%Z, LogMass 0)] true 0 NInf =
  Raise ZeroDivisionError.
Proof.
  apply (proj1 (from_two_probability_mass_functions_errors
                  [(0%Z, LogMass 0)] [(0%Z, LogMass 0)] true 0 NInf));
    [reflexivity| |].
  - intros o u. unfold Dict.get_default. cbn [Dict.get].
    destruct (eq_dec 0%Z o); [|discriminate].
    intros [= <-]. unfold exp_overflow. lra.
  - exists 0%Z, 0, 0. repeat split. now left.
Defined.

(** ** C2: histograms that store a mass of zero *)

(** [math.exp(-800.0)] is [0.0]: the outcome 0, of upper log mass -800,
    is stored under bucket -800 with mass zero. *)
Lemma two_mass_functions_underflow :
  exists pld,
    from_two_probability_mass_functions
      [(0%Z, LogMass 0)] [(0%Z, LogMass (-800)); (1%Z, LogMass 0)]
      true 1 NInf = Ok pld /\
    Dict.get (rounded_probability_mass_function pld) (-800)%Z = Some 0.
Proof.
  pose proof exp_range_bounds as Hb.
  unfold from_two_probability_mass_functions, upper_only_mass,
    upper_only_step, privacy_loss_step, Dict.get_default.
  cbn [Dict.keys map fst foldM Dict.get]. decide_keys.
  cbn [math_exp_logmass bind logmass_to_xreal xgt].
  rewrite (math_exp_ok 0) by lra. cbn [bind].
  rewrite (math_exp_value (-800)) by lra. cbn [bind].
  rewrite float_exp_underflow by (unfold exp_underflow; lra).
  unfold discretize. cbn [Dict.set Dict.keys map fst foldM].
  rewrite py_div_ok by lra. cbn [bind round_fn].
  rewrite (math_ceil_eq _ (-800)) by lra.
  eexists. split; [reflexivity|].
  cbn [rounded_probability_mass_function]. unfold add_to.
  rewrite get_set_same. unfold Dict.get_default. cbn [Dict.get].
  decide_keys. f_equal. lra.
Qed.

(** The Laplace PLD of parameter 1 and sensitivity 1 at interval 1.  The
    loop of the continuous branch starts at [lower_x = 0] with
    [rounded_down_value = 1]; [inverse_privacy_loss(1)] is 0, so the first
    turn adds [noise_cdf(0) - noise_cdf(0)] to bucket [ceil(1.5) = 2],
    which no other turn and no tail mass touches. *)
Lemma Laplace_stores_zero_mass (laplace_cdf : R -> xreal -> R) :
  exists pld,
    LaplacePrivacyLossDistribution laplace_cdf 1 (PyInt 1) true 1 3 =
      Some (Ok pld) /\
    Dict.get (rounded_probability_mass_function pld) 2%Z = Some 0.
Proof.
  unfold LaplacePrivacyLossDistribution.
  destruct (Rle_dec 1 0) as [Hle|_]; [exfalso; lra|].
  unfold AdditiveNoisePrivacyLossDistribution_init. cbn [to_R].
  destruct (Rle_dec 1 0) as [Hle|_]; [exfalso; lra|].
  cbn [privacy_loss_tail Laplace_methods]. unfold Laplace_privacy_loss_tail.
  rewrite !py_div_ok by lra.
  cbn [bind tail_probability_mass_function lower_x_truncation
       upper_x_truncation to_R].
  assert (Hkeys : Fin (1 / 1) <> Fin (- (1) / 1)) by (intros [= Heq]; lra).
  rewrite set_two_keys by exact Hkeys.
  cbn [Dict.keys map fst foldM tail_step].
  rewrite !py_div_ok by lra. cbn [bind round_fn].
  rewrite (math_ceil_eq (1 / 1 / 1) 1) by lra.
  rewrite (math_ceil_eq (- (1) / 1 / 1) (-1)) by lra.
  set (tail_buckets := add_to (add_to [] 1%Z _) (-1)%Z _).
  assert (Htail : Dict.get_default tail_buckets 2%Z 0 = 0).
  { apply get_default_none. unfold tail_buckets.
    rewrite !get_add_to_other by lia. reflexivity. }
  cbn [privacy_loss Laplace_methods]. unfold Laplace_privacy_loss.
  cbn [to_R]. rewrite !py_div_ok by lra.
  assert (Hl0 : (Rabs (0 - 1) - Rabs 0) / 1 / 1 = IZR 1).
  { unfold Rabs. repeat destruct (Rcase_abs _); lra. }
  rewrite (math_floor_eq _ 1 Hl0).
  assert (Hinv1 : Laplace_inverse_privacy_loss 1 1 (1 * IZR 1) = Ok (Fin 0)).
  { unfold Laplace_inverse_privacy_loss. rewrite !py_div_ok by lra.
    cbn [bind]. decide_R. apply f_equal, f_equal. lra. }
  assert (Hinv0 : Laplace_inverse_privacy_loss 1 1 (1 * IZR 0) =
                  Ok (Fin (1 / 2))).
  { unfold Laplace_inverse_privacy_loss. rewrite !py_div_ok by lra.
    cbn [bind]. decide_R. apply f_equal, f_equal. lra. }
  assert (Hinvm : Laplace_inverse_privacy_loss 1 1 (1 * IZR (-1)) = Ok PInf).
  { unfold Laplace_inverse_privacy_loss. rewrite !py_div_ok by lra.
    cbn [bind]. decide_R. reflexivity. }
  assert (Hmin1 : xmin (Fin 1) (Fin 0) = Fin 0).
  { unfold xmin, xlt, xgt. decide_R. reflexivity. }
  assert (Hmin0 : xmin (Fin 1) (Fin (1 / 2)) = Fin (1 / 2)).
  { unfold xmin, xlt, xgt. decide_R. reflexivity. }
  assert (Hlt1 : xlt (Fin 0) (Fin 1) = true).
  { unfold xlt, xgt. decide_R. reflexivity. }
  assert (Hlt0 : xlt (Fin (1 / 2)) (Fin 1) = true).
  { unfold xlt, xgt. decide_R. reflexivity. }
  rewrite (continuous_loop_S laplace_cdf 1 1 true 1), Hlt1, Hinv1, Hmin1.
  change (1 - 1)%Z with 0%Z.
  rewrite (continuous_loop_S laplace_cdf 1 1 true 1), Hlt1, Hinv0, Hmin0.
  change (0 - 1)%Z with (-1)%Z.
  rewrite (continuous_loop_S laplace_cdf 1 1 true 1), Hlt0, Hinvm.
  change (xmin (Fin 1) PInf) with (Fin 1).
  rewrite continuous_loop_done. cbn [option_map bind round_fn].
  rewrite (math_ceil_unique (1 + 0.5) 2) by lra.
  rewrite (math_ceil_unique (0 + 0.5) 1) by lra.
  rewrite (math_ceil_unique (-1 + 0.5) 0) by lra.
  eexists. split; [reflexivity|].
  cbn [rounded_probability_mass_function].
  rewrite !get_add_to_other by lia. rewrite get_add_to_same, Htail.
  apply f_equal. lra.
Qed.

